(** * Matrix multiplication kernels: a shallow embedding and its properties

    The development follows the C sources:
    - [include/matrix.h]      the [Matrix] record and the element accessors,
    - [src/matrix_naive.c]    creation, initialisation, the naive kernel, the verifier,
    - [src/matrix_tiled.c]    the blocked kernel and the tile-size helper,
    - [src/matrix_vector.c]   the lane-chunked kernel,
    - [src/utils.c]           the linear-congruential generator.

    Conventions.
    - [size_t] is a 64-bit unsigned integer: a [Z] in [0, 2^64) with the
      wrap-around of every operation written out ([wadd], [wsub], [wmul]).
    - [double] is an abstract type [T] with the operations the sources use
      ([DoubleOps]); nothing is assumed about them unless a section says so.
      [QOps] instantiates them with exact rationals, [Binary64Ops] with the
      IEEE binary64 numbers a [double] is on the target.
    - A buffer is a [list T]; an access outside it is undefined behaviour in C
      and gives [Fault] here.
    - Loops take fuel; running out of it gives [OutOfFuel], which is neither a
      result nor a fault.
    - The output matrix is threaded through the kernels as explicit state,
      together with a log of the offsets written by [MATRIX_SET].  The inputs
      [A] and [B] are [const] and are taken as values distinct from the output
      object.

    Layout: the embedding of the sources; the specification-side notions
    ([well_formed], [entry], [dot]); loop rules; then one part per routine.
    The three kernels are related at the end, on the extents on which the
    unsigned bounds [k_end - 3] and [p - 8] do not wrap and on the extents on
    which they do.  The last part covers the further routines of the same
    files: the two alternative blocked kernels, more on the verifier, the
    generator and the tile-size helper, the heap discipline of
    [matrix_create] and [matrix_destroy], and the driver in [src/main.c]. *)

From Stdlib Require Import ZArith QArith Qabs Lia Bool.
From stdpp Require Import base list gmap strings.
From Stdlib Require Import Ascii.
From Stdlib Require Import Floats.
From Stdlib Require Uint63.

Local Open Scope Z_scope.

(** ** Machine integers *)

Module SizeT.

Definition modulus : Z := 2 ^ 64.

Definition wrap (z : Z) : Z := z mod modulus.
Definition wadd (a b : Z) : Z := wrap (a + b).
Definition wsub (a b : Z) : Z := wrap (a - b).
Definition wmul (a b : Z) : Z := wrap (a * b).
Definition wshl1 (a : Z) : Z := wrap (Z.shiftl a 1).
Definition wshr1 (a : Z) : Z := Z.shiftr a 1.

End SizeT.

Module UInt.

(** [unsigned int] is 32 bits wide. *)
Definition modulus : Z := 2 ^ 32.
Definition wrap (z : Z) : Z := z mod modulus.

End UInt.

Import SizeT.

(** ** Outcomes of a run *)

Inductive outcome (A : Type) : Type :=
| Ok (a : A)
| Fault
| OutOfFuel.

Arguments Ok {A} a.
Arguments Fault {A}.
Arguments OutOfFuel {A}.

Definition obind {A B : Type} (m : outcome A) (k : A -> outcome B) : outcome B :=
  match m with
  | Ok a => k a
  | Fault => Fault
  | OutOfFuel => OutOfFuel
  end.

Notation "'let*' x ':=' m 'in' k" := (obind m (fun x => k))
  (at level 10, x pattern, m at level 100, k at level 200).

(** [for (; cond x; x = next x) body]: the loop variable is returned with the
    state because two of the kernels go on using it after the loop. *)
Fixpoint for_loop {St : Type} (fuel : nat) (cond : Z -> bool) (next : Z -> Z)
    (body : Z -> St -> outcome St) (x : Z) (s : St) : outcome (Z * St) :=
  if cond x then
    match fuel with
    | O => OutOfFuel
    | S fuel' =>
        match body x s with
        | Ok s' => for_loop fuel' cond next body (next x) s'
        | Fault => Fault
        | OutOfFuel => OutOfFuel
        end
    end
  else Ok (x, s).

Definition incr (x : Z) : Z := wadd x 1.

(** ** Element arithmetic *)

Class DoubleOps (T : Type) : Type := {
  d_zero : T;
  d_add : T -> T -> T;
  d_sub : T -> T -> T;
  d_mul : T -> T -> T;
  d_div : T -> T -> T;
  d_fabs : T -> T;
  d_gt : T -> T -> bool;
  d_le : T -> T -> Prop;
  d_of_uint : Z -> T
}.

#[export] Instance QOps : DoubleOps Q := {
  d_zero := 0%Q;
  d_add := Qplus;
  d_sub := Qminus;
  d_mul := Qmult;
  d_div := Qdiv;
  d_fabs := Qabs;
  d_gt := fun a b => negb (Qle_bool a b);
  d_le := Qle;
  d_of_uint := inject_Z
}.

(** IEEE binary64 with round-to-nearest-even, as the primitive floats have
    it: [x > y] is [y < x], false as soon as one side is a NaN, and the
    conversion of an [unsigned int] is exact.  It is passed by name where it
    is meant, so that element types are never resolved to it by default. *)
Definition Binary64Ops : DoubleOps float := {|
  d_zero := PrimFloat.zero;
  d_add := PrimFloat.add;
  d_sub := PrimFloat.sub;
  d_mul := PrimFloat.mul;
  d_div := PrimFloat.div;
  d_fabs := PrimFloat.abs;
  d_gt := fun a b => PrimFloat.ltb b a;
  d_le := fun a b => PrimFloat.leb a b = true;
  d_of_uint := fun z => PrimFloat.of_uint63 (Uint63.of_Z z)
|}.

(** ** The matrix container (matrix.h) *)

Section Container.

Context {T : Type} `{DoubleOps T}.

Record Matrix : Type := {
  data : option (list T);
  rows : Z;
  cols : Z
}.

(** A [Matrix*]; [None] is the null pointer. *)
Definition handle : Type := option Matrix.

(** The output object under mutation and the log of [MATRIX_SET] offsets. *)
Record store : Type := {
  out : Matrix;
  writes : list Z
}.

Definition offset (mat : Matrix) (i j : Z) : Z := wadd (wmul i (cols mat)) j.

Definition MATRIX_GET (mat : Matrix) (i j : Z) : outcome T :=
  match data mat with
  | None => Fault
  | Some buf =>
      match buf !! Z.to_nat (offset mat i j) with
      | Some v => Ok v
      | None => Fault
      end
  end.

Definition MATRIX_SET (i j : Z) (val : T) (s : store) : outcome store :=
  match data (out s) with
  | None => Fault
  | Some buf =>
      let o := offset (out s) i j in
      if o <? Z.of_nat (length buf) then
        Ok {| out := {| data := Some (<[Z.to_nat o := val]> buf);
                        rows := rows (out s); cols := cols (out s) |};
              writes := writes s ++ [o] |}
      else Fault
  end.

Definition usable (h : handle) : bool :=
  match h with
  | Some mat => match data mat with Some _ => true | None => false end
  | None => false
  end.

Definition compatible (a b c : Matrix) : bool :=
  negb ((negb (cols a =? rows b)) || (negb (rows a =? rows c)) || (negb (cols b =? cols c))).

(** [sum += MATRIX_GET(A, i, k) * MATRIX_GET(B, k, j)], the statement the naive
    and the tiled kernel share. *)
Definition mac (a b : Matrix) (i k j : Z) (sum : T) : outcome T :=
  let* x := MATRIX_GET a i k in
  let* y := MATRIX_GET b k j in
  Ok (d_add sum (d_mul x y)).

(** *** matrix_naive.c: [matrix_mult_naive] *)

Definition naive_loops (fuel : nat) (a b : Matrix) (s : store) : outcome store :=
  let n := rows a in
  let m := cols a in
  let p := cols b in
  let* (_, s) := for_loop fuel (fun i => i <? n) incr (fun i s =>
    let* (_, s) := for_loop fuel (fun j => j <? p) incr (fun j s =>
      let* (_, sum) := for_loop fuel (fun k => k <? m) incr (fun k sum =>
        mac a b i k j sum) 0 d_zero in
      MATRIX_SET i j sum s) 0 s in
    Ok s) 0 s in
  Ok s.

Definition matrix_mult_naive (fuel : nat) (A B C : handle) : outcome (handle * list Z) :=
  match A, B, C with
  | Some a, Some b, Some c =>
      if negb (usable A && usable B && usable C) then Ok (C, [])
      else if negb (compatible a b c) then Ok (C, [])
      else
        let* s := naive_loops fuel a b {| out := c; writes := [] |} in
        Ok (Some (out s), writes s)
  | _, _, _ => Ok (C, [])
  end.

(** *** matrix_naive.c: [matrix_init_zero]

    [memset] clears [bytes] bytes; the elements are 8 bytes wide and the byte
    count passed is always a multiple of 8, so [bytes / 8] leading elements
    become [0.0] (all bits zero).  Clearing past the end of the buffer is
    undefined. *)

Definition sizeof_double : Z := 8.

Definition memset_zero (buf : list T) (bytes : Z) : outcome (list T) :=
  let cnt := bytes / sizeof_double in
  if cnt <=? Z.of_nat (length buf) then
    Ok (replicate (Z.to_nat cnt) d_zero ++ drop (Z.to_nat cnt) buf)
  else Fault.

Definition matrix_init_zero (mat : Matrix) : outcome Matrix :=
  match data mat with
  | None => Ok mat
  | Some buf =>
      let* buf' := memset_zero buf (wmul (wmul (rows mat) (cols mat)) sizeof_double) in
      Ok {| data := Some buf'; rows := rows mat; cols := cols mat |}
  end.

Definition init_zero_out (s : store) : outcome store :=
  let* c := matrix_init_zero (out s) in
  Ok {| out := c; writes := writes s |}.

(** *** matrix_tiled.c: [matrix_mult_tiled] *)

Definition tile_end (x tile_size bound : Z) : Z :=
  if wadd x tile_size <? bound then wadd x tile_size else bound.

Definition tiled_loops (fuel : nat) (a b : Matrix) (tile_size : Z) (s : store)
    : outcome store :=
  let n := rows a in
  let m := cols a in
  let p := cols b in
  let* (_, s) := for_loop fuel (fun ii => ii <? n) (fun ii => wadd ii tile_size) (fun ii s =>
    let* (_, s) := for_loop fuel (fun jj => jj <? p) (fun jj => wadd jj tile_size) (fun jj s =>
      let* (_, s) := for_loop fuel (fun kk => kk <? m) (fun kk => wadd kk tile_size) (fun kk s =>
        let i_end := tile_end ii tile_size n in
        let j_end := tile_end jj tile_size p in
        let k_end := tile_end kk tile_size m in
        let* (_, s) := for_loop fuel (fun i => i <? i_end) incr (fun i s =>
          let* (_, s) := for_loop fuel (fun j => j <? j_end) incr (fun j s =>
            let* sum := MATRIX_GET (out s) i j in
            let* (k, sum) :=
              for_loop fuel (fun k => k <? wsub k_end 3) (fun k => wadd k 4) (fun k sum =>
                let* sum := mac a b i k j sum in
                let* sum := mac a b i (wadd k 1) j sum in
                let* sum := mac a b i (wadd k 2) j sum in
                mac a b i (wadd k 3) j sum) kk sum in
            let* (_, sum) :=
              for_loop fuel (fun k => k <? k_end) incr (fun k sum =>
                mac a b i k j sum) k sum in
            MATRIX_SET i j sum s) jj s in
          Ok s) ii s in
        Ok s) 0 s in
      Ok s) 0 s in
    Ok s) 0 s in
  Ok s.

Definition matrix_mult_tiled (fuel : nat) (A B C : handle) (tile_size : Z)
    : outcome (handle * list Z) :=
  match A, B, C with
  | Some a, Some b, Some c =>
      if negb (usable A && usable B && usable C) then Ok (C, [])
      else if negb (compatible a b c) then Ok (C, [])
      else
        let* s := init_zero_out {| out := c; writes := [] |} in
        let* s := tiled_loops fuel a b tile_size s in
        Ok (Some (out s), writes s)
  | _, _, _ => Ok (C, [])
  end.

(** *** matrix_vector.c: [matrix_mult_vector] *)

Definition VECTOR_LENGTH : Z := 8.

Definition lane (b : Matrix) (i k j : Z) (a_ik : T) (s : store) : outcome store :=
  let* c := MATRIX_GET (out s) i j in
  let* y := MATRIX_GET b k j in
  MATRIX_SET i j (d_add c (d_mul a_ik y)) s.

Definition vector_loops (fuel : nat) (a b : Matrix) (s : store) : outcome store :=
  let n := rows a in
  let m := cols a in
  let p := cols b in
  let* (_, s) := for_loop fuel (fun i => i <? n) incr (fun i s =>
    let* (_, s) := for_loop fuel (fun k => k <? m) incr (fun k s =>
      let* a_ik := MATRIX_GET a i k in
      let* (j, s) :=
        for_loop fuel (fun j => j <=? wsub p VECTOR_LENGTH) (fun j => wadd j VECTOR_LENGTH)
          (fun j s =>
            let* (_, s) := for_loop fuel (fun vj => vj <? VECTOR_LENGTH) incr (fun vj s =>
              lane b i k (wadd j vj) a_ik s) 0 s in
            Ok s) 0 s in
      let* (_, s) := for_loop fuel (fun j => j <? p) incr (fun j s =>
        lane b i k j a_ik s) j s in
      Ok s) 0 s in
    Ok s) 0 s in
  Ok s.

Definition matrix_mult_vector (fuel : nat) (A B C : handle) : outcome (handle * list Z) :=
  match A, B, C with
  | Some a, Some b, Some c =>
      if negb (usable A && usable B && usable C) then Ok (C, [])
      else if negb (compatible a b c) then Ok (C, [])
      else
        let* s := init_zero_out {| out := c; writes := [] |} in
        let* s := vector_loops fuel a b s in
        Ok (Some (out s), writes s)
  | _, _, _ => Ok (C, [])
  end.

(** *** matrix_naive.c: [matrix_verify]

    The loop leaves the function from inside its body, so it is a recursive
    function of its own. *)

Fixpoint verify_loop (fuel : nat) (da db : list T) (count : Z) (tolerance : T) (i : Z)
    : outcome bool :=
  if i <? count then
    match fuel with
    | O => OutOfFuel
    | S fuel' =>
        match da !! Z.to_nat i, db !! Z.to_nat i with
        | Some x, Some y =>
            let diff := d_fabs (d_sub x y) in
            if d_gt diff tolerance then Ok false
            else verify_loop fuel' da db count tolerance (incr i)
        | _, _ => Fault
        end
    end
  else Ok true.

Definition matrix_verify (fuel : nat) (A B : handle) (tolerance : T) : outcome bool :=
  match A, B with
  | Some a, Some b =>
      match data a, data b with
      | Some da, Some db =>
          if negb (rows a =? rows b) || negb (cols a =? cols b) then Ok false
          else verify_loop fuel da db (wmul (rows a) (cols a)) tolerance 0
      | _, _ => Ok false
      end
  | _, _ => Ok false
  end.

(** *** matrix_naive.c: [matrix_create]

    The two allocations are answers of the environment: whether [malloc] of the
    header succeeds, and what [aligned_malloc size alignment] returns. *)

Record allocator : Type := {
  malloc_header : bool;
  aligned_malloc : Z -> Z -> option (list T)
}.

Definition matrix_create (env : allocator) (r c : Z) : handle :=
  if negb (malloc_header env) then None
  else
    match aligned_malloc env (wmul (wmul r c) sizeof_double) 32 with
    | None => None
    | Some buf => Some {| data := Some buf; rows := r; cols := c |}
    end.

(** *** utils.c: the generator, and matrix_naive.c: [matrix_init_random]

    [random_seed] is the process-wide [unsigned int]; it is threaded as a [Z]. *)

Definition seed_random (seed : Z) (random_seed : Z) : Z := seed.

Definition lcg_step (random_seed : Z) : Z :=
  UInt.wrap (UInt.wrap (random_seed * 1103515245) + 12345).

Definition random_double (min max : T) (random_seed : Z) : T * Z :=
  let random_seed := lcg_step random_seed in
  let r := d_div (d_of_uint (Z.land random_seed 0x7FFFFFFF)) (d_of_uint 0x7FFFFFFF) in
  (d_add min (d_mul r (d_sub max min)), random_seed).

Definition matrix_init_random (fuel : nat) (mat : handle) (min max : T) (random_seed : Z)
    : outcome (handle * Z) :=
  match mat with
  | Some m0 =>
      match data m0 with
      | Some buf =>
          let* (_, (buf, g)) :=
            for_loop fuel (fun i => i <? wmul (rows m0) (cols m0)) incr
              (fun i '(buf, g) =>
                 let (v, g) := random_double min max g in
                 if i <? Z.of_nat (length buf) then Ok (<[Z.to_nat i := v]> buf, g)
                 else Fault)
              0 (buf, random_seed) in
          Ok (Some {| data := Some buf; rows := rows m0; cols := cols m0 |}, g)
      | None => Ok (mat, random_seed)
      end
  | None => Ok (mat, random_seed)
  end.

End Container.

Arguments Matrix T : clear implicits.
Arguments handle T : clear implicits.
Arguments store T : clear implicits.
Arguments allocator T : clear implicits.

(** *** matrix_tiled.c: [calculate_optimal_tile_size]

    Division by zero is undefined. *)

Definition calculate_optimal_tile_size (fuel : nat) (cache_size_bytes element_size : Z)
    : outcome Z :=
  let usable_cache := cache_size_bytes / 4 in
  let divisor := wmul 3 element_size in
  if divisor =? 0 then Fault
  else
    let elements_per_tile := usable_cache / divisor in
    let* (tile_size, _) :=
      for_loop fuel (fun t => wmul t t <=? elements_per_tile) incr (fun _ u => Ok u) 1 tt in
    let tile_size := wsub tile_size 1 in
    let tile_size := if tile_size <? 8 then 8 else tile_size in
    let tile_size := if 256 <? tile_size then 256 else tile_size in
    let* (power_of_2, _) :=
      for_loop fuel (fun q => q <=? tile_size) wshl1 (fun _ u => Ok u) 1 tt in
    Ok (wshr1 power_of_2).

(** ** Concrete matrices over the rationals *)

Definition mkQ (r c : Z) (l : list Z) : Matrix Q :=
  {| data := Some (map inject_Z l); rows := r; cols := c |}.

Definition A22 : handle Q := Some (mkQ 2 2 [1; 2; 3; 4]).
Definition B22 : handle Q := Some (mkQ 2 2 [5; 6; 7; 8]).
Definition C22 : handle Q := Some (mkQ 2 2 [0; 0; 0; 0]).

(** ** Specification-side notions *)

Section Spec.

Context {T : Type} `{DoubleOps T}.

(** A matrix whose buffer is there and holds exactly [rows * cols] elements,
    the whole of it addressable. *)
Record well_formed (mat : Matrix T) (buf : list T) : Prop := {
  wf_data : data mat = Some buf;
  wf_rows : 0 <= rows mat < modulus;
  wf_cols : 0 <= cols mat < modulus;
  wf_length : Z.of_nat (length buf) = rows mat * cols mat;
  wf_bytes : rows mat * cols mat * sizeof_double < modulus
}.

(** The element at logical position (i, j), in plain arithmetic. *)
Definition entry (mat : Matrix T) (i j : Z) : T :=
  match data mat with
  | Some buf => default d_zero (buf !! Z.to_nat (i * cols mat + j))
  | None => d_zero
  end.

(** [0.0 + A[i][0]*B[0][j] + ... + A[i][k-1]*B[k-1][j]], added left to right. *)
Fixpoint dot_prefix (a b : Matrix T) (i j : Z) (k : nat) : T :=
  match k with
  | O => d_zero
  | S k' => d_add (dot_prefix a b i j k')
                  (d_mul (entry a i (Z.of_nat k')) (entry b (Z.of_nat k') j))
  end.

Definition dot (a b : Matrix T) (i j k : Z) : T := dot_prefix a b i j (Z.to_nat k).

Lemma dot_succ (a b : Matrix T) i j k :
  0 <= k ->
  dot a b i j (k + 1) = d_add (dot a b i j k) (d_mul (entry a i k) (entry b k j)).
Proof.
  intros Hk. unfold dot. replace (Z.to_nat (k + 1)) with (S (Z.to_nat k)) by lia.
  simpl. rewrite Z2Nat.id by assumption. reflexivity.
Qed.

End Spec.

(** ** Basic facts *)

Lemma modulus_eq : modulus = 18446744073709551616.
Proof. reflexivity. Qed.

Lemma wrap_small z : 0 <= z < modulus -> wrap z = z.
Proof. intros Hz. unfold wrap. apply Z.mod_small. exact Hz. Qed.

Lemma incr_small x : 0 <= x < modulus - 1 -> incr x = x + 1.
Proof. intros Hx. unfold incr, wadd. apply wrap_small. lia. Qed.

Lemma for_loop_inv {St : Type} (I : Z -> St -> Prop) (mu : Z -> nat)
    (cond : Z -> bool) (next : Z -> Z) (body : Z -> St -> outcome St) :
  (forall x s, I x s -> cond x = true ->
     exists s', body x s = Ok s' /\ I (next x) s' /\ (mu (next x) < mu x)%nat) ->
  forall fuel x s, I x s -> (mu x <= fuel)%nat ->
  exists x' s', for_loop fuel cond next body x s = Ok (x', s') /\ I x' s' /\ cond x' = false.
Proof.
  intros Hstep fuel. induction fuel as [|fuel IH]; intros x s HI Hmu.
  - destruct (cond x) eqn:Hc.
    + destruct (Hstep x s HI Hc) as (s' & _ & _ & Hlt). lia.
    + exists x, s. simpl. rewrite Hc. auto.
  - destruct (cond x) eqn:Hc.
    + destruct (Hstep x s HI Hc) as (s' & Hb & HI' & Hlt).
      destruct (IH (next x) s' HI') as (x' & s'' & Hrun & HI'' & Hc'); [lia|].
      exists x', s''. simpl. rewrite Hc, Hb. auto.
    + exists x, s. simpl. rewrite Hc. auto.
Qed.

(** More fuel never changes a result or a fault. *)
Lemma for_loop_mono {St : Type} (cond : Z -> bool) (next : Z -> Z)
    (body : Z -> St -> outcome St) fuel fuel' x s :
  (fuel <= fuel')%nat ->
  for_loop fuel cond next body x s <> OutOfFuel ->
  for_loop fuel' cond next body x s = for_loop fuel cond next body x s.
Proof.
  revert fuel' x s. induction fuel as [|fuel IH]; intros fuel' x s Hle Hne.
  - simpl in *. destruct (cond x) eqn:Hc; [congruence|].
    destruct fuel'; simpl; rewrite Hc; reflexivity.
  - destruct fuel' as [|fuel']; [lia|]. simpl in *.
    destruct (cond x); [|reflexivity].
    destruct (body x s); try reflexivity.
    apply IH; [lia|assumption].
Qed.

(** The same rule in a form that applies to a goal about the loop. *)
Lemma for_loop_rule {St : Type} (I : Z -> St -> Prop) (mu : Z -> nat)
    (Q : outcome (Z * St) -> Prop) fuel cond next body x s :
  I x s -> (mu x <= fuel)%nat ->
  (forall x s, I x s -> cond x = true ->
     exists s', body x s = Ok s' /\ I (next x) s' /\ (mu (next x) < mu x)%nat) ->
  (forall x' s', I x' s' -> cond x' = false -> Q (Ok (x', s'))) ->
  Q (for_loop fuel cond next body x s).
Proof.
  intros HI Hmu Hstep Hpost.
  destruct (for_loop_inv I mu cond next body Hstep fuel x s HI Hmu)
    as (x' & s' & -> & HI' & Hc).
  apply Hpost; assumption.
Qed.

(** A loop whose body may fault: it faults, or it ends with the invariant. *)
Lemma for_loop_partial {St : Type} (I : Z -> St -> Prop) (mu : Z -> nat)
    (cond : Z -> bool) (next : Z -> Z) (body : Z -> St -> outcome St) :
  (forall x s, I x s -> cond x = true ->
     body x s = Fault \/
     exists s', body x s = Ok s' /\ I (next x) s' /\ (mu (next x) < mu x)%nat) ->
  forall fuel x s, I x s -> (mu x < fuel)%nat ->
  for_loop fuel cond next body x s = Fault \/
  exists x' s', for_loop fuel cond next body x s = Ok (x', s') /\ I x' s'.
Proof.
  intros Hstep fuel. induction fuel as [|fuel IH]; intros x s HI Hmu; [lia|].
  simpl. destruct (cond x) eqn:Hc.
  - destruct (Hstep x s HI Hc) as [Hf|(s' & Hb & HI' & Hlt)].
    + rewrite Hf. left. reflexivity.
    + rewrite Hb. apply IH; [assumption|lia].
  - right. exists x, s. auto.
Qed.

(** A loop whose condition stays true under the invariant and whose body
    faults or makes progress: it cannot go on for ever, so it faults. *)
Lemma for_loop_faults {St : Type} (I : Z -> St -> Prop) (mu : Z -> nat)
    (cond : Z -> bool) (next : Z -> Z) (body : Z -> St -> outcome St) :
  (forall x s, I x s ->
     cond x = true /\
     (body x s = Fault \/
      exists s', body x s = Ok s' /\ I (next x) s' /\ (mu (next x) < mu x)%nat)) ->
  forall fuel x s, I x s -> (mu x < fuel)%nat ->
  for_loop fuel cond next body x s = Fault.
Proof.
  intros Hstep fuel. induction fuel as [|fuel IH]; intros x s HI Hmu; [lia|].
  destruct (Hstep x s HI) as [Hc [Hf|(s' & Hb & HI' & Hlt)]]; simpl; rewrite Hc.
  - rewrite Hf. reflexivity.
  - rewrite Hb. apply IH; [assumption|lia].
Qed.

Lemma for_loop_first_fault {St : Type} (cond : Z -> bool) (next : Z -> Z)
    (body : Z -> St -> outcome St) fuel x s :
  (0 < fuel)%nat -> cond x = true -> body x s = Fault ->
  for_loop fuel cond next body x s = Fault.
Proof.
  intros Hfuel Hc Hf. destruct fuel as [|fuel]; [lia|].
  simpl. rewrite Hc, Hf. reflexivity.
Qed.

Ltac loop_rule I mu :=
  match goal with
  | |- context [for_loop ?f ?c ?n ?b ?x ?s] =>
      pattern (for_loop f c n b x s); apply (for_loop_rule I mu); cbv beta
  end.

Section BasicFacts.

Context {T : Type} `{DoubleOps T}.

Lemma offset_small (mat : Matrix T) buf i j :
  well_formed mat buf -> 0 <= i < rows mat -> 0 <= j < cols mat ->
  offset mat i j = i * cols mat + j /\ 0 <= i * cols mat + j < rows mat * cols mat.
Proof.
  intros [_ Hr Hc _ Hb] Hi Hj. unfold sizeof_double in Hb.
  assert (0 <= i * cols mat + j < rows mat * cols mat) by nia.
  split; [|assumption].
  unfold offset, wadd, wmul. rewrite (wrap_small (i * cols mat)) by nia.
  apply wrap_small. nia.
Qed.

Lemma MATRIX_GET_ok (mat : Matrix T) buf i j :
  well_formed mat buf -> 0 <= i < rows mat -> 0 <= j < cols mat ->
  MATRIX_GET mat i j = Ok (entry mat i j).
Proof.
  intros Hwf Hi Hj. destruct (offset_small mat buf i j Hwf Hi Hj) as [Ho Hb].
  unfold MATRIX_GET, entry. rewrite (wf_data _ _ Hwf), Ho.
  destruct (lookup_lt_is_Some_2 buf (Z.to_nat (i * cols mat + j))) as [v Hv].
  - pose proof (wf_length _ _ Hwf). lia.
  - rewrite Hv. reflexivity.
Qed.

End BasicFacts.

(** ** The naive kernel computes the product, writing each element once *)

(** How often the log [w] records a store to offset [o]. *)
Definition stores_to (o : Z) (w : list Z) : nat :=
  length (filter (fun x => x = o) w).

Lemma stores_to_absent (l : list Z) (x : Z) : x ∉ l -> stores_to x l = 0%nat.
Proof.
  unfold stores_to. induction l as [|y l IH]; intros Hx; [reflexivity|].
  apply not_elem_of_cons in Hx as [Hne Hx].
  rewrite filter_cons_False by congruence. auto.
Qed.

Lemma stores_to_NoDup (l : list Z) (x : Z) :
  NoDup l -> x ∈ l -> stores_to x l = 1%nat.
Proof.
  induction 1 as [|y l Hy Hl IH]; intros Hx.
  - inversion Hx.
  - unfold stores_to. destruct (decide (y = x)) as [->|Hne].
    + rewrite filter_cons_True by reflexivity. simpl. f_equal.
      apply stores_to_absent. assumption.
    + rewrite filter_cons_False by assumption.
      apply IH. apply elem_of_cons in Hx. destruct Hx; congruence.
Qed.

Section NaiveProofs.

Context {T : Type} `{DoubleOps T}.

Variables (a b : Matrix T) (bufa bufb : list T).
Hypothesis Ha : well_formed a bufa.
Hypothesis Hb : well_formed b bufb.
Hypothesis Hab : cols a = rows b.

Variable fuel : nat.
Hypothesis Hfuel_n : rows a <= Z.of_nat fuel.
Hypothesis Hfuel_m : cols a <= Z.of_nat fuel.
Hypothesis Hfuel_p : cols b <= Z.of_nat fuel.

Local Abbreviation n := (rows a).
Local Abbreviation m := (cols a).
Local Abbreviation p := (cols b).

Lemma mac_ok i k j sum :
  0 <= i < n -> 0 <= k < m -> 0 <= j < p ->
  mac a b i k j sum = Ok (d_add sum (d_mul (entry a i k) (entry b k j))).
Proof.
  intros Hi Hk Hj. unfold mac.
  rewrite (MATRIX_GET_ok a bufa) by (assumption || lia).
  rewrite (MATRIX_GET_ok b bufb) by (assumption || lia).
  reflexivity.
Qed.

(** The scalar accumulation loop from [k0] up to [k1]. *)
Lemma dot_loop i j k0 k1 :
  0 <= i < n -> 0 <= j < p -> 0 <= k0 <= k1 -> k1 <= m ->
  for_loop fuel (fun k => k <? k1) incr (fun k sum => mac a b i k j sum) k0 (dot a b i j k0)
  = Ok (k1, dot a b i j k1).
Proof.
  intros Hi Hj Hk0 Hk1.
  pose proof (wf_cols _ _ Ha) as Hm.
  destruct (for_loop_inv
    (fun k sum => k0 <= k <= k1 /\ sum = dot a b i j k)
    (fun k => Z.to_nat (k1 - k))
    (fun k => k <? k1) incr (fun k sum => mac a b i k j sum)) with
    (fuel := fuel) (x := k0) (s := dot a b i j k0)
    as (k' & sum' & Hrun & [Hk' ->] & Hc).
  - intros k sum [Hk ->] Hc. apply Z.ltb_lt in Hc.
    rewrite incr_small by lia. rewrite mac_ok by lia.
    eexists. split; [reflexivity|]. rewrite dot_succ by lia.
    repeat split; lia.
  - split; [lia|reflexivity].
  - lia.
  - apply Z.ltb_ge in Hc. replace k' with k1 in * by lia. exact Hrun.
Qed.

(** The output object once the first [cnt] offsets, in row-major order, have
    been computed and stored; the rest of the buffer is whatever it was. *)
Definition naive_done (cnt : Z) (s : store T) : Prop :=
  rows (out s) = n /\ cols (out s) = p /\
  exists buf, data (out s) = Some buf /\
    Z.of_nat (length buf) = n * p /\
    (forall o, 0 <= o < cnt -> buf !! Z.to_nat o = Some (dot a b (o / p) (o mod p) m)) /\
    writes s = seqZ 0 cnt.

Lemma naive_store i j s :
  0 <= i < n -> 0 <= j < p -> n * p * sizeof_double < modulus ->
  naive_done (i * p + j) s ->
  exists s', MATRIX_SET i j (dot a b i j m) s = Ok s' /\ naive_done (i * p + j + 1) s'.
Proof.
  intros Hi Hj Hbytes (Hr & Hc & buf & Hd & Hlen & Hval & Hw).
  pose proof (wf_cols _ _ Hb) as Hp. unfold sizeof_double in Hbytes.
  assert (Ho : offset (out s) i j = i * p + j).
  { unfold offset, wadd, wmul. rewrite Hc.
    rewrite (wrap_small (i * p)) by nia. apply wrap_small. nia. }
  assert (Hin : 0 <= i * p + j < n * p) by nia.
  unfold MATRIX_SET. rewrite Hd, Ho.
  destruct (Z.ltb_spec (i * p + j) (Z.of_nat (length buf))) as [_|Hge]; [|lia].
  eexists. split; [reflexivity|].
  split; [assumption|]. split; [assumption|]. simpl.
  exists (<[Z.to_nat (i * p + j) := dot a b i j m]> buf).
  split; [reflexivity|]. split; [rewrite length_insert; assumption|]. split.
  - intros o Ho'. destruct (Z.eq_dec o (i * p + j)) as [->|Hne].
    + rewrite list_lookup_insert_eq by lia.
      replace ((i * p + j) / p) with i by (apply Z.div_unique with j; lia).
      replace ((i * p + j) mod p) with j by (apply Z.mod_unique with i; lia).
      reflexivity.
    + rewrite list_lookup_insert_ne by lia. apply Hval. lia.
  - rewrite Hw. rewrite (seqZ_app 0 (i * p + j) 1) by lia. reflexivity.
Qed.

Lemma naive_row i s :
  0 <= i < n -> n * p * sizeof_double < modulus ->
  naive_done (i * p) s ->
  exists s',
    for_loop fuel (fun j => j <? p) incr (fun j s =>
      let* (_, sum) := for_loop fuel (fun k => k <? m) incr (fun k sum =>
        mac a b i k j sum) 0 d_zero in
      MATRIX_SET i j sum s) 0 s = Ok (p, s')
    /\ naive_done ((i + 1) * p) s'.
Proof.
  intros Hi Hbytes Hs.
  pose proof (wf_cols _ _ Hb) as Hp. pose proof (wf_cols _ _ Ha) as Hm.
  destruct (for_loop_inv
    (fun j s => 0 <= j <= p /\ naive_done (i * p + j) s)
    (fun j => Z.to_nat (p - j))
    (fun j => j <? p) incr (fun j s =>
      let* (_, sum) := for_loop fuel (fun k => k <? m) incr (fun k sum =>
        mac a b i k j sum) 0 d_zero in
      MATRIX_SET i j sum s)) with (fuel := fuel) (x := 0) (s := s)
    as (j' & s' & Hrun & [Hj' Hdone] & Hc).
  - intros j s0 [Hj Hs0] Hc. apply Z.ltb_lt in Hc.
    change d_zero with (dot a b i j 0).
    rewrite dot_loop by lia. simpl.
    destruct (naive_store i j s0) as (s1 & Hset & Hs1); [lia|lia|assumption|assumption|].
    exists s1. rewrite incr_small by lia.
    split; [assumption|]. split; [|lia].
    split; [lia|]. replace (i * p + (j + 1)) with (i * p + j + 1) by lia. assumption.
  - split; [lia|]. replace (i * p + 0) with (i * p) by lia. assumption.
  - lia.
  - apply Z.ltb_ge in Hc. replace j' with p in * by lia.
    exists s'. split; [assumption|].
    replace ((i + 1) * p) with (i * p + p) by lia. assumption.
Qed.

Lemma naive_loops_ok s :
  n * p * sizeof_double < modulus ->
  naive_done 0 s ->
  exists s', naive_loops fuel a b s = Ok s' /\ naive_done (n * p) s'.
Proof.
  intros Hbytes Hs. pose proof (wf_rows _ _ Ha) as Hn.
  unfold naive_loops.
  destruct (for_loop_inv
    (fun i s => 0 <= i <= n /\ naive_done (i * p) s)
    (fun i => Z.to_nat (n - i))
    (fun i => i <? n) incr (fun i s =>
      let* (_, s) := for_loop fuel (fun j => j <? p) incr (fun j s =>
        let* (_, sum) := for_loop fuel (fun k => k <? m) incr (fun k sum =>
          mac a b i k j sum) 0 d_zero in
        MATRIX_SET i j sum s) 0 s in
      Ok s)) with (fuel := fuel) (x := 0) (s := s)
    as (i' & s' & Hrun & [Hi' Hdone] & Hc).
  - intros i s0 [Hi Hs0] Hc. apply Z.ltb_lt in Hc.
    destruct (naive_row i s0) as (s1 & Hrow & Hs1); [lia|assumption|assumption|].
    rewrite Hrow. simpl. exists s1. rewrite incr_small by lia.
    split; [reflexivity|]. split; [|lia]. split; [lia|assumption].
  - split; [lia|]. assumption.
  - lia.
  - apply Z.ltb_ge in Hc. replace i' with n in * by lia.
    rewrite Hrun. simpl. exists s'. split; [reflexivity|assumption].
Qed.

End NaiveProofs.

Section NaiveTheorem.

Context {T : Type} `{DoubleOps T}.

Lemma usable_wf (mat : Matrix T) buf : well_formed mat buf -> usable (Some mat) = true.
Proof. intros Hwf. unfold usable. rewrite (wf_data _ _ Hwf). reflexivity. Qed.

Lemma compatible_true (a b c : Matrix T) :
  cols a = rows b -> rows c = rows a -> cols c = cols b -> compatible a b c = true.
Proof.
  intros H1 H2 H3. unfold compatible. rewrite H1, H2, H3, !Z.eqb_refl. reflexivity.
Qed.

Lemma compatible_false (a b c : Matrix T) :
  cols a <> rows b \/ rows c <> rows a \/ cols c <> cols b -> compatible a b c = false.
Proof.
  intros Hbad. unfold compatible.
  destruct (Z.eqb_spec (cols a) (rows b)); [|reflexivity].
  destruct (Z.eqb_spec (rows a) (rows c)); [|reflexivity].
  destruct (Z.eqb_spec (cols b) (cols c)); [|reflexivity].
  exfalso. intuition congruence.
Qed.

Lemma entry_lookup (mat : Matrix T) buf i j v :
  data mat = Some buf -> buf !! Z.to_nat (i * cols mat + j) = Some v -> entry mat i j = v.
Proof. intros Hd Hv. unfold entry. rewrite Hd, Hv. reflexivity. Qed.

(** C2.  For dimension-compatible matrices the naive kernel returns, with
    every element [(i, j)] of the result equal to the sum over [k] in [0, m) of
    [A[i][k] * B[k][j]], each of the [n * p] offsets stored exactly once, and
    this whatever the output buffer held before the call. *)
Theorem naive_assigns_product (fuel : nat) (a b c : Matrix T) (bufa bufb bufc : list T) :
  well_formed a bufa -> well_formed b bufb -> well_formed c bufc ->
  cols a = rows b -> rows c = rows a -> cols c = cols b ->
  rows a <= Z.of_nat fuel -> cols a <= Z.of_nat fuel -> cols b <= Z.of_nat fuel ->
  exists c' w,
    matrix_mult_naive fuel (Some a) (Some b) (Some c) = Ok (Some c', w) /\
    rows c' = rows c /\ cols c' = cols c /\
    length w = Z.to_nat (rows a * cols b) /\
    forall i j, 0 <= i < rows a -> 0 <= j < cols b ->
      entry c' i j = dot a b i j (cols a) /\
      stores_to (i * cols b + j) w = 1%nat.
Proof.
  intros Ha Hb Hc Hab Hr Hcl Hn Hm Hp.
  assert (Hbytes : rows a * cols b * sizeof_double < modulus).
  { rewrite <- Hr, <- Hcl. apply (wf_bytes _ _ Hc). }
  destruct (naive_loops_ok a b bufa bufb Ha Hb Hab fuel Hn Hm Hp {| out := c; writes := [] |})
    as (s' & Hrun & Hr' & Hc' & buf & Hd & Hlen & Hval & Hw).
  - assumption.
  - split; [simpl; congruence|]. split; [simpl; congruence|].
    exists bufc. simpl. split; [apply (wf_data _ _ Hc)|].
    split; [rewrite (wf_length _ _ Hc); congruence|].
    split; [intros o Ho; lia|reflexivity].
  - exists (out s'), (writes s').
    unfold matrix_mult_naive.
    rewrite (usable_wf a bufa), (usable_wf b bufb), (usable_wf c bufc) by assumption.
    rewrite compatible_true by assumption. simpl. rewrite Hrun. simpl.
    split; [reflexivity|]. split; [congruence|]. split; [congruence|].
    split; [rewrite Hw, length_seqZ; reflexivity|].
    intros i j Hi Hj.
    pose proof (wf_cols _ _ Hb) as Hpr.
    assert (Hin : 0 <= i * cols b + j < rows a * cols b) by nia.
    split.
    + apply entry_lookup with buf; [assumption|]. rewrite Hc', Hval by lia.
      replace ((i * cols b + j) / cols b) with i by (apply Z.div_unique with j; lia).
      replace ((i * cols b + j) mod cols b) with j by (apply Z.mod_unique with i; lia).
      reflexivity.
    + rewrite Hw. apply stores_to_NoDup; [apply NoDup_seqZ|].
      apply elem_of_seqZ. lia.
Qed.

(** C5.  When the dimension check fails, each kernel returns at once: the
    output object is handed back as it was and nothing has been stored. *)
Theorem mismatch_is_noop (fuel : nat) (a b c : Matrix T) (tile_size : Z) :
  cols a <> rows b \/ rows c <> rows a \/ cols c <> cols b ->
  matrix_mult_naive fuel (Some a) (Some b) (Some c) = Ok (Some c, []) /\
  matrix_mult_tiled fuel (Some a) (Some b) (Some c) tile_size = Ok (Some c, []) /\
  matrix_mult_vector fuel (Some a) (Some b) (Some c) = Ok (Some c, []).
Proof.
  intros Hbad. apply compatible_false in Hbad.
  unfold matrix_mult_naive, matrix_mult_tiled, matrix_mult_vector.
  rewrite Hbad.
  destruct (usable (Some a) && usable (Some b) && usable (Some c)); simpl; auto.
Qed.

(** A kernel given a null handle or a null buffer returns at once as well. *)
Lemma unusable_is_noop (fuel : nat) (A B C : handle T) (tile_size : Z) :
  usable A && usable B && usable C = false ->
  matrix_mult_naive fuel A B C = Ok (C, []) /\
  matrix_mult_tiled fuel A B C tile_size = Ok (C, []) /\
  matrix_mult_vector fuel A B C = Ok (C, []).
Proof.
  intros Hnull. unfold matrix_mult_naive, matrix_mult_tiled, matrix_mult_vector.
  destruct A as [a|], B as [b|], C as [c|]; auto.
  rewrite Hnull. simpl. auto.
Qed.

(** C8, as the code has it.  [matrix_create] looks at neither extent.  It asks
    the allocator for [rows * cols * 8] bytes as [size_t] computes them, that
    is modulo [2^64], and returns null exactly when the header allocation or
    that buffer allocation fails; otherwise the matrix records the extents as
    given and owns whatever buffer the allocator gave for that byte count.
    The byte count is the true one when it fits [size_t], is 0 when an extent
    is 0, and falls short of [rows * cols * 8] when the product does not fit:
    then a success hands back a matrix whose buffer is too small for its
    extents. *)
Theorem matrix_create_spec (env : allocator T) (r c : Z) :
  let bytes := (r * c * sizeof_double) mod modulus in
  (matrix_create env r c = None <->
     malloc_header env = false \/ aligned_malloc env bytes 32 = None) /\
  (forall mat, matrix_create env r c = Some mat ->
     rows mat = r /\ cols mat = c /\
     data mat = aligned_malloc env bytes 32 /\
     data mat <> None) /\
  (0 <= r * c * sizeof_double < modulus -> bytes = r * c * sizeof_double) /\
  (r = 0 \/ c = 0 -> bytes = 0) /\
  (modulus <= r * c * sizeof_double -> bytes < r * c * sizeof_double).
Proof.
  intros bytes.
  assert (Hsize : wmul (wmul r c) sizeof_double = bytes).
  { unfold bytes, wmul, wrap. apply Z.mul_mod_idemp_l. rewrite modulus_eq. lia. }
  assert (Hmod : 0 <= bytes < modulus).
  { unfold bytes. apply Z.mod_pos_bound. rewrite modulus_eq. lia. }
  unfold matrix_create. rewrite Hsize. split; [|split; [|split; [|split]]].
  - destruct (malloc_header env); simpl.
    + destruct (aligned_malloc env _ 32); split; intros Hx; try discriminate; auto.
      destruct Hx; discriminate.
    + split; auto.
  - intros mat. destruct (malloc_header env); simpl; [|discriminate].
    destruct (aligned_malloc env _ 32) as [buf|]; [|discriminate].
    intros [= <-]. simpl. repeat split. discriminate.
  - intros Hfit. unfold bytes. apply Z.mod_small. assumption.
  - intros [-> | ->]; unfold bytes; [rewrite Z.mul_0_l|rewrite Z.mul_0_r];
      reflexivity.
  - intros Hbig. lia.
Qed.

End NaiveTheorem.

(** ** The verifier *)

Section VerifyProofs.

Context {T : Type} `{DoubleOps T}.

Lemma verify_loop_spec (da db : list T) (count : Z) (tol : T) :
  Z.of_nat (length da) = count -> Z.of_nat (length db) = count -> count < modulus ->
  forall fuel i, 0 <= i <= count -> count - i <= Z.of_nat fuel ->
  exists r, verify_loop fuel da db count tol i = Ok r /\
    (r = true <->
     forall (o : nat) x y, i <= Z.of_nat o ->
       da !! o = Some x -> db !! o = Some y -> d_gt (d_fabs (d_sub x y)) tol = false).
Proof.
  intros Hla Hlb Hcount fuel.
  induction fuel as [|fuel IH]; intros i Hi Hfuel.
  - assert (i = count) as -> by lia.
    exists true. simpl. rewrite Z.ltb_irrefl. split; [reflexivity|].
    split; [|reflexivity]. intros _ o x y Ho Hx Hy.
    apply lookup_lt_Some in Hx. lia.
  - simpl. destruct (Z.ltb_spec i count) as [Hlt|Hge].
    + destruct (lookup_lt_is_Some_2 da (Z.to_nat i)) as [x Hx]; [lia|].
      destruct (lookup_lt_is_Some_2 db (Z.to_nat i)) as [y Hy]; [lia|].
      rewrite Hx, Hy. destruct (d_gt (d_fabs (d_sub x y)) tol) eqn:Hgt.
      * exists false. split; [reflexivity|]. split; [discriminate|].
        intros Hall. rewrite (Hall (Z.to_nat i) x y) in Hgt by (assumption || lia).
        discriminate.
      * rewrite incr_small by lia.
        destruct (IH (i + 1)) as (r & Hrun & Hr); [lia|lia|].
        exists r. split; [assumption|]. rewrite Hr. split.
        -- intros Hall o x' y' Ho Hx' Hy'.
           destruct (Z.eq_dec (Z.of_nat o) i) as [Heq|Hne].
           ++ subst i. rewrite Nat2Z.id in Hx, Hy. congruence.
           ++ apply (Hall o); [lia|assumption|assumption].
        -- intros Hall o x' y' Ho. apply Hall. lia.
    + exists true. split; [reflexivity|]. split; [|reflexivity].
      intros _ o x y Ho Hx Hy. apply lookup_lt_Some in Hx. lia.
Qed.

(** C7, as the code has it.  [matrix_verify] answers false on a null handle
    or buffer and on mismatched extents.  Otherwise it answers true exactly
    when no pair of corresponding elements has [fabs(a - b) > tolerance]: the
    test the loop makes, which a NaN difference never meets.  Where [x > y]
    fails exactly when [x <= y] (an arithmetic without unordered values) this
    is the claim's "every difference is at most the tolerance".  A matrix
    verifies against itself with tolerance zero as soon as [fabs(x - x) > 0.0]
    is false for every [x], which holds for doubles, NaN and the infinities
    included.  Nothing else is assumed of the arithmetic. *)
Theorem matrix_verify_spec (fuel : nat) (a b : Matrix T) (bufa bufb : list T) (tol : T) :
  well_formed a bufa -> well_formed b bufb ->
  rows a * cols a <= Z.of_nat fuel ->
  (forall A B, usable A = false \/ usable B = false ->
     matrix_verify fuel A B tol = Ok false) /\
  (rows a <> rows b \/ cols a <> cols b ->
     matrix_verify fuel (Some a) (Some b) tol = Ok false) /\
  (rows a = rows b -> cols a = cols b ->
     exists r, matrix_verify fuel (Some a) (Some b) tol = Ok r /\
       (r = true <->
        forall (o : nat) x y, bufa !! o = Some x -> bufb !! o = Some y ->
          d_gt (d_fabs (d_sub x y)) tol = false) /\
       ((forall x y, d_gt x y = false <-> d_le x y) ->
        (r = true <->
         forall (o : nat) x y, bufa !! o = Some x -> bufb !! o = Some y ->
           d_le (d_fabs (d_sub x y)) tol))) /\
  ((forall x, d_gt (d_fabs (d_sub x x)) d_zero = false) ->
   matrix_verify fuel (Some a) (Some a) d_zero = Ok true).
Proof.
  intros Ha Hb Hfuel.
  pose proof (wf_bytes _ _ Ha) as Hbytes. unfold sizeof_double in Hbytes.
  pose proof (wf_rows _ _ Ha) as Hr. pose proof (wf_cols _ _ Ha) as Hc.
  assert (Hcount : wmul (rows a) (cols a) = rows a * cols a).
  { unfold wmul. apply wrap_small. nia. }
  split; [|split; [|split]].
  - intros A B Hnull. unfold matrix_verify, usable in *.
    destruct A as [a'|], B as [b'|]; try reflexivity.
    destruct (data a'), (data b'); try reflexivity.
    destruct Hnull; discriminate.
  - intros Hbad. unfold matrix_verify.
    rewrite (wf_data _ _ Ha), (wf_data _ _ Hb).
    destruct (Z.eqb_spec (rows a) (rows b)); [|reflexivity].
    destruct (Z.eqb_spec (cols a) (cols b)); [|reflexivity].
    exfalso. intuition congruence.
  - intros Hrows Hcols. unfold matrix_verify.
    rewrite (wf_data _ _ Ha), (wf_data _ _ Hb).
    rewrite Hrows, Hcols, !Z.eqb_refl. simpl. rewrite <- Hrows, <- Hcols, Hcount.
    destruct (verify_loop_spec bufa bufb (rows a * cols a) tol) with (fuel := fuel) (i := 0)
      as (r & Hrun & Hiff).
    + apply (wf_length _ _ Ha).
    + rewrite (wf_length _ _ Hb). congruence.
    + nia.
    + nia.
    + lia.
    + assert (Hplain : r = true <->
                forall (o : nat) x y, bufa !! o = Some x -> bufb !! o = Some y ->
                  d_gt (d_fabs (d_sub x y)) tol = false).
      { rewrite Hiff. split.
        - intros Hall o x y Hx Hy. apply (Hall o); [lia|assumption|assumption].
        - intros Hall o x y _ Hx Hy. apply (Hall o); assumption. }
      exists r. split; [assumption|]. split; [assumption|].
      intros Hgt. rewrite Hplain. split.
      * intros Hall o x y Hx Hy. apply Hgt. apply (Hall o); assumption.
      * intros Hall o x y Hx Hy. apply Hgt. apply (Hall o); assumption.
  - intros Hrefl. unfold matrix_verify. rewrite (wf_data _ _ Ha), !Z.eqb_refl. simpl.
    rewrite Hcount.
    destruct (verify_loop_spec bufa bufa (rows a * cols a) d_zero) with (fuel := fuel) (i := 0)
      as (r & Hrun & Hiff).
    + apply (wf_length _ _ Ha).
    + apply (wf_length _ _ Ha).
    + nia.
    + nia.
    + lia.
    + rewrite Hrun. f_equal. apply Hiff.
      intros o x y _ Hx Hy. replace y with x by congruence. apply Hrefl.
Qed.

End VerifyProofs.

(** The rationals are ordered exactly. *)
Lemma Q_gt_le (x y : Q) : d_gt x y = false <-> d_le x y.
Proof.
  change (negb (Qle_bool x y) = false <-> (x <= y)%Q).
  rewrite negb_false_iff. apply Qle_bool_iff.
Qed.

Lemma Q_self_distance (x : Q) : d_le (d_fabs (d_sub x x)) d_zero.
Proof.
  change (Qabs (x - x) <= 0)%Q.
  assert (Heq : (x - x == 0)%Q) by ring.
  rewrite Heq. simpl. apply Qle_refl.
Qed.

Lemma Q_self_zero (x : Q) : d_gt (d_fabs (d_sub x x)) d_zero = false.
Proof. apply Q_gt_le, Q_self_distance. Qed.

(** ** The tile-size helper *)

(** The helper as the design text words it: a quarter of the capacity, split
    three ways and counted in elements, square-rooted, clamped to [8, 256],
    rounded down to a power of two. *)
Definition clamp (lo hi x : Z) : Z := Z.max lo (Z.min hi x).

Definition round_down_pow2 (x : Z) : Z := 2 ^ Z.log2 x.

Definition recommended_tile_size (cache_size_bytes element_size : Z) : Z :=
  round_down_pow2 (clamp 8 256 (Z.sqrt (cache_size_bytes / 4 / (3 * element_size)))).

Lemma sqrt_loop (fuel : nat) (budget : Z) :
  0 <= budget < 2 ^ 62 -> Z.sqrt budget + 1 <= Z.of_nat fuel ->
  for_loop fuel (fun t => wmul t t <=? budget) incr (fun _ u => Ok u) 1 tt
  = Ok (Z.sqrt budget + 1, tt).
Proof.
  intros Hb Hfuel.
  assert (Hs : 0 <= Z.sqrt budget < 2 ^ 31).
  { split; [apply Z.sqrt_nonneg|]. apply Z.sqrt_lt_square; lia. }
  destruct (for_loop_inv
    (fun t (_ : unit) => 1 <= t <= Z.sqrt budget + 1)
    (fun t => Z.to_nat (Z.sqrt budget + 1 - t))
    (fun t => wmul t t <=? budget) incr (fun _ u => Ok u)) with
    (fuel := fuel) (x := 1) (s := tt) as (t' & u & Hrun & Ht' & Hc).
  - intros t u0 Ht Hc. exists u0. unfold wmul in Hc.
    rewrite wrap_small in Hc by (rewrite modulus_eq; nia).
    apply Z.leb_le in Hc. apply Z.sqrt_le_square in Hc; [|lia|lia].
    rewrite incr_small by (rewrite modulus_eq; lia).
    split; [reflexivity|]. split; lia.
  - lia.
  - lia.
  - rewrite Hrun. destruct u. repeat f_equal.
    unfold wmul in Hc. rewrite wrap_small in Hc by (rewrite modulus_eq; nia).
    apply Z.leb_gt in Hc.
    assert (~ t' <= Z.sqrt budget).
    { intros Hle. apply Z.sqrt_le_square in Hle; lia. }
    lia.
Qed.

Lemma pow2_loop (fuel : nat) (ts : Z) :
  8 <= ts <= 256 -> (9 <= fuel)%nat ->
  for_loop fuel (fun q => q <=? ts) wshl1 (fun _ u => Ok u) 1 tt
  = Ok (2 ^ (Z.log2 ts + 1), tt).
Proof.
  intros Hts Hfuel.
  assert (Hlog : 3 <= Z.log2 ts <= 8).
  { split.
    - change 3 with (Z.log2 8). apply Z.log2_le_mono. lia.
    - change 8 with (Z.log2 256). apply Z.log2_le_mono. lia. }
  destruct (for_loop_inv
    (fun q (_ : unit) => exists e, 0 <= e <= Z.log2 ts + 1 /\ q = 2 ^ e)
    (fun q => Z.to_nat (Z.log2 ts + 1 - Z.log2 q))
    (fun q => q <=? ts) wshl1 (fun _ u => Ok u)) with
    (fuel := fuel) (x := 1) (s := tt) as (q' & u & Hrun & (e & He & Hq) & Hc).
  - intros q u0 (e & He & ->) Hc. exists u0. apply Z.leb_le in Hc.
    assert (He' : e <= Z.log2 ts).
    { apply Z.log2_le_mono in Hc. rewrite Z.log2_pow2 in Hc; lia. }
    assert (Hnext : wshl1 (2 ^ e) = 2 ^ (e + 1)).
    { unfold wshl1. rewrite Z.shiftl_mul_pow2 by lia.
      rewrite Z.pow_add_r by lia. apply wrap_small.
      assert (2 ^ e <= 2 ^ 8) by (apply Z.pow_le_mono_r; lia).
      rewrite modulus_eq. lia. }
    split; [reflexivity|]. rewrite Hnext. split.
    + exists (e + 1). split; [lia|reflexivity].
    + rewrite !Z.log2_pow2 by lia. lia.
  - exists 0. split; [lia|reflexivity].
  - change (Z.log2 1) with 0. lia.
  - rewrite Hrun. destruct u. repeat f_equal. subst q'.
    apply Z.leb_gt in Hc.
    assert (~ e <= Z.log2 ts).
    { intros Hle. apply (Z.pow_le_mono_r 2) in Hle; [|lia].
      pose proof (Z.log2_spec ts). lia. }
    f_equal. lia.
Qed.

(** C9.  Whenever the divisor [3 * element_size] is positive and does not
    wrap, the helper returns what the design text describes, a power of two
    between 8 and 256; for a 32768-byte cache of 8-byte elements that is 16. *)
Theorem calculate_optimal_tile_size_spec (fuel : nat) (cache_size_bytes element_size : Z) :
  0 <= cache_size_bytes < modulus ->
  0 < element_size -> 3 * element_size < modulus ->
  Z.sqrt (cache_size_bytes / 4 / (3 * element_size)) + 1 <= Z.of_nat fuel ->
  (9 <= fuel)%nat ->
  calculate_optimal_tile_size fuel cache_size_bytes element_size
    = Ok (recommended_tile_size cache_size_bytes element_size) /\
  (exists e, recommended_tile_size cache_size_bytes element_size = 2 ^ e /\ 3 <= e <= 8) /\
  8 <= recommended_tile_size cache_size_bytes element_size <= 256.
Proof.
  intros Hcache Helem Hdiv Hfuel1 Hfuel2.
  unfold calculate_optimal_tile_size, recommended_tile_size, round_down_pow2.
  assert (Hd : wmul 3 element_size = 3 * element_size).
  { unfold wmul. apply wrap_small. lia. }
  rewrite Hd. destruct (Z.eqb_spec (3 * element_size) 0) as [Hz|_]; [lia|].
  set (budget := cache_size_bytes / 4 / (3 * element_size)) in *.
  assert (Hbudget : 0 <= budget < 2 ^ 62).
  { unfold budget. rewrite modulus_eq in Hcache. split.
    - apply Z.div_pos; [apply Z.div_pos|]; lia.
    - apply Z.div_lt_upper_bound; [lia|].
      apply Z.div_lt_upper_bound; lia. }
  rewrite sqrt_loop by assumption. simpl.
  assert (Hs : 0 <= Z.sqrt budget < 2 ^ 31).
  { split; [apply Z.sqrt_nonneg|]. apply Z.sqrt_lt_square; lia. }
  assert (Hback : wsub (Z.sqrt budget + 1) 1 = Z.sqrt budget).
  { unfold wsub. rewrite wrap_small by (rewrite modulus_eq; lia). lia. }
  rewrite Hback.
  set (ts := clamp 8 256 (Z.sqrt budget)).
  assert (Hclamp : (if 256 <? (if Z.sqrt budget <? 8 then 8 else Z.sqrt budget) then 256
                    else if Z.sqrt budget <? 8 then 8 else Z.sqrt budget) = ts).
  { unfold ts, clamp.
    destruct (Z.ltb_spec (Z.sqrt budget) 8); [simpl; lia|].
    destruct (Z.ltb_spec 256 (Z.sqrt budget)); lia. }
  rewrite Hclamp.
  assert (Hts : 8 <= ts <= 256) by (unfold ts, clamp; lia).
  assert (Hlog : 3 <= Z.log2 ts <= 8).
  { split.
    - change 3 with (Z.log2 8). apply Z.log2_le_mono. lia.
    - change 8 with (Z.log2 256). apply Z.log2_le_mono. lia. }
  rewrite pow2_loop by assumption. simpl.
  split; [|split].
  - f_equal. unfold wshr1. rewrite Z.shiftr_div_pow2 by lia.
    rewrite Z.pow_add_r by lia. apply Z.div_mul. lia.
  - exists (Z.log2 ts). split; [reflexivity|assumption].
  - split.
    + change 8 with (2 ^ 3). apply Z.pow_le_mono_r; lia.
    + change 256 with (2 ^ 8). apply Z.pow_le_mono_r; lia.
Qed.

(** C9 at the input the design text names. *)
Lemma calculate_optimal_tile_size_L1 :
  calculate_optimal_tile_size 19 32768 8 = Ok (recommended_tile_size 32768 8) /\
  (exists e, recommended_tile_size 32768 8 = 2 ^ e /\ 3 <= e <= 8) /\
  8 <= recommended_tile_size 32768 8 <= 256.
Proof.
  apply (calculate_optimal_tile_size_spec 19 32768 8).
  - rewrite modulus_eq. lia.
  - lia.
  - rewrite modulus_eq. lia.
  - vm_compute. discriminate.
  - lia.
Defined.

Example recommended_tile_size_L1 : recommended_tile_size 32768 8 = 16.
Proof. reflexivity. Qed.

(** ** Random initialisation *)

Lemma tabulate_eq {A : Type} (f : nat -> A) (l : list A) (len : nat) :
  length l = len -> (forall o, (o < len)%nat -> l !! o = Some (f o)) ->
  l = f <$> seq 0 len.
Proof.
  intros Hlen Hval. apply list_eq. intros o.
  rewrite list_lookup_fmap. destruct (Nat.lt_ge_cases o len) as [Hlt|Hge].
  - rewrite Hval by assumption. rewrite lookup_seq_lt by assumption. reflexivity.
  - rewrite lookup_ge_None_2 by lia. rewrite lookup_seq_ge by assumption. reflexivity.
Qed.

Section RandomProofs.

Context {T : Type} `{DoubleOps T}.

(** The generator state after [k] steps from [seed], and the value of the
    draw made in that state (the draw number [k + 1] after seeding). *)
Definition lcg_state (seed : Z) (k : nat) : Z := Nat.iter k lcg_step seed.

Definition draw (min max : T) (seed : Z) (k : nat) : T :=
  fst (random_double min max (lcg_state seed k)).

Lemma random_double_state (min max : T) seed k :
  random_double min max (lcg_state seed k) = (draw min max seed k, lcg_state seed (S k)).
Proof. reflexivity. Qed.

Lemma init_random_loop (fuel : nat) (min max : T) (seed : Z) (count : Z) (buf : list T) :
  Z.of_nat (length buf) = count -> count < modulus -> count <= Z.of_nat fuel ->
  for_loop fuel (fun i => i <? count) incr
    (fun i '(buf, g) =>
       let (v, g) := random_double min max g in
       if i <? Z.of_nat (length buf) then Ok (<[Z.to_nat i := v]> buf, g)
       else Fault)
    0 (buf, seed)
  = Ok (count, (draw min max seed <$> seq 0 (Z.to_nat count),
                lcg_state seed (Z.to_nat count))).
Proof.
  intros Hlen Hcount Hfuel.
  destruct (for_loop_inv
    (fun i (s : list T * Z) =>
       0 <= i <= count /\ Z.of_nat (length (fst s)) = count /\
       snd s = lcg_state seed (Z.to_nat i) /\
       forall o, (Z.of_nat o < i) -> fst s !! o = Some (draw min max seed o))
    (fun i => Z.to_nat (count - i))
    (fun i => i <? count) incr
    (fun i '(buf, g) =>
       let (v, g) := random_double min max g in
       if i <? Z.of_nat (length buf) then Ok (<[Z.to_nat i := v]> buf, g)
       else Fault)) with (fuel := fuel) (x := 0) (s := (buf, seed))
    as (i' & [buf' g'] & Hrun & (Hi' & Hlen' & Hg' & Hval') & Hc).
  - intros i [buf0 g0] (Hi & Hl0 & Hg0 & Hv0) Hc. cbn [fst snd] in *.
    apply Z.ltb_lt in Hc. subst g0. rewrite random_double_state.
    destruct (Z.ltb_spec i (Z.of_nat (length buf0))) as [_|Hge]; [|lia].
    eexists. split; [reflexivity|]. rewrite incr_small by lia. cbn [fst snd].
    split; [|lia]. split; [lia|]. split; [rewrite length_insert; assumption|].
    split; [f_equal; lia|].
    intros o Ho. destruct (Nat.eq_dec o (Z.to_nat i)) as [->|Hne].
    + rewrite list_lookup_insert_eq by lia. reflexivity.
    + rewrite list_lookup_insert_ne by lia. apply Hv0. lia.
  - cbn [fst snd]. split; [lia|]. split; [assumption|]. split; [reflexivity|].
    intros o Ho. lia.
  - lia.
  - cbn [fst snd] in *. apply Z.ltb_ge in Hc. assert (i' = count) as -> by lia.
    rewrite Hrun. f_equal. f_equal. f_equal; [|assumption].
    apply tabulate_eq; [lia|]. intros o Ho. apply Hval'. lia.
Qed.

(** C6.  Seeding with the same value and initialising two matrices of the
    same extents gives the same contents, whatever the buffers and the
    generator held before: element number [k] in row-major order is draw
    number [k + 1] of the linear-congruential generator. *)
Theorem init_random_deterministic (fuel : nat) (seed : Z) (min max : T)
    (m1 m2 : Matrix T) (buf1 buf2 : list T) (g1 g2 : Z) :
  well_formed m1 buf1 -> well_formed m2 buf2 ->
  rows m1 = rows m2 -> cols m1 = cols m2 ->
  rows m1 * cols m1 <= Z.of_nat fuel ->
  let filled := {| data := Some (draw min max seed <$> seq 0 (Z.to_nat (rows m1 * cols m1)));
                   rows := rows m1; cols := cols m1 |} in
  let g := lcg_state seed (Z.to_nat (rows m1 * cols m1)) in
  matrix_init_random fuel (Some m1) min max (seed_random seed g1) = Ok (Some filled, g) /\
  matrix_init_random fuel (Some m2) min max (seed_random seed g2) = Ok (Some filled, g).
Proof.
  intros Hm1 Hm2 Hr Hc Hfuel filled g.
  assert (Hrun : forall (m0 : Matrix T) buf0 g0, well_formed m0 buf0 ->
            rows m0 = rows m1 -> cols m0 = cols m1 ->
            matrix_init_random fuel (Some m0) min max (seed_random seed g0)
            = Ok (Some filled, g)).
  { intros m0 buf0 g0 Hwf Hr0 Hc0. unfold matrix_init_random, seed_random.
    rewrite (wf_data _ _ Hwf).
    pose proof (wf_bytes _ _ Hwf) as Hbytes. unfold sizeof_double in Hbytes.
    pose proof (wf_rows _ _ Hwf). pose proof (wf_cols _ _ Hwf).
    assert (Hcount : wmul (rows m0) (cols m0) = rows m1 * cols m1).
    { unfold wmul. rewrite wrap_small by nia. congruence. }
    rewrite Hcount.
    rewrite (init_random_loop fuel min max seed (rows m1 * cols m1) buf0).
    - simpl. unfold filled, g. rewrite Hr0, Hc0. reflexivity.
    - rewrite (wf_length _ _ Hwf). congruence.
    - rewrite <- Hr0, <- Hc0. nia.
    - assumption. }
  split.
  - apply (Hrun m1 buf1 g1); auto.
  - apply (Hrun m2 buf2 g2); auto.
Qed.

End RandomProofs.

(** An allocator that grants every request, a zero-byte one included (as
    [posix_memalign] may), with [size / 8] elements of unspecified content. *)
Definition generous : allocator Q :=
  {| malloc_header := true;
     aligned_malloc := fun size _ => Some (replicate (Z.to_nat (size / 8)) (7 # 3)%Q) |}.

(** C8, the claim as written fails: with a zero extent the call succeeds and
    hands back a matrix of no elements. *)
Lemma matrix_create_zero_extent_succeeds :
  matrix_create generous 0 5 = Some {| data := Some []; rows := 0; cols := 5 |} /\
  matrix_create generous 5 0 = Some {| data := Some []; rows := 5; cols := 0 |}.
Proof. split; vm_compute; reflexivity. Qed.

Lemma matrix_create_spec_wrapping :
  (matrix_create generous (2 ^ 61 + 1) 1 = None <->
     malloc_header generous = false \/ aligned_malloc generous 8 32 = None) /\
  (forall mat, matrix_create generous (2 ^ 61 + 1) 1 = Some mat ->
     rows mat = 2 ^ 61 + 1 /\ cols mat = 1 /\
     data mat = aligned_malloc generous 8 32 /\
     data mat <> None) /\
  (0 <= (2 ^ 61 + 1) * 1 * sizeof_double < modulus -> 8 = (2 ^ 61 + 1) * 1 * sizeof_double) /\
  (2 ^ 61 + 1 = 0 \/ 1 = 0 -> 8 = 0) /\
  (modulus <= (2 ^ 61 + 1) * 1 * sizeof_double -> 8 < (2 ^ 61 + 1) * 1 * sizeof_double).
Proof. apply (matrix_create_spec generous (2 ^ 61 + 1) 1). Defined.

(** The byte count is computed in [size_t]: an extent of [2^61 + 1] rows of
    one column asks the allocator for 8 bytes. *)
Example matrix_create_byte_count_wraps :
  matrix_create generous (2 ^ 61 + 1) 1
  = Some {| data := Some [(7 # 3)%Q]; rows := 2 ^ 61 + 1; cols := 1 |}.
Proof. vm_compute. reflexivity. Qed.

(** ** The accumulating kernels clear the output themselves *)

Section Zeroing.

Context {T : Type} `{DoubleOps T}.

Definition zeroed (c : Matrix T) : Matrix T :=
  {| data := Some (replicate (Z.to_nat (rows c * cols c)) d_zero);
     rows := rows c; cols := cols c |}.

Lemma matrix_init_zero_wf (c : Matrix T) buf :
  well_formed c buf -> matrix_init_zero c = Ok (zeroed c).
Proof.
  intros Hwf. unfold matrix_init_zero, memset_zero, zeroed.
  rewrite (wf_data _ _ Hwf).
  pose proof (wf_bytes _ _ Hwf) as Hbytes. pose proof (wf_length _ _ Hwf) as Hlen.
  pose proof (wf_rows _ _ Hwf). pose proof (wf_cols _ _ Hwf).
  unfold sizeof_double in *.
  assert (Hn : wmul (wmul (rows c) (cols c)) 8 = rows c * cols c * 8).
  { unfold wmul. rewrite (wrap_small (rows c * cols c)) by nia. apply wrap_small. nia. }
  rewrite Hn, Z.div_mul by lia.
  destruct (Z.leb_spec (rows c * cols c) (Z.of_nat (length buf))) as [_|Hgt]; [|lia].
  simpl. rewrite drop_ge by lia. rewrite app_nil_r. reflexivity.
Qed.

Lemma tiled_from_zero (fuel : nat) (a b c : Matrix T) bufc tile_size :
  data a <> None -> data b <> None -> well_formed c bufc -> compatible a b c = true ->
  matrix_mult_tiled fuel (Some a) (Some b) (Some c) tile_size
  = let* s := tiled_loops fuel a b tile_size {| out := zeroed c; writes := [] |} in
    Ok (Some (out s), writes s).
Proof.
  intros Ha Hb Hc Hcompat. unfold matrix_mult_tiled, init_zero_out, usable.
  destruct (data a); [|congruence]. destruct (data b); [|congruence].
  rewrite (wf_data _ _ Hc), Hcompat. simpl.
  rewrite (matrix_init_zero_wf c bufc Hc). reflexivity.
Qed.

Lemma vector_from_zero (fuel : nat) (a b c : Matrix T) bufc :
  data a <> None -> data b <> None -> well_formed c bufc -> compatible a b c = true ->
  matrix_mult_vector fuel (Some a) (Some b) (Some c)
  = let* s := vector_loops fuel a b {| out := zeroed c; writes := [] |} in
    Ok (Some (out s), writes s).
Proof.
  intros Ha Hb Hc Hcompat. unfold matrix_mult_vector, init_zero_out, usable.
  destruct (data a); [|congruence]. destruct (data b); [|congruence].
  rewrite (wf_data _ _ Hc), Hcompat. simpl.
  rewrite (matrix_init_zero_wf c bufc Hc). reflexivity.
Qed.

End Zeroing.

(** ** The accumulating kernels on extents where their loop bounds do not wrap *)

(** Bookkeeping for the accumulating kernels: [K i j] says how many terms of
    the dot product element [(i, j)] of the output holds.  [paint] advances a
    rectangle of elements to [v] terms. *)
Definition in_box (i0 i1 j0 j1 i j : Z) : bool :=
  (i0 <=? i) && (i <? i1) && (j0 <=? j) && (j <? j1).

Definition paint (i0 i1 j0 j1 v : Z) (K : Z -> Z -> Z) : Z -> Z -> Z :=
  fun i j => if in_box i0 i1 j0 j1 i j then v else K i j.

Ltac box_cases :=
  unfold paint, in_box;
  repeat (match goal with
          | |- context [Z.leb ?x ?y] => destruct (Z.leb_spec x y)
          | |- context [Z.ltb ?x ?y] => destruct (Z.ltb_spec x y)
          end; cbn [andb]);
  try reflexivity; try lia.

Section Accumulation.

Context {T : Type} `{DoubleOps T}.

Variables (a b : Matrix T) (bufa bufb : list T).
Hypothesis Ha : well_formed a bufa.
Hypothesis Hb : well_formed b bufb.
Hypothesis Hab : cols a = rows b.

Local Abbreviation n := (rows a).
Local Abbreviation m := (cols a).
Local Abbreviation p := (cols b).

Hypothesis Hbytes : n * p * sizeof_double < modulus.

Variable fuel : nat.
Hypothesis Hfuel_n : n <= Z.of_nat fuel.
Hypothesis Hfuel_m : m <= Z.of_nat fuel.
Hypothesis Hfuel_p : p <= Z.of_nat fuel.

Definition accumulated (K : Z -> Z -> Z) (s : store T) : Prop :=
  rows (out s) = n /\ cols (out s) = p /\
  exists buf, data (out s) = Some buf /\
    Z.of_nat (length buf) = n * p /\
    forall i j, 0 <= i < n -> 0 <= j < p ->
      buf !! Z.to_nat (i * p + j) = Some (dot a b i j (K i j)).

Lemma accumulated_ext K K' s :
  (forall i j, 0 <= i < n -> 0 <= j < p -> K i j = K' i j) ->
  accumulated K s -> accumulated K' s.
Proof.
  intros Heq (Hr & Hc & buf & Hd & Hlen & Hval).
  split; [assumption|]. split; [assumption|].
  exists buf. split; [assumption|]. split; [assumption|].
  intros i j Hi Hj. rewrite <- Heq by assumption. apply Hval; assumption.
Qed.

Lemma out_offset (s : store T) i j :
  rows (out s) = n -> cols (out s) = p -> 0 <= i < n -> 0 <= j < p ->
  offset (out s) i j = i * p + j /\ 0 <= i * p + j < n * p.
Proof.
  intros Hr Hc Hi Hj. pose proof (wf_cols _ _ Hb) as Hp. unfold sizeof_double in Hbytes.
  assert (0 <= i * p + j < n * p) by nia.
  split; [|assumption]. unfold offset, wadd, wmul. rewrite Hc.
  rewrite (wrap_small (i * p)) by nia. apply wrap_small. nia.
Qed.

Lemma accumulated_get K s i j :
  accumulated K s -> 0 <= i < n -> 0 <= j < p ->
  MATRIX_GET (out s) i j = Ok (dot a b i j (K i j)).
Proof.
  intros (Hr & Hc & buf & Hd & Hlen & Hval) Hi Hj.
  destruct (out_offset s i j Hr Hc Hi Hj) as [Ho _].
  unfold MATRIX_GET. rewrite Hd, Ho, Hval by assumption. reflexivity.
Qed.

Lemma accumulated_set K s i j v :
  accumulated K s -> 0 <= i < n -> 0 <= j < p ->
  exists s', MATRIX_SET i j (dot a b i j v) s = Ok s' /\
             accumulated (paint i (i + 1) j (j + 1) v K) s'.
Proof.
  intros (Hr & Hc & buf & Hd & Hlen & Hval) Hi Hj.
  destruct (out_offset s i j Hr Hc Hi Hj) as [Ho Hin].
  unfold MATRIX_SET. rewrite Hd, Ho.
  destruct (Z.ltb_spec (i * p + j) (Z.of_nat (length buf))) as [_|Hge]; [|lia].
  eexists. split; [reflexivity|]. split; [assumption|]. split; [assumption|]. simpl.
  exists (<[Z.to_nat (i * p + j) := dot a b i j v]> buf).
  split; [reflexivity|]. split; [rewrite length_insert; assumption|].
  intros i' j' Hi' Hj'.
  pose proof (wf_cols _ _ Hb) as Hp.
  assert (0 <= i * p /\ 0 <= i' * p) as [Hip Hip'] by nia.
  destruct (Z.eq_dec i' i) as [->|Hni].
  - destruct (Z.eq_dec j' j) as [->|Hnj].
    + rewrite list_lookup_insert_eq by lia.
      replace (paint i (i + 1) j (j + 1) v K i j) with v by box_cases. reflexivity.
    + rewrite list_lookup_insert_ne by lia.
      replace (paint i (i + 1) j (j + 1) v K i j') with (K i j') by box_cases.
      apply Hval; assumption.
  - assert (i * p + j <> i' * p + j') by nia.
    rewrite list_lookup_insert_ne by lia.
    replace (paint i (i + 1) j (j + 1) v K i' j') with (K i' j') by box_cases.
    apply Hval; assumption.
Qed.

(** *** The tiled kernel *)

Section Tiled.

Variable tile_size : Z.
Hypothesis Hts : 3 <= tile_size <= 2 ^ 62.
Hypothesis Hm3 : 3 <= m.

Lemma tile_end_min x bound :
  0 <= x <= 2 ^ 62 -> tile_end x tile_size bound = Z.min (x + tile_size) bound.
Proof.
  intros Hx. unfold tile_end, wadd.
  rewrite wrap_small by (rewrite modulus_eq; lia).
  destruct (Z.ltb_spec (x + tile_size) bound); lia.
Qed.

(** The nest of [matrix_mult_tiled], level by level. *)
Definition tiled_unrolled (i j kk k_end : Z) (sum : T) : outcome (Z * T) :=
  for_loop fuel (fun k => k <? wsub k_end 3) (fun k => wadd k 4) (fun k sum =>
    let* sum := mac a b i k j sum in
    let* sum := mac a b i (wadd k 1) j sum in
    let* sum := mac a b i (wadd k 2) j sum in
    mac a b i (wadd k 3) j sum) kk sum.

Definition tiled_cell (i j kk k_end : Z) (s : store T) : outcome (store T) :=
  let* sum := MATRIX_GET (out s) i j in
  let* (k, sum) := tiled_unrolled i j kk k_end sum in
  let* (_, sum) := for_loop fuel (fun k => k <? k_end) incr (fun k sum =>
    mac a b i k j sum) k sum in
  MATRIX_SET i j sum s.

Definition tiled_row (i jj j_end kk k_end : Z) (s : store T) : outcome (Z * store T) :=
  for_loop fuel (fun j => j <? j_end) incr (fun j s => tiled_cell i j kk k_end s) jj s.

Definition tiled_block (ii i_end jj j_end kk k_end : Z) (s : store T)
    : outcome (Z * store T) :=
  for_loop fuel (fun i => i <? i_end) incr (fun i s =>
    let* (_, s) := tiled_row i jj j_end kk k_end s in Ok s) ii s.

Definition tiled_depth (ii jj : Z) (s : store T) : outcome (Z * store T) :=
  for_loop fuel (fun kk => kk <? m) (fun kk => wadd kk tile_size) (fun kk s =>
    let* (_, s) := tiled_block ii (tile_end ii tile_size n) jj (tile_end jj tile_size p)
                     kk (tile_end kk tile_size m) s in Ok s) 0 s.

Definition tiled_band (ii : Z) (s : store T) : outcome (Z * store T) :=
  for_loop fuel (fun jj => jj <? p) (fun jj => wadd jj tile_size) (fun jj s =>
    let* (_, s) := tiled_depth ii jj s in Ok s) 0 s.

Lemma tiled_loops_nest s :
  tiled_loops fuel a b tile_size s
  = let* (_, s) := for_loop fuel (fun ii => ii <? n) (fun ii => wadd ii tile_size)
                     (fun ii s => let* (_, s) := tiled_band ii s in Ok s) 0 s in
    Ok s.
Proof. reflexivity. Qed.

Lemma mac_dot i j k :
  0 <= i < n -> 0 <= j < p -> 0 <= k < m ->
  mac a b i k j (dot a b i j k) = Ok (dot a b i j (k + 1)).
Proof.
  intros Hi Hj Hk. rewrite (mac_ok a b bufa bufb) by (assumption || lia).
  rewrite dot_succ by lia. reflexivity.
Qed.

Lemma tiled_unrolled_ok i j kk k_end :
  0 <= i < n -> 0 <= j < p -> 0 <= kk <= k_end -> 3 <= k_end <= m ->
  exists k', tiled_unrolled i j kk k_end (dot a b i j kk) = Ok (k', dot a b i j k') /\
             kk <= k' <= k_end.
Proof.
  intros Hi Hj Hkk Hk. pose proof (wf_cols _ _ Ha) as Hmr.
  assert (Hbound : wsub k_end 3 = k_end - 3).
  { unfold wsub. apply wrap_small. lia. }
  unfold tiled_unrolled. rewrite Hbound.
  loop_rule (fun k sum => kk <= k <= k_end /\ sum = dot a b i j k)
            (fun k => Z.to_nat (k_end - k)).
  - split; [lia|reflexivity].
  - lia.
  - intros k sum [Hk' ->] Hc. apply Z.ltb_lt in Hc.
    unfold wadd. rewrite !wrap_small by lia.
    rewrite (mac_dot i j k) by lia. cbn [obind].
    rewrite (mac_dot i j (k + 1)) by lia. cbn [obind].
    replace (k + 1 + 1) with (k + 2) by lia.
    rewrite (mac_dot i j (k + 2)) by lia. cbn [obind].
    replace (k + 2 + 1) with (k + 3) by lia.
    rewrite (mac_dot i j (k + 3)) by lia.
    replace (k + 3 + 1) with (k + 4) by lia.
    eexists. split; [reflexivity|]. split; [|lia].
    split; [lia|reflexivity].
  - intros k' sum' [Hk' ->] _. exists k'. split; [reflexivity|assumption].
Qed.

Lemma tiled_cell_ok K s i j kk k_end :
  accumulated K s -> 0 <= i < n -> 0 <= j < p ->
  K i j = kk -> 0 <= kk <= k_end -> 3 <= k_end <= m ->
  exists s', tiled_cell i j kk k_end s = Ok s' /\
             accumulated (paint i (i + 1) j (j + 1) k_end K) s'.
Proof.
  intros Hacc Hi Hj HK Hkk Hk. unfold tiled_cell.
  rewrite (accumulated_get K s i j Hacc Hi Hj), HK. simpl.
  destruct (tiled_unrolled_ok i j kk k_end Hi Hj Hkk Hk) as (k' & -> & Hk'). simpl.
  rewrite (dot_loop a b bufa bufb) by (assumption || lia). simpl.
  apply accumulated_set; assumption.
Qed.

Lemma tiled_row_ok K s i jj j_end kk k_end :
  accumulated K s -> 0 <= i < n -> 0 <= jj <= j_end -> j_end <= p ->
  (forall j, jj <= j < j_end -> K i j = kk) ->
  0 <= kk <= k_end -> 3 <= k_end <= m ->
  exists s', tiled_row i jj j_end kk k_end s = Ok (j_end, s') /\
             accumulated (paint i (i + 1) jj j_end k_end K) s'.
Proof.
  intros Hacc Hi Hjj Hje HK Hkk Hk. pose proof (wf_cols _ _ Hb) as Hpr.
  unfold tiled_row.
  loop_rule (fun j s => jj <= j <= j_end /\ accumulated (paint i (i + 1) jj j k_end K) s)
            (fun j => Z.to_nat (j_end - j)).
  - split; [lia|]. apply (accumulated_ext K); [|assumption].
    intros i' j' _ _. box_cases.
  - lia.
  - intros j s0 [Hj Hacc0] Hc. apply Z.ltb_lt in Hc.
    destruct (tiled_cell_ok _ s0 i j kk k_end Hacc0) as (s1 & Hrun & Hacc1);
      try assumption; try lia.
    { rewrite <- (HK j) by lia. box_cases. }
    exists s1. split; [assumption|]. rewrite incr_small by lia.
    split; [|lia]. split; [lia|].
    eapply accumulated_ext; [|exact Hacc1]. intros i' j' _ _. box_cases.
  - intros j' s' [Hj' Hacc'] Hc. apply Z.ltb_ge in Hc.
    assert (j' = j_end) as -> by lia. exists s'. split; [reflexivity|assumption].
Qed.

Lemma tiled_block_ok K s ii i_end jj j_end kk k_end :
  accumulated K s -> 0 <= ii <= i_end -> i_end <= n -> 0 <= jj <= j_end -> j_end <= p ->
  (forall i j, ii <= i < i_end -> jj <= j < j_end -> K i j = kk) ->
  0 <= kk <= k_end -> 3 <= k_end <= m ->
  exists s', tiled_block ii i_end jj j_end kk k_end s = Ok (i_end, s') /\
             accumulated (paint ii i_end jj j_end k_end K) s'.
Proof.
  intros Hacc Hii Hie Hjj Hje HK Hkk Hk. pose proof (wf_rows _ _ Ha) as Hnr.
  unfold tiled_block.
  loop_rule (fun i s => ii <= i <= i_end /\ accumulated (paint ii i jj j_end k_end K) s)
            (fun i => Z.to_nat (i_end - i)).
  - split; [lia|]. apply (accumulated_ext K); [|assumption].
    intros i' j' _ _. box_cases.
  - lia.
  - intros i s0 [Hi Hacc0] Hc. apply Z.ltb_lt in Hc.
    destruct (tiled_row_ok _ s0 i jj j_end kk k_end Hacc0) as (s1 & Hrun & Hacc1);
      try assumption; try lia.
    { intros j Hj. rewrite <- (HK i j) by lia. box_cases. }
    rewrite Hrun. cbn [obind]. exists s1. split; [reflexivity|].
    rewrite incr_small by lia. split; [|lia]. split; [lia|].
    eapply accumulated_ext; [|exact Hacc1]. intros i' j' _ _. box_cases.
  - intros i' s' [Hi' Hacc'] Hc. apply Z.ltb_ge in Hc.
    assert (i' = i_end) as -> by lia. exists s'. split; [reflexivity|assumption].
Qed.

Lemma extents_small :
  0 < n -> 0 < p -> n <= 2 ^ 61 /\ m <= 2 ^ 61 /\ p <= 2 ^ 61.
Proof.
  intros Hn Hp. pose proof (wf_bytes _ _ Ha) as Hba. unfold sizeof_double in *.
  rewrite modulus_eq in *. repeat split; nia.
Qed.

Lemma tiled_depth_ok K s ii jj :
  accumulated K s -> 0 <= ii < n -> 0 <= jj < p ->
  (forall i j, ii <= i < Z.min (ii + tile_size) n -> jj <= j < Z.min (jj + tile_size) p ->
     K i j = 0) ->
  exists kk' s', tiled_depth ii jj s = Ok (kk', s') /\
    accumulated (paint ii (Z.min (ii + tile_size) n) jj (Z.min (jj + tile_size) p) m K) s'.
Proof.
  intros Hacc Hii Hjj HK.
  destruct extents_small as (Hn & Hm & Hp); [lia|lia|].
  unfold tiled_depth. rewrite !tile_end_min by lia.
  set (i_end := Z.min (ii + tile_size) n) in *.
  set (j_end := Z.min (jj + tile_size) p) in *.
  loop_rule (fun kk s => 0 <= kk /\
               accumulated (paint ii i_end jj j_end (Z.min kk m) K) s)
            (fun kk => Z.to_nat (m - kk)).
  - split; [lia|]. apply (accumulated_ext K); [|assumption].
    intros i' j' _ _. unfold paint. destruct (in_box ii i_end jj j_end i' j') eqn:Hbox.
    + unfold in_box in Hbox. rewrite (HK i' j') by lia. lia.
    + reflexivity.
  - lia.
  - intros kk s0 [Hkk Hacc0] Hc. apply Z.ltb_lt in Hc.
    rewrite tile_end_min by lia.
    destruct (tiled_block_ok _ s0 ii i_end jj j_end kk (Z.min (kk + tile_size) m) Hacc0)
      as (s1 & Hrun & Hacc1); try lia.
    { intros i j Hi Hj. box_cases. }
    rewrite Hrun. cbn [obind]. exists s1. split; [reflexivity|].
    unfold wadd. rewrite wrap_small by (rewrite modulus_eq; lia).
    split; [|lia]. split; [lia|].
    eapply accumulated_ext; [|exact Hacc1]. intros i' j' _ _. box_cases.
  - intros kk' s' [Hkk' Hacc'] Hc. apply Z.ltb_ge in Hc.
    exists kk', s'. split; [reflexivity|].
    replace (Z.min kk' m) with m in Hacc' by lia. assumption.
Qed.

Lemma tiled_band_ok K s ii :
  accumulated K s -> 0 <= ii < n ->
  (forall i j, ii <= i < Z.min (ii + tile_size) n -> 0 <= j < p -> K i j = 0) ->
  exists jj' s', tiled_band ii s = Ok (jj', s') /\
    accumulated (paint ii (Z.min (ii + tile_size) n) 0 p m K) s'.
Proof.
  intros Hacc Hii HK. pose proof (wf_cols _ _ Hb) as Hpr.
  unfold tiled_band.
  set (i_end := Z.min (ii + tile_size) n) in *.
  loop_rule (fun jj s => 0 <= jj /\
               accumulated (paint ii i_end 0 (Z.min jj p) m K) s)
            (fun jj => Z.to_nat (p - jj)).
  - split; [lia|]. apply (accumulated_ext K); [|assumption].
    intros i' j' _ _. box_cases.
  - lia.
  - intros jj s0 [Hjj Hacc0] Hc. apply Z.ltb_lt in Hc.
    destruct extents_small as (Hn & Hm & Hp); [lia|lia|].
    destruct (tiled_depth_ok _ s0 ii jj Hacc0) as (kk' & s1 & Hrun & Hacc1); try lia.
    { intros i j Hi Hj. rewrite <- (HK i j) by lia. box_cases. }
    rewrite Hrun. cbn [obind]. exists s1. split; [reflexivity|].
    unfold wadd. rewrite wrap_small by (rewrite modulus_eq; lia).
    split; [|lia]. split; [lia|].
    eapply accumulated_ext; [|exact Hacc1]. intros i' j' _ Hj'. box_cases.
  - intros jj' s' [Hjj' Hacc'] Hc. apply Z.ltb_ge in Hc.
    exists jj', s'. split; [reflexivity|].
    replace (Z.min jj' p) with p in Hacc' by lia. assumption.
Qed.

Lemma tiled_loops_ok s :
  0 < p ->
  accumulated (fun _ _ => 0) s ->
  exists s', tiled_loops fuel a b tile_size s = Ok s' /\ accumulated (fun _ _ => m) s'.
Proof.
  intros Hp0 Hacc. pose proof (wf_rows _ _ Ha) as Hnr.
  rewrite tiled_loops_nest.
  loop_rule (fun ii s => 0 <= ii /\
               accumulated (paint 0 (Z.min ii n) 0 p m (fun _ _ => 0)) s)
            (fun ii => Z.to_nat (n - ii)).
  - split; [lia|]. eapply accumulated_ext; [|exact Hacc].
    intros i' j' _ _. box_cases.
  - lia.
  - intros ii s0 [Hii Hacc0] Hc. apply Z.ltb_lt in Hc.
    destruct extents_small as (Hn & Hm & Hp); [lia|lia|].
    destruct (tiled_band_ok _ s0 ii Hacc0) as (jj' & s1 & Hrun & Hacc1); try lia.
    { intros i j Hi Hj. box_cases. }
    rewrite Hrun. cbn [obind]. exists s1. split; [reflexivity|].
    unfold wadd. rewrite wrap_small by (rewrite modulus_eq; lia).
    split; [|lia]. split; [lia|].
    eapply accumulated_ext; [|exact Hacc1]. intros i' j' Hi' Hj'. box_cases.
  - intros ii' s' [Hii' Hacc'] Hc. apply Z.ltb_ge in Hc. cbn [obind].
    exists s'. split; [reflexivity|].
    eapply accumulated_ext; [|exact Hacc']. intros i' j' Hi' Hj'. box_cases.
Qed.

End Tiled.

(** *** The vector kernel *)

Section Vector.

Hypothesis Hp8 : 8 <= p.

(** The nest of [matrix_mult_vector], level by level. *)
Definition vector_lanes (i k j : Z) (a_ik : T) (s : store T) : outcome (Z * store T) :=
  for_loop fuel (fun vj => vj <? VECTOR_LENGTH) incr (fun vj s =>
    lane b i k (wadd j vj) a_ik s) 0 s.

Definition vector_chunks (i k : Z) (a_ik : T) (s : store T) : outcome (Z * store T) :=
  for_loop fuel (fun j => j <=? wsub p VECTOR_LENGTH) (fun j => wadd j VECTOR_LENGTH)
    (fun j s => let* (_, s) := vector_lanes i k j a_ik s in Ok s) 0 s.

Definition vector_cleanup (i k : Z) (a_ik : T) (j : Z) (s : store T)
    : outcome (Z * store T) :=
  for_loop fuel (fun j => j <? p) incr (fun j s => lane b i k j a_ik s) j s.

Definition vector_pass (i k : Z) (s : store T) : outcome (store T) :=
  let* a_ik := MATRIX_GET a i k in
  let* (j, s) := vector_chunks i k a_ik s in
  let* (_, s) := vector_cleanup i k a_ik j s in
  Ok s.

Definition vector_row (i : Z) (s : store T) : outcome (Z * store T) :=
  for_loop fuel (fun k => k <? m) incr (fun k s => vector_pass i k s) 0 s.

Lemma vector_loops_nest s :
  vector_loops fuel a b s
  = let* (_, s) := for_loop fuel (fun i => i <? n) incr
                     (fun i s => let* (_, s) := vector_row i s in Ok s) 0 s in
    Ok s.
Proof. reflexivity. Qed.

Lemma lane_ok K s i k j :
  accumulated K s -> 0 <= i < n -> 0 <= k < m -> 0 <= j < p -> K i j = k ->
  exists s', lane b i k j (entry a i k) s = Ok s' /\
             accumulated (paint i (i + 1) j (j + 1) (k + 1) K) s'.
Proof.
  intros Hacc Hi Hk Hj HK. unfold lane.
  rewrite (accumulated_get K s i j Hacc Hi Hj), HK. cbn [obind].
  rewrite (MATRIX_GET_ok b bufb) by (assumption || lia). cbn [obind].
  rewrite <- dot_succ by lia. apply accumulated_set; assumption.
Qed.

Lemma vector_lanes_ok K s i k j :
  accumulated K s -> 0 <= i < n -> 0 <= k < m -> 0 <= j -> j + 8 <= p ->
  (forall j', j <= j' < j + 8 -> K i j' = k) ->
  exists s', vector_lanes i k j (entry a i k) s = Ok (8, s') /\
             accumulated (paint i (i + 1) j (j + 8) (k + 1) K) s'.
Proof.
  intros Hacc Hi Hk Hj Hje HK. pose proof (wf_cols _ _ Hb) as Hpr.
  unfold vector_lanes. change VECTOR_LENGTH with 8.
  loop_rule (fun vj s => 0 <= vj <= 8 /\
               accumulated (paint i (i + 1) j (j + vj) (k + 1) K) s)
            (fun vj => Z.to_nat (8 - vj)).
  - split; [lia|]. apply (accumulated_ext K); [|assumption].
    intros i' j' _ _. box_cases.
  - lia.
  - intros vj s0 [Hvj Hacc0] Hc. apply Z.ltb_lt in Hc.
    unfold wadd. rewrite wrap_small by lia.
    destruct (lane_ok _ s0 i k (j + vj) Hacc0) as (s1 & Hrun & Hacc1); try lia.
    { rewrite <- (HK (j + vj)) by lia. box_cases. }
    exists s1. split; [assumption|]. rewrite incr_small by lia.
    split; [|lia]. split; [lia|].
    eapply accumulated_ext; [|exact Hacc1]. intros i' j' _ _. box_cases.
  - intros vj' s' [Hvj' Hacc'] Hc. apply Z.ltb_ge in Hc.
    assert (vj' = 8) as -> by lia. exists s'. split; [reflexivity|assumption].
Qed.

Lemma vector_chunks_ok K s i k :
  accumulated K s -> 0 <= i < n -> 0 <= k < m ->
  (forall j, 0 <= j < p -> K i j = k) ->
  exists j s', vector_chunks i k (entry a i k) s = Ok (j, s') /\ 0 <= j <= p /\
               accumulated (paint i (i + 1) 0 j (k + 1) K) s'.
Proof.
  intros Hacc Hi Hk HK. pose proof (wf_cols _ _ Hb) as Hpr.
  unfold vector_chunks. change VECTOR_LENGTH with 8.
  assert (Hbound : wsub p 8 = p - 8).
  { unfold wsub. apply wrap_small. lia. }
  rewrite Hbound.
  loop_rule (fun j s => 0 <= j <= p /\ accumulated (paint i (i + 1) 0 j (k + 1) K) s)
            (fun j => Z.to_nat (p - j)).
  - split; [lia|]. apply (accumulated_ext K); [|assumption].
    intros i' j' _ _. box_cases.
  - lia.
  - intros j s0 [Hj Hacc0] Hc. apply Z.leb_le in Hc.
    destruct (vector_lanes_ok _ s0 i k j Hacc0) as (s1 & Hrun & Hacc1); try lia.
    { intros j' Hj'. rewrite <- (HK j') by lia. box_cases. }
    rewrite Hrun. cbn [obind]. exists s1. split; [reflexivity|].
    unfold wadd. rewrite wrap_small by lia.
    split; [|lia]. split; [lia|].
    eapply accumulated_ext; [|exact Hacc1]. intros i' j' _ _. box_cases.
  - intros j' s' [Hj' Hacc'] _. exists j', s'. split; [reflexivity|]. split; assumption.
Qed.

Lemma vector_cleanup_ok K s i k j :
  accumulated (paint i (i + 1) 0 j (k + 1) K) s -> 0 <= i < n -> 0 <= k < m -> 0 <= j <= p ->
  (forall j, 0 <= j < p -> K i j = k) ->
  exists s', vector_cleanup i k (entry a i k) j s = Ok (p, s') /\
             accumulated (paint i (i + 1) 0 p (k + 1) K) s'.
Proof.
  intros Hacc Hi Hk Hj HK. pose proof (wf_cols _ _ Hb) as Hpr.
  unfold vector_cleanup.
  loop_rule (fun j0 s => j <= j0 <= p /\ accumulated (paint i (i + 1) 0 j0 (k + 1) K) s)
            (fun j0 => Z.to_nat (p - j0)).
  - split; [lia|assumption].
  - lia.
  - intros j0 s0 [Hj0 Hacc0] Hc. apply Z.ltb_lt in Hc.
    destruct (lane_ok _ s0 i k j0 Hacc0) as (s1 & Hrun & Hacc1); try lia.
    { rewrite <- (HK j0) by lia. box_cases. }
    exists s1. split; [assumption|]. rewrite incr_small by lia.
    split; [|lia]. split; [lia|].
    eapply accumulated_ext; [|exact Hacc1]. intros i' j' _ _. box_cases.
  - intros j' s' [Hj' Hacc'] Hc. apply Z.ltb_ge in Hc.
    assert (j' = p) as -> by lia. exists s'. split; [reflexivity|assumption].
Qed.

Lemma vector_pass_ok K s i k :
  accumulated K s -> 0 <= i < n -> 0 <= k < m ->
  (forall j, 0 <= j < p -> K i j = k) ->
  exists s', vector_pass i k s = Ok s' /\
             accumulated (paint i (i + 1) 0 p (k + 1) K) s'.
Proof.
  intros Hacc Hi Hk HK. unfold vector_pass.
  rewrite (MATRIX_GET_ok a bufa) by assumption. cbn [obind].
  destruct (vector_chunks_ok K s i k Hacc Hi Hk HK) as (j & s1 & -> & Hj & Hacc1).
  cbn [obind].
  destruct (vector_cleanup_ok K s1 i k j Hacc1 Hi Hk Hj HK) as (s2 & -> & Hacc2).
  cbn [obind]. exists s2. split; [reflexivity|assumption].
Qed.

Lemma vector_row_ok K s i :
  accumulated K s -> 0 <= i < n ->
  (forall j, 0 <= j < p -> K i j = 0) ->
  exists s', vector_row i s = Ok (m, s') /\
             accumulated (paint i (i + 1) 0 p m K) s'.
Proof.
  intros Hacc Hi HK. pose proof (wf_cols _ _ Ha) as Hmr.
  unfold vector_row.
  loop_rule (fun k s => 0 <= k <= m /\ accumulated (paint i (i + 1) 0 p k K) s)
            (fun k => Z.to_nat (m - k)).
  - split; [lia|]. apply (accumulated_ext K); [|assumption].
    intros i' j' _ Hj'. unfold paint. destruct (in_box i (i + 1) 0 p i' j') eqn:Hbox.
    + unfold in_box in Hbox. assert (i' = i) as -> by lia. rewrite HK by lia. reflexivity.
    + reflexivity.
  - lia.
  - intros k s0 [Hk Hacc0] Hc. apply Z.ltb_lt in Hc.
    destruct (vector_pass_ok _ s0 i k Hacc0) as (s1 & Hrun & Hacc1); try lia.
    { intros j Hj. box_cases. }
    exists s1. split; [assumption|]. rewrite incr_small by lia.
    split; [|lia]. split; [lia|].
    eapply accumulated_ext; [|exact Hacc1]. intros i' j' _ _. box_cases.
  - intros k' s' [Hk' Hacc'] Hc. apply Z.ltb_ge in Hc.
    assert (k' = m) as -> by lia. exists s'. split; [reflexivity|assumption].
Qed.

Lemma vector_loops_ok s :
  accumulated (fun _ _ => 0) s ->
  exists s', vector_loops fuel a b s = Ok s' /\ accumulated (fun _ _ => m) s'.
Proof.
  intros Hacc. pose proof (wf_rows _ _ Ha) as Hnr.
  rewrite vector_loops_nest.
  loop_rule (fun i s => 0 <= i <= n /\
               accumulated (paint 0 i 0 p m (fun _ _ => 0)) s)
            (fun i => Z.to_nat (n - i)).
  - split; [lia|]. eapply accumulated_ext; [|exact Hacc].
    intros i' j' _ _. box_cases.
  - lia.
  - intros i s0 [Hi Hacc0] Hc. apply Z.ltb_lt in Hc.
    destruct (vector_row_ok _ s0 i Hacc0) as (s1 & Hrun & Hacc1); try lia.
    { intros j Hj. box_cases. }
    rewrite Hrun. cbn [obind]. exists s1. split; [reflexivity|].
    rewrite incr_small by lia. split; [|lia]. split; [lia|].
    eapply accumulated_ext; [|exact Hacc1]. intros i' j' _ _. box_cases.
  - intros i' s' [Hi' Hacc'] Hc. apply Z.ltb_ge in Hc. cbn [obind].
    exists s'. split; [reflexivity|].
    eapply accumulated_ext; [|exact Hacc']. intros i0 j0 Hi0 Hj0. box_cases.
Qed.

End Vector.

End Accumulation.

(** ** The accumulating kernels on extents where a loop bound wraps *)

Lemma wrap_negative z : - modulus <= z < 0 -> wrap z = z + modulus.
Proof.
  intros Hz. unfold wrap. symmetry. apply Z.mod_unique with (-1); lia.
Qed.

Section Wrapping.

Context {T : Type} `{DoubleOps T}.

Variables (a b : Matrix T) (bufa bufb : list T).
Hypothesis Ha : well_formed a bufa.
Hypothesis Hb : well_formed b bufb.
Hypothesis Hab : cols a = rows b.

Local Abbreviation n := (rows a).
Local Abbreviation m := (cols a).
Local Abbreviation p := (cols b).

Hypothesis Hn1 : 1 <= n.
Hypothesis Hm1 : 1 <= m.
Hypothesis Hbytes : n * p * sizeof_double < modulus.

Variable fuel : nat.

(** An output object of the right extents, whatever it holds. *)
Definition shaped (s : store T) : Prop :=
  rows (out s) = n /\ cols (out s) = p /\
  exists buf, data (out s) = Some buf /\ Z.of_nat (length buf) = n * p.

Lemma extents_bounded : n <= 2 ^ 61 /\ m <= 2 ^ 61 /\ 0 <= p <= 2 ^ 61.
Proof.
  pose proof (wf_bytes _ _ Ha) as Hba. pose proof (wf_bytes _ _ Hb) as Hbb.
  pose proof (wf_cols _ _ Hb) as Hp.
  unfold sizeof_double in *. rewrite modulus_eq in *. rewrite <- Hab in Hbb.
  repeat split; nia.
Qed.

Lemma MATRIX_GET_total (mat : Matrix T) i j :
  MATRIX_GET mat i j = Fault \/ exists v, MATRIX_GET mat i j = Ok v.
Proof.
  unfold MATRIX_GET. destruct (data mat) as [buf|]; [|left; reflexivity].
  destruct (buf !! Z.to_nat (offset mat i j)) as [v|]; [right; eauto|left; reflexivity].
Qed.

Lemma mac_total i k j sum :
  mac a b i k j sum = Fault \/ exists v, mac a b i k j sum = Ok v.
Proof.
  unfold mac.
  destruct (MATRIX_GET_total a i k) as [->|[x ->]]; [left; reflexivity|]. cbn [obind].
  destruct (MATRIX_GET_total b k j) as [->|[y ->]]; [left; reflexivity|]. cbn [obind].
  right. eauto.
Qed.

(** Reading row [k >= m] of [B] is outside its buffer. *)
Lemma mac_past_rows k sum :
  m <= k <= m + 3 -> mac a b 0 k 0 sum = Fault.
Proof.
  intros Hk. destruct extents_bounded as (Hn & Hm & Hp).
  assert (Hmp : 0 <= m * p < 2 ^ 61).
  { pose proof (wf_bytes _ _ Hb) as Hbb. unfold sizeof_double in Hbb.
    rewrite modulus_eq, <- Hab in Hbb. nia. }
  assert (Hkp : m * p <= k * p <= m * p + 3 * p) by nia.
  unfold mac. destruct (MATRIX_GET_total a 0 k) as [->|[x ->]]; [reflexivity|].
  cbn [obind]. unfold MATRIX_GET. rewrite (wf_data _ _ Hb).
  assert (Ho : offset b k 0 = k * p).
  { unfold offset, wadd, wmul. rewrite (wrap_small (k * p)) by (rewrite modulus_eq; lia).
    rewrite Z.add_0_r. apply wrap_small. rewrite modulus_eq. lia. }
  rewrite Ho. rewrite lookup_ge_None_2; [reflexivity|].
  pose proof (wf_length _ _ Hb) as Hlen. rewrite <- Hab in Hlen. lia.
Qed.

Lemma tiled_unrolled_faults k_end sum :
  1 <= k_end <= 2 -> m < Z.of_nat fuel ->
  tiled_unrolled a b fuel 0 0 0 k_end sum = Fault.
Proof.
  intros Hk Hfuel. destruct extents_bounded as (Hn & Hm & Hp).
  assert (Hbound : wsub k_end 3 = k_end - 3 + modulus).
  { unfold wsub. apply wrap_negative. rewrite modulus_eq. lia. }
  unfold tiled_unrolled. rewrite Hbound.
  apply (for_loop_faults (fun k _ => 0 <= k <= m) (fun k => Z.to_nat (m - k)));
    [|lia|lia].
  intros k acc Hk0. split; [apply Z.ltb_lt; rewrite modulus_eq; lia|].
  unfold wadd. rewrite !wrap_small by (rewrite modulus_eq; lia).
  destruct (mac_total 0 k 0 acc) as [->|[v1 ->]]; [left; reflexivity|]. cbn [obind].
  destruct (mac_total 0 (k + 1) 0 v1) as [->|[v2 ->]]; [left; reflexivity|]. cbn [obind].
  destruct (mac_total 0 (k + 2) 0 v2) as [->|[v3 ->]]; [left; reflexivity|]. cbn [obind].
  destruct (Z_lt_le_dec (k + 3) m) as [Hlt|Hge].
  - destruct (mac_total 0 (k + 3) 0 v3) as [->|[v4 ->]]; [left; reflexivity|].
    right. exists v4. split; [reflexivity|]. split; lia.
  - left. apply mac_past_rows. lia.
Qed.

Lemma shaped_first (s : store T) :
  shaped s -> 1 <= p -> exists v, MATRIX_GET (out s) 0 0 = Ok v.
Proof.
  intros (Hr & Hc & buf & Hd & Hlen) Hp. unfold MATRIX_GET. rewrite Hd.
  assert (Ho : offset (out s) 0 0 = 0) by reflexivity. rewrite Ho.
  destruct (lookup_lt_is_Some_2 buf (Z.to_nat 0)) as [v Hv]; [nia|].
  rewrite Hv. eauto.
Qed.

Lemma tiled_loops_faults tile_size s :
  shaped s -> 1 <= p -> 1 <= tile_size <= 2 ^ 62 -> tile_size <= 2 \/ m <= 2 ->
  m < Z.of_nat fuel ->
  tiled_loops fuel a b tile_size s = Fault.
Proof.
  intros Hs Hp Hts Hsmall Hfuel. destruct extents_bounded as (Hn & Hm & _).
  assert (Hend : forall bound, 1 <= bound ->
            tile_end 0 tile_size bound = Z.min tile_size bound).
  { intros bound Hb1. unfold tile_end, wadd. rewrite Z.add_0_l.
    rewrite wrap_small by (rewrite modulus_eq; lia).
    destruct (Z.ltb_spec tile_size bound); lia. }
  assert (Hpos : (0 < fuel)%nat) by lia.
  assert (Hcell : tiled_cell a b fuel 0 0 0 (Z.min tile_size m) s = Fault).
  { unfold tiled_cell. destruct (shaped_first s Hs Hp) as [v ->]. cbn [obind].
    rewrite tiled_unrolled_faults by lia. reflexivity. }
  assert (Hrow : tiled_row a b fuel 0 0 (Z.min tile_size p) 0 (Z.min tile_size m) s = Fault).
  { unfold tiled_row. apply for_loop_first_fault; [assumption|apply Z.ltb_lt; lia|].
    exact Hcell. }
  assert (Hblock : tiled_block a b fuel 0 (Z.min tile_size n) 0 (Z.min tile_size p)
                     0 (Z.min tile_size m) s = Fault).
  { unfold tiled_block. apply for_loop_first_fault; [assumption|apply Z.ltb_lt; lia|].
    rewrite Hrow. reflexivity. }
  assert (Hdepth : tiled_depth a b fuel tile_size 0 0 s = Fault).
  { unfold tiled_depth. apply for_loop_first_fault; [assumption|apply Z.ltb_lt; lia|].
    rewrite !Hend by lia. rewrite Hblock. reflexivity. }
  assert (Hband : tiled_band a b fuel tile_size 0 s = Fault).
  { unfold tiled_band. apply for_loop_first_fault; [assumption|apply Z.ltb_lt; lia|].
    rewrite Hdepth. reflexivity. }
  rewrite tiled_loops_nest.
  rewrite for_loop_first_fault; [reflexivity|assumption|apply Z.ltb_lt; lia|].
  rewrite Hband. reflexivity.
Qed.

Lemma lane_total s i k j a_ik :
  shaped s ->
  lane b i k j a_ik s = Fault \/ exists s', lane b i k j a_ik s = Ok s' /\ shaped s'.
Proof.
  intros (Hr & Hc & buf & Hd & Hlen). unfold lane.
  destruct (MATRIX_GET_total (out s) i j) as [->|[x ->]]; [left; reflexivity|]. cbn [obind].
  destruct (MATRIX_GET_total b k j) as [->|[y ->]]; [left; reflexivity|]. cbn [obind].
  unfold MATRIX_SET. rewrite Hd.
  destruct (offset (out s) i j <? Z.of_nat (length buf)); [|left; reflexivity].
  right. eexists. split; [reflexivity|].
  split; [assumption|]. split; [assumption|]. simpl.
  eexists. split; [reflexivity|]. rewrite length_insert. assumption.
Qed.

(** Column [j >= n * p] of row 0 of the output is outside its buffer. *)
Lemma lane_past_end s k j a_ik :
  shaped s -> n * p <= j < modulus -> lane b 0 k j a_ik s = Fault.
Proof.
  intros (Hr & Hc & buf & Hd & Hlen) Hj. unfold lane, MATRIX_GET. rewrite Hd.
  assert (Ho : offset (out s) 0 j = j).
  { unfold offset, wadd, wmul. rewrite Z.mul_0_l. rewrite (wrap_small 0) by (rewrite modulus_eq; lia).
    apply wrap_small. destruct extents_bounded as (_ & _ & Hp). nia. }
  rewrite Ho. rewrite lookup_ge_None_2 by lia. reflexivity.
Qed.

Lemma vector_lanes_total s k j a_ik :
  shaped s -> 0 <= j <= 2 ^ 62 -> 8 < Z.of_nat fuel ->
  vector_lanes b fuel 0 k j a_ik s = Fault \/
  exists vj s', vector_lanes b fuel 0 k j a_ik s = Ok (vj, s') /\ shaped s'.
Proof.
  intros Hs Hj Hfuel. unfold vector_lanes. change VECTOR_LENGTH with 8.
  destruct (for_loop_partial (fun vj s => 0 <= vj <= 8 /\ shaped s)
              (fun vj => Z.to_nat (8 - vj))
              (fun vj => vj <? 8) incr
              (fun vj s => lane b 0 k (wadd j vj) a_ik s)) with
    (fuel := fuel) (x := 0) (s := s) as [Hf|(vj & s' & Hrun & _ & Hs')].
  - intros vj s0 [Hvj Hs0] Hc. apply Z.ltb_lt in Hc.
    destruct (lane_total s0 0 k (wadd j vj) a_ik Hs0) as [Hf|(s1 & Hrun & Hs1)];
      [left; assumption|].
    right. exists s1. split; [assumption|]. rewrite incr_small by (rewrite modulus_eq; lia).
    split; [|lia]. split; [lia|assumption].
  - split; [lia|assumption].
  - lia.
  - left. assumption.
  - right. exists vj, s'. split; assumption.
Qed.

Lemma vector_lanes_past_end s k j a_ik :
  shaped s -> n * p <= j < modulus -> 0 < Z.of_nat fuel ->
  vector_lanes b fuel 0 k j a_ik s = Fault.
Proof.
  intros Hs Hj Hfuel. unfold vector_lanes.
  assert (0 <= n * p) by (destruct extents_bounded as (_ & _ & Hp); nia).
  apply for_loop_first_fault; [lia|reflexivity|].
  unfold wadd. rewrite Z.add_0_r, wrap_small by lia.
  apply lane_past_end; assumption.
Qed.

Lemma vector_chunks_faults s a_ik :
  shaped s -> p < 8 -> n * p + 8 < Z.of_nat fuel ->
  vector_chunks b fuel 0 0 a_ik s = Fault.
Proof.
  intros Hs Hp8 Hfuel. destruct extents_bounded as (Hn & Hm & Hp).
  assert (Hnp : 0 <= n * p <= 2 ^ 61).
  { unfold sizeof_double in Hbytes. rewrite modulus_eq in Hbytes. nia. }
  assert (Hbound : wsub p VECTOR_LENGTH = p - 8 + modulus).
  { unfold wsub, VECTOR_LENGTH. apply wrap_negative. rewrite modulus_eq. lia. }
  unfold vector_chunks. rewrite Hbound. change VECTOR_LENGTH with 8.
  apply (for_loop_faults (fun j s => 0 <= j <= n * p + 8 /\ shaped s)
           (fun j => Z.to_nat (n * p + 8 - j))); [|split; [lia|assumption]|lia].
  intros j s0 [Hj Hs0]. split; [apply Z.leb_le; rewrite modulus_eq; lia|].
  destruct (Z_lt_le_dec j (n * p)) as [Hlt|Hge].
  - destruct (vector_lanes_total s0 0 j a_ik Hs0) as [->|(vj & s1 & -> & Hs1)];
      [lia|lia|left; reflexivity|].
    right. exists s1. split; [reflexivity|].
    unfold wadd. rewrite wrap_small by (rewrite modulus_eq; lia).
    split; [|lia]. split; [lia|assumption].
  - left. rewrite vector_lanes_past_end; [reflexivity|assumption| |lia].
    rewrite modulus_eq. lia.
Qed.

Lemma vector_loops_faults s :
  shaped s -> p < 8 -> n * p + 8 < Z.of_nat fuel ->
  vector_loops fuel a b s = Fault.
Proof.
  intros Hs Hp8 Hfuel.
  assert (Hpos : (0 < fuel)%nat) by (pose proof (wf_rows _ _ Ha); pose proof (wf_cols _ _ Hb); nia).
  assert (Hpass : vector_pass a b fuel 0 0 s = Fault).
  { unfold vector_pass. rewrite (MATRIX_GET_ok a bufa) by (assumption || lia).
    cbn [obind]. rewrite vector_chunks_faults by assumption. reflexivity. }
  assert (Hrow : vector_row a b fuel 0 s = Fault).
  { unfold vector_row. apply for_loop_first_fault; [assumption|apply Z.ltb_lt; lia|].
    exact Hpass. }
  rewrite vector_loops_nest.
  rewrite for_loop_first_fault; [reflexivity|assumption|apply Z.ltb_lt; lia|].
  rewrite Hrow. reflexivity.
Qed.

End Wrapping.

(** ** Agreement of the three kernels *)

Section Agreement.

Context {T : Type} `{DoubleOps T}.

(** The product as a matrix: element [(i, j)] is the left-to-right sum of the
    [cols a] terms [A[i][k] * B[k][j]]. *)
Definition product (a b : Matrix T) : Matrix T :=
  {| data := Some ((fun o => dot a b (Z.of_nat o / cols b) (Z.of_nat o mod cols b) (cols a))
                     <$> seq 0 (Z.to_nat (rows a * cols b)));
     rows := rows a; cols := cols b |}.

Lemma product_intro (a b c : Matrix T) buf :
  rows c = rows a -> cols c = cols b -> data c = Some buf ->
  Z.of_nat (length buf) = rows a * cols b ->
  (forall o, 0 <= o < rows a * cols b ->
     buf !! Z.to_nat o = Some (dot a b (o / cols b) (o mod cols b) (cols a))) ->
  c = product a b.
Proof.
  intros Hr Hc Hd Hlen Hval. destruct c as [d r c]. simpl in *. subst d r c.
  unfold product. f_equal. f_equal.
  apply tabulate_eq; [lia|]. intros o Ho.
  rewrite <- (Nat2Z.id o) at 1. apply Hval. lia.
Qed.

Lemma naive_done_product (a b : Matrix T) s :
  naive_done a b (rows a * cols b) s -> out s = product a b.
Proof.
  intros (Hr & Hc & buf & Hd & Hlen & Hval & _).
  apply product_intro with buf; assumption.
Qed.

Lemma accumulated_product (a b : Matrix T) s :
  0 < cols b -> accumulated a b (fun _ _ => cols a) s -> out s = product a b.
Proof.
  intros Hp (Hr & Hc & buf & Hd & Hlen & Hval).
  apply product_intro with buf; try assumption.
  intros o Ho.
  pose proof (Z.div_mod o (cols b)) as Hdm.
  pose proof (Z.mod_pos_bound o (cols b) Hp) as Hmod.
  assert (Hdiv : 0 <= o / cols b < rows a).
  { split; [apply Z.div_pos; lia|]. apply Z.div_lt_upper_bound; lia. }
  rewrite <- (Hval (o / cols b) (o mod cols b)) by assumption.
  f_equal. lia.
Qed.

Lemma accumulated_zeroed (a b c : Matrix T) bufc w :
  well_formed c bufc -> rows c = rows a -> cols c = cols b ->
  accumulated a b (fun _ _ => 0) {| out := zeroed c; writes := w |}.
Proof.
  intros Hc Hr Hcl.
  pose proof (wf_rows _ _ Hc) as Hrr. pose proof (wf_cols _ _ Hc) as Hcr.
  unfold zeroed. rewrite Hr, Hcl in *.
  split; [reflexivity|]. split; [reflexivity|]. simpl.
  eexists. split; [reflexivity|].
  split; [rewrite length_replicate; nia|].
  intros i j Hi Hj. apply lookup_replicate_2. nia.
Qed.

(** X1.  Where the unrolled bound [k_end - 3] and the chunk bound [p - 8] do not
    wrap (at least 3 inner terms and a tile size of at least 3; at least 8
    output columns) the three kernels return the same matrix, the product. *)
Theorem kernels_agree (fuel : nat) (a b c : Matrix T) (bufa bufb bufc : list T)
    (tile_size : Z) :
  well_formed a bufa -> well_formed b bufb -> well_formed c bufc ->
  cols a = rows b -> rows c = rows a -> cols c = cols b ->
  3 <= cols a -> 8 <= cols b -> 3 <= tile_size <= 2 ^ 62 ->
  rows a <= Z.of_nat fuel -> cols a <= Z.of_nat fuel -> cols b <= Z.of_nat fuel ->
  exists w1 w2 w3,
    matrix_mult_naive fuel (Some a) (Some b) (Some c) = Ok (Some (product a b), w1) /\
    matrix_mult_tiled fuel (Some a) (Some b) (Some c) tile_size
      = Ok (Some (product a b), w2) /\
    matrix_mult_vector fuel (Some a) (Some b) (Some c) = Ok (Some (product a b), w3).
Proof.
  intros Ha Hb Hc Hab Hr Hcl Hm3 Hp8 Hts Hn Hm Hp.
  assert (Hbytes : rows a * cols b * sizeof_double < modulus).
  { rewrite <- Hr, <- Hcl. apply (wf_bytes _ _ Hc). }
  assert (Hda : data a <> None) by (rewrite (wf_data _ _ Ha); discriminate).
  assert (Hdb : data b <> None) by (rewrite (wf_data _ _ Hb); discriminate).
  assert (Hcompat : compatible a b c = true) by (apply compatible_true; assumption).
  destruct (naive_loops_ok a b bufa bufb Ha Hb Hab fuel Hn Hm Hp {| out := c; writes := [] |})
    as (s1 & Hrun1 & Hdone); [assumption| |].
  { split; [simpl; congruence|]. split; [simpl; congruence|].
    exists bufc. simpl. split; [apply (wf_data _ _ Hc)|].
    split; [rewrite (wf_length _ _ Hc); congruence|].
    split; [intros o Ho; lia|reflexivity]. }
  destruct (tiled_loops_ok a b bufa bufb Ha Hb Hab Hbytes fuel Hn Hm Hp tile_size Hts Hm3
              {| out := zeroed c; writes := [] |}) as (s2 & Hrun2 & Hacc2); [lia| |].
  { apply accumulated_zeroed with bufc; assumption. }
  destruct (vector_loops_ok a b bufa bufb Ha Hb Hab Hbytes fuel Hn Hm Hp Hp8
              {| out := zeroed c; writes := [] |}) as (s3 & Hrun3 & Hacc3).
  { apply accumulated_zeroed with bufc; assumption. }
  exists (writes s1), (writes s2), (writes s3). split; [|split].
  - unfold matrix_mult_naive.
    rewrite (usable_wf a bufa), (usable_wf b bufb), (usable_wf c bufc) by assumption.
    rewrite Hcompat. simpl. rewrite Hrun1. simpl.
    rewrite (naive_done_product a b s1 Hdone). reflexivity.
  - rewrite (tiled_from_zero fuel a b c bufc) by assumption.
    rewrite Hrun2. simpl. rewrite (accumulated_product a b s2) by (assumption || lia).
    reflexivity.
  - rewrite (vector_from_zero fuel a b c bufc) by assumption.
    rewrite Hrun3. simpl. rewrite (accumulated_product a b s3) by (assumption || lia).
    reflexivity.
Qed.

Lemma shaped_zeroed (a b c : Matrix T) bufc w :
  well_formed c bufc -> rows c = rows a -> cols c = cols b ->
  shaped a b {| out := zeroed c; writes := w |}.
Proof.
  intros Hc Hr Hcl.
  pose proof (wf_rows _ _ Hc) as Hrr. pose proof (wf_cols _ _ Hc) as Hcr.
  unfold zeroed. rewrite Hr, Hcl in *.
  split; [reflexivity|]. split; [reflexivity|]. simpl.
  eexists. split; [reflexivity|]. rewrite length_replicate. nia.
Qed.

(** X2.  With positive extents, a tile size of 1 or 2 or an inner extent of 1 or 2
    makes the first block's [k_end - 3] wrap: the tiled kernel reads outside
    [B] and never returns a result. *)
Theorem tiled_faults_when_bound_wraps (fuel : nat) (a b c : Matrix T)
    (bufa bufb bufc : list T) (tile_size : Z) :
  well_formed a bufa -> well_formed b bufb -> well_formed c bufc ->
  cols a = rows b -> rows c = rows a -> cols c = cols b ->
  1 <= rows a -> 1 <= cols a -> 1 <= cols b ->
  1 <= tile_size <= 2 ^ 62 -> tile_size <= 2 \/ cols a <= 2 ->
  cols a < Z.of_nat fuel ->
  matrix_mult_tiled fuel (Some a) (Some b) (Some c) tile_size = Fault.
Proof.
  intros Ha Hb Hc Hab Hr Hcl Hn1 Hm1 Hp1 Hts Hsmall Hfuel.
  assert (Hda : data a <> None) by (rewrite (wf_data _ _ Ha); discriminate).
  assert (Hdb : data b <> None) by (rewrite (wf_data _ _ Hb); discriminate).
  assert (Hbytes : rows a * cols b * sizeof_double < modulus).
  { rewrite <- Hr, <- Hcl. apply (wf_bytes _ _ Hc). }
  rewrite (tiled_from_zero fuel a b c bufc)
    by (try apply compatible_true; assumption).
  rewrite (tiled_loops_faults a b bufa bufb); try assumption; [reflexivity|].
  apply shaped_zeroed with bufc; assumption.
Qed.

(** X3.  With positive extents and fewer than 8 output columns, [p - 8] wraps: the
    vector kernel runs lane groups until one leaves the output buffer, and
    never returns a result. *)
Theorem vector_faults_when_bound_wraps (fuel : nat) (a b c : Matrix T)
    (bufa bufb bufc : list T) :
  well_formed a bufa -> well_formed b bufb -> well_formed c bufc ->
  cols a = rows b -> rows c = rows a -> cols c = cols b ->
  1 <= rows a -> 1 <= cols a -> cols b < 8 ->
  rows a * cols b + 8 < Z.of_nat fuel ->
  matrix_mult_vector fuel (Some a) (Some b) (Some c) = Fault.
Proof.
  intros Ha Hb Hc Hab Hr Hcl Hn1 Hm1 Hp8 Hfuel.
  assert (Hda : data a <> None) by (rewrite (wf_data _ _ Ha); discriminate).
  assert (Hdb : data b <> None) by (rewrite (wf_data _ _ Hb); discriminate).
  assert (Hbytes : rows a * cols b * sizeof_double < modulus).
  { rewrite <- Hr, <- Hcl. apply (wf_bytes _ _ Hc). }
  rewrite (vector_from_zero fuel a b c bufc)
    by (try apply compatible_true; assumption).
  rewrite (vector_loops_faults a b bufa bufb); try assumption; [reflexivity|].
  apply shaped_zeroed with bufc; assumption.
Qed.

End Agreement.

(** ** What the kernels return, call by call *)

Section KernelReturns.

Context {T : Type} `{DoubleOps T}.

Variables (a b c : Matrix T) (bufa bufb bufc : list T) (fuel : nat).
Hypothesis Ha : well_formed a bufa.
Hypothesis Hb : well_formed b bufb.
Hypothesis Hc : well_formed c bufc.
Hypothesis Hab : cols a = rows b.
Hypothesis Hr : rows c = rows a.
Hypothesis Hcl : cols c = cols b.
Hypothesis Hn : rows a <= Z.of_nat fuel.
Hypothesis Hm : cols a <= Z.of_nat fuel.
Hypothesis Hp : cols b <= Z.of_nat fuel.

Lemma output_bytes : rows a * cols b * sizeof_double < modulus.
Proof. rewrite <- Hr, <- Hcl. apply (wf_bytes _ _ Hc). Qed.

Lemma naive_returns_product :
  exists w, matrix_mult_naive fuel (Some a) (Some b) (Some c) = Ok (Some (product a b), w).
Proof.
  destruct (naive_loops_ok a b bufa bufb Ha Hb Hab fuel Hn Hm Hp {| out := c; writes := [] |})
    as (s1 & Hrun1 & Hdone); [apply output_bytes| |].
  { split; [simpl; congruence|]. split; [simpl; congruence|].
    exists bufc. simpl. split; [apply (wf_data _ _ Hc)|].
    split; [rewrite (wf_length _ _ Hc); congruence|].
    split; [intros o Ho; lia|reflexivity]. }
  exists (writes s1). unfold matrix_mult_naive.
  rewrite (usable_wf a bufa), (usable_wf b bufb), (usable_wf c bufc) by assumption.
  rewrite (compatible_true a b c) by assumption. simpl. rewrite Hrun1. simpl.
  rewrite (naive_done_product a b s1 Hdone). reflexivity.
Qed.

Lemma inputs_present : data a <> None /\ data b <> None.
Proof.
  split; [rewrite (wf_data _ _ Ha)|rewrite (wf_data _ _ Hb)]; discriminate.
Qed.

Lemma tiled_returns_product (tile_size : Z) :
  3 <= cols a -> 1 <= cols b -> 3 <= tile_size <= 2 ^ 62 ->
  exists w, matrix_mult_tiled fuel (Some a) (Some b) (Some c) tile_size
            = Ok (Some (product a b), w).
Proof.
  intros Hm3 Hp1 Hts. destruct inputs_present as [Hda Hdb].
  destruct (tiled_loops_ok a b bufa bufb Ha Hb Hab output_bytes fuel Hn Hm Hp tile_size Hts Hm3
              {| out := zeroed c; writes := [] |}) as (s2 & Hrun2 & Hacc2); [lia| |].
  { apply accumulated_zeroed with bufc; assumption. }
  exists (writes s2).
  rewrite (tiled_from_zero fuel a b c bufc) by (try apply compatible_true; assumption).
  rewrite Hrun2. simpl. rewrite (accumulated_product a b s2) by (assumption || lia).
  reflexivity.
Qed.

Lemma vector_returns_product :
  8 <= cols b ->
  exists w, matrix_mult_vector fuel (Some a) (Some b) (Some c) = Ok (Some (product a b), w).
Proof.
  intros Hp8. destruct inputs_present as [Hda Hdb].
  destruct (vector_loops_ok a b bufa bufb Ha Hb Hab output_bytes fuel Hn Hm Hp Hp8
              {| out := zeroed c; writes := [] |}) as (s3 & Hrun3 & Hacc3).
  { apply accumulated_zeroed with bufc; assumption. }
  exists (writes s3).
  rewrite (vector_from_zero fuel a b c bufc) by (try apply compatible_true; assumption).
  rewrite Hrun3. simpl. rewrite (accumulated_product a b s3) by (assumption || lia).
  reflexivity.
Qed.

Lemma tiled_returns_fault (tile_size : Z) :
  1 <= rows a -> 1 <= cols a -> 1 <= cols b ->
  1 <= tile_size <= 2 ^ 62 -> tile_size <= 2 \/ cols a <= 2 ->
  cols a < Z.of_nat fuel ->
  matrix_mult_tiled fuel (Some a) (Some b) (Some c) tile_size = Fault.
Proof.
  intros Hn1 Hm1 Hp1 Hts Hsmall Hfuel. destruct inputs_present as [Hda Hdb].
  rewrite (tiled_from_zero fuel a b c bufc) by (try apply compatible_true; assumption).
  rewrite (tiled_loops_faults a b bufa bufb); try assumption;
    [reflexivity|apply output_bytes|].
  apply shaped_zeroed with bufc; assumption.
Qed.

Lemma vector_returns_fault :
  1 <= rows a -> 1 <= cols a -> cols b < 8 ->
  rows a * cols b + 8 < Z.of_nat fuel ->
  matrix_mult_vector fuel (Some a) (Some b) (Some c) = Fault.
Proof.
  intros Hn1 Hm1 Hp8 Hfuel. destruct inputs_present as [Hda Hdb].
  rewrite (vector_from_zero fuel a b c bufc) by (try apply compatible_true; assumption).
  rewrite (vector_loops_faults a b bufa bufb); try assumption;
    [reflexivity|apply output_bytes|].
  apply shaped_zeroed with bufc; assumption.
Qed.

End KernelReturns.

(** ** The accumulating kernels do not depend on what the output held *)

Section Independence.

Context {T : Type} `{DoubleOps T}.

(** The output as the kernels leave it before their loops: the extents of the
    product and every element [0.0]. *)
Definition blank (a b : Matrix T) : store T :=
  {| out := {| data := Some (replicate (Z.to_nat (rows a * cols b)) d_zero);
                rows := rows a; cols := cols b |};
     writes := [] |}.

(** C10.  Past the null and dimension checks the tiled and the vector kernel
    clear the output themselves: each call is its loop nest run on the
    all-zero matrix of the product's extents, so two calls that differ only in
    what the output held have the same outcome, log included.  Where the
    loops stay inside the buffers (the tiled kernel with an inner extent and
    a tile size of at least 3, the vector kernel with at least 8 output
    columns) both calls return, and what they return is the product of [A]
    and [B]. *)
Theorem output_independent_of_prior_contents (fuel : nat) (a b c1 c2 : Matrix T)
    (bufa bufb buf1 buf2 : list T) (tile_size : Z) :
  well_formed a bufa -> well_formed b bufb ->
  well_formed c1 buf1 -> well_formed c2 buf2 ->
  cols a = rows b ->
  rows c1 = rows a -> cols c1 = cols b -> rows c2 = rows a -> cols c2 = cols b ->
  (matrix_mult_tiled fuel (Some a) (Some b) (Some c1) tile_size
     = (let* s := tiled_loops fuel a b tile_size (blank a b) in Ok (Some (out s), writes s)) /\
   matrix_mult_tiled fuel (Some a) (Some b) (Some c2) tile_size
     = matrix_mult_tiled fuel (Some a) (Some b) (Some c1) tile_size) /\
  (matrix_mult_vector fuel (Some a) (Some b) (Some c1)
     = (let* s := vector_loops fuel a b (blank a b) in Ok (Some (out s), writes s)) /\
   matrix_mult_vector fuel (Some a) (Some b) (Some c2)
     = matrix_mult_vector fuel (Some a) (Some b) (Some c1)) /\
  (rows a <= Z.of_nat fuel -> cols a <= Z.of_nat fuel -> cols b <= Z.of_nat fuel ->
   (3 <= cols a -> 1 <= cols b -> 3 <= tile_size <= 2 ^ 62 ->
    exists w,
      matrix_mult_tiled fuel (Some a) (Some b) (Some c1) tile_size
        = Ok (Some (product a b), w) /\
      matrix_mult_tiled fuel (Some a) (Some b) (Some c2) tile_size
        = Ok (Some (product a b), w)) /\
   (8 <= cols b ->
    exists w,
      matrix_mult_vector fuel (Some a) (Some b) (Some c1) = Ok (Some (product a b), w) /\
      matrix_mult_vector fuel (Some a) (Some b) (Some c2) = Ok (Some (product a b), w))).
Proof.
  intros Ha Hb Hc1 Hc2 Hab Hr1 Hcl1 Hr2 Hcl2.
  destruct (inputs_present a b bufa bufb Ha Hb) as [Hda Hdb].
  assert (Hz : forall c, rows c = rows a -> cols c = cols b ->
            {| out := zeroed c; writes := [] |} = blank a b).
  { intros c Hr Hcl. unfold blank, zeroed. rewrite Hr, Hcl. reflexivity. }
  assert (Ht : forall c bufc, well_formed c bufc -> rows c = rows a -> cols c = cols b ->
            matrix_mult_tiled fuel (Some a) (Some b) (Some c) tile_size
            = (let* s := tiled_loops fuel a b tile_size (blank a b) in
               Ok (Some (out s), writes s))).
  { intros c bufc Hc Hr Hcl.
    rewrite (tiled_from_zero fuel a b c bufc) by (try apply compatible_true; assumption).
    rewrite (Hz c Hr Hcl). reflexivity. }
  assert (Hv : forall c bufc, well_formed c bufc -> rows c = rows a -> cols c = cols b ->
            matrix_mult_vector fuel (Some a) (Some b) (Some c)
            = (let* s := vector_loops fuel a b (blank a b) in
               Ok (Some (out s), writes s))).
  { intros c bufc Hc Hr Hcl.
    rewrite (vector_from_zero fuel a b c bufc) by (try apply compatible_true; assumption).
    rewrite (Hz c Hr Hcl). reflexivity. }
  split; [|split].
  - split; [apply (Ht c1 buf1); assumption|].
    rewrite (Ht c1 buf1), (Ht c2 buf2) by assumption. reflexivity.
  - split; [apply (Hv c1 buf1); assumption|].
    rewrite (Hv c1 buf1), (Hv c2 buf2) by assumption. reflexivity.
  - intros Hn Hm Hp. split.
    + intros Hm3 Hp1 Hts.
      destruct (tiled_returns_product a b c1 bufa bufb buf1 fuel Ha Hb Hc1 Hab Hr1 Hcl1
                  Hn Hm Hp tile_size Hm3 Hp1 Hts) as (w & Hrun).
      exists w. split; [assumption|].
      rewrite (Ht c2 buf2), <- (Ht c1 buf1) by assumption. assumption.
    + intros Hp8.
      destruct (vector_returns_product a b c1 bufa bufb buf1 fuel Ha Hb Hc1 Hab Hr1 Hcl1
                  Hn Hm Hp Hp8) as (w & Hrun).
      exists w. split; [assumption|].
      rewrite (Hv c2 buf2), <- (Hv c1 buf1) by assumption. assumption.
Qed.

End Independence.

(** ** Concrete runs *)

Ltac decide_concrete :=
  vm_compute; solve [reflexivity | discriminate | split; [discriminate | reflexivity]].

Ltac wf_concrete := constructor; decide_concrete.

Ltac side_concrete := first [decide_concrete | wf_concrete].

Definition A22m : Matrix Q := mkQ 2 2 [1; 2; 3; 4].
Definition B22m : Matrix Q := mkQ 2 2 [5; 6; 7; 8].
Definition stale22 : Matrix Q := mkQ 2 2 [9; 9; 9; 9].

Example naive_2x2 :
  matrix_mult_naive 2 A22 B22 (Some stale22)
  = Ok (Some (mkQ 2 2 [19; 22; 43; 50]), [0; 1; 2; 3]).
Proof. vm_compute. reflexivity. Qed.

Lemma naive_assigns_product_2x2 :
  exists c' w,
    matrix_mult_naive 2 (Some A22m) (Some B22m) (Some stale22) = Ok (Some c', w) /\
    rows c' = rows stale22 /\ cols c' = cols stale22 /\
    length w = Z.to_nat (rows A22m * cols B22m) /\
    forall i j, 0 <= i < rows A22m -> 0 <= j < cols B22m ->
      entry c' i j = dot A22m B22m i j (cols A22m) /\
      stores_to (i * cols B22m + j) w = 1%nat.
Proof.
  apply (naive_assigns_product 2 A22m B22m stale22
           (map inject_Z [1; 2; 3; 4]) (map inject_Z [5; 6; 7; 8])
           (map inject_Z [9; 9; 9; 9]));
    side_concrete.
Defined.

Definition A34 : Matrix Q := mkQ 3 4 [1; 2; 3; 4; 5; 6; 7; 8; 9; 10; 11; 12].
Definition B56 : Matrix Q := mkQ 5 6 (replicate 30 1).
Definition C36 : Matrix Q := mkQ 3 6 (replicate 18 0).

Lemma mismatch_is_noop_3x4_5x6 :
  matrix_mult_naive 8 (Some A34) (Some B56) (Some C36) = Ok (Some C36, []) /\
  matrix_mult_tiled 8 (Some A34) (Some B56) (Some C36) 4 = Ok (Some C36, []) /\
  matrix_mult_vector 8 (Some A34) (Some B56) (Some C36) = Ok (Some C36, []).
Proof.
  apply (mismatch_is_noop 8 A34 B56 C36 4). left. simpl. lia.
Defined.


Definition blank64 (x : Q) : Matrix Q :=
  {| data := Some (replicate 4096 x); rows := 64; cols := 64 |}.

Lemma init_random_seed42_64x64 :
  let filled := {| data := Some (draw (-1)%Q 1%Q 42 <$> seq 0 (Z.to_nat (64 * 64)));
                   rows := 64; cols := 64 |} in
  let g := lcg_state 42 (Z.to_nat (64 * 64)) in
  matrix_init_random 4096 (Some (blank64 0)) (-1)%Q 1%Q (seed_random 42 1)
    = Ok (Some filled, g) /\
  matrix_init_random 4096 (Some (blank64 (7 # 3))) (-1)%Q 1%Q (seed_random 42 777)
    = Ok (Some filled, g).
Proof.
  apply (init_random_deterministic 4096 42 (-1)%Q 1%Q (blank64 0) (blank64 (7 # 3))
           (replicate 4096 0%Q) (replicate 4096 (7 # 3)%Q) 1 777);
    side_concrete.
Defined.

Example init_random_seed42_2x2 :
  matrix_init_random 4 (Some stale22) (-1)%Q 1%Q (seed_random 42 1)
  = Ok (Some {| data := Some [(353508407 # 2147483647)%Q; (85120881 # 2147483647)%Q;
                              (-146130141 # 2147483647)%Q; (1189865965 # 2147483647)%Q];
                rows := 2; cols := 2 |},
        3816158454).
Proof. vm_compute. reflexivity. Qed.

Definition near22 : Matrix Q := mkQ 2 2 [1; 2; 3; 5].

Lemma matrix_verify_spec_2x2 :
  (forall A B, usable A = false \/ usable B = false ->
     matrix_verify 4 A B 1%Q = Ok false) /\
  (rows A22m <> rows near22 \/ cols A22m <> cols near22 ->
     matrix_verify 4 (Some A22m) (Some near22) 1%Q = Ok false) /\
  (exists r, matrix_verify 4 (Some A22m) (Some near22) 1%Q = Ok r /\
     (r = true <->
      forall (o : nat) x y,
        map inject_Z [1; 2; 3; 4] !! o = Some x -> map inject_Z [1; 2; 3; 5] !! o = Some y ->
        d_gt (d_fabs (d_sub x y)) 1%Q = false) /\
     (r = true <->
      forall (o : nat) x y,
        map inject_Z [1; 2; 3; 4] !! o = Some x -> map inject_Z [1; 2; 3; 5] !! o = Some y ->
        d_le (d_fabs (d_sub x y)) 1%Q)) /\
  matrix_verify 4 (Some A22m) (Some A22m) d_zero = Ok true.
Proof.
  assert (Ha : well_formed A22m (map inject_Z [1; 2; 3; 4])) by wf_concrete.
  assert (Hb : well_formed near22 (map inject_Z [1; 2; 3; 5])) by wf_concrete.
  assert (Hfuel : rows A22m * cols A22m <= Z.of_nat 4) by decide_concrete.
  destruct (matrix_verify_spec 4 A22m near22 (map inject_Z [1; 2; 3; 4])
              (map inject_Z [1; 2; 3; 5]) 1%Q Ha Hb Hfuel) as (Hnull & Hdims & Hcmp & Hself).
  split; [exact Hnull|]. split; [exact Hdims|]. split.
  - destruct (Hcmp eq_refl eq_refl) as (r & Hrun & Hgt & Hle).
    exists r. split; [exact Hrun|]. split; [exact Hgt|]. apply Hle. exact Q_gt_le.
  - apply Hself. exact Q_self_zero.
Defined.

Example matrix_verify_runs :
  matrix_verify 4 (Some A22m) (Some near22) 1%Q = Ok true /\
  matrix_verify 4 (Some A22m) (Some near22) (1 # 2)%Q = Ok false /\
  matrix_verify 4 (Some A22m) (Some A34) 1%Q = Ok false /\
  matrix_verify 4 None (Some A22m) 1%Q = Ok false.
Proof. repeat split; vm_compute; reflexivity. Qed.

(** C7, the claim as written fails on doubles: a NaN element gives a NaN
    difference, which is not greater than the tolerance, so the pair passes
    although the difference is not at most the tolerance. *)
Section Binary64Verify.

#[local] Existing Instance Binary64Ops.

Definition nan64 : float := PrimFloat.div PrimFloat.zero PrimFloat.zero.

Definition only_nan : Matrix float := {| data := Some [nan64]; rows := 1; cols := 1 |}.
Definition only_zero : Matrix float := {| data := Some [d_zero]; rows := 1; cols := 1 |}.

Lemma matrix_verify_accepts_nan :
  matrix_verify 1 (Some only_nan) (Some only_zero) d_zero = Ok true /\
  ~ d_le (d_fabs (d_sub nan64 d_zero)) d_zero.
Proof. split; [vm_compute; reflexivity|]. vm_compute. discriminate. Qed.

End Binary64Verify.

Definition A13 : Matrix Q := mkQ 1 3 [1; 2; 3].
Definition B38 : Matrix Q :=
  mkQ 3 8 [1; 2; 3; 4; 5; 6; 7; 8; 1; 2; 3; 4; 5; 6; 7; 8; 1; 2; 3; 4; 5; 6; 7; 8].
Definition C18 : Matrix Q := mkQ 1 8 [0; 0; 0; 0; 0; 0; 0; 0].
Definition stale18 : Matrix Q := mkQ 1 8 [9; 8; 7; 6; 5; 4; 3; 2].

Lemma output_independent_1x3x8 :
  (matrix_mult_tiled 8 (Some A13) (Some B38) (Some C18) 3
     = (let* s := tiled_loops 8 A13 B38 3 (blank A13 B38) in Ok (Some (out s), writes s)) /\
   matrix_mult_tiled 8 (Some A13) (Some B38) (Some stale18) 3
     = matrix_mult_tiled 8 (Some A13) (Some B38) (Some C18) 3) /\
  (matrix_mult_vector 8 (Some A13) (Some B38) (Some C18)
     = (let* s := vector_loops 8 A13 B38 (blank A13 B38) in Ok (Some (out s), writes s)) /\
   matrix_mult_vector 8 (Some A13) (Some B38) (Some stale18)
     = matrix_mult_vector 8 (Some A13) (Some B38) (Some C18)) /\
  (exists w,
     matrix_mult_tiled 8 (Some A13) (Some B38) (Some C18) 3
       = Ok (Some (product A13 B38), w) /\
     matrix_mult_tiled 8 (Some A13) (Some B38) (Some stale18) 3
       = Ok (Some (product A13 B38), w)) /\
  (exists w,
     matrix_mult_vector 8 (Some A13) (Some B38) (Some C18) = Ok (Some (product A13 B38), w) /\
     matrix_mult_vector 8 (Some A13) (Some B38) (Some stale18)
       = Ok (Some (product A13 B38), w)).
Proof.
  destruct (output_independent_of_prior_contents 8 A13 B38 C18 stale18
              (map inject_Z [1; 2; 3])
              (map inject_Z [1; 2; 3; 4; 5; 6; 7; 8; 1; 2; 3; 4; 5; 6; 7; 8;
                             1; 2; 3; 4; 5; 6; 7; 8])
              (map inject_Z [0; 0; 0; 0; 0; 0; 0; 0]) (map inject_Z [9; 8; 7; 6; 5; 4; 3; 2]) 3)
    as (Ht & Hv & Hret); try side_concrete.
  destruct Hret as [Hrt Hrv]; try decide_concrete.
  split; [exact Ht|]. split; [exact Hv|]. split.
  - apply Hrt; first [decide_concrete | simpl; lia].
  - apply Hrv; decide_concrete.
Defined.

Example accumulating_kernels_1x3x8 :
  matrix_mult_tiled 8 (Some A13) (Some B38) (Some stale18) 3
    = Ok (Some (mkQ 1 8 [6; 12; 18; 24; 30; 36; 42; 48]), [0; 1; 2; 3; 4; 5; 6; 7]) /\
  fst <$> (match matrix_mult_vector 8 (Some A13) (Some B38) (Some stale18) with
           | Ok r => Some r | _ => None end)
    = Some (Some (mkQ 1 8 [6; 12; 18; 24; 30; 36; 42; 48])).
Proof. split; vm_compute; reflexivity. Qed.

Example kernels_agree_1x3x8 :
  exists w1 w2 w3,
    matrix_mult_naive 8 (Some A13) (Some B38) (Some stale18) = Ok (Some (product A13 B38), w1) /\
    matrix_mult_tiled 8 (Some A13) (Some B38) (Some stale18) 3
      = Ok (Some (product A13 B38), w2) /\
    matrix_mult_vector 8 (Some A13) (Some B38) (Some stale18) = Ok (Some (product A13 B38), w3).
Proof.
  apply (kernels_agree 8 A13 B38 stale18
           (map inject_Z [1; 2; 3])
           (map inject_Z [1; 2; 3; 4; 5; 6; 7; 8; 1; 2; 3; 4; 5; 6; 7; 8; 1; 2; 3; 4; 5; 6; 7; 8])
           (map inject_Z [9; 8; 7; 6; 5; 4; 3; 2]) 3);
    side_concrete.
Defined.

Example tiled_faults_2x2_tile_2 :
  matrix_mult_tiled 3 (Some A22m) (Some B22m) (Some stale22) 2 = Fault.
Proof.
  apply (tiled_faults_when_bound_wraps 3 A22m B22m stale22
           (map inject_Z [1; 2; 3; 4]) (map inject_Z [5; 6; 7; 8])
           (map inject_Z [9; 9; 9; 9]) 2);
    first [side_concrete | left; lia | simpl; lia].
Defined.

Example vector_faults_2x2 :
  matrix_mult_vector 13 (Some A22m) (Some B22m) (Some stale22) = Fault.
Proof.
  apply (vector_faults_when_bound_wraps 13 A22m B22m stale22
           (map inject_Z [1; 2; 3; 4]) (map inject_Z [5; 6; 7; 8])
           (map inject_Z [9; 9; 9; 9]));
    first [side_concrete | simpl; lia].
Defined.

(** C3, C1, C4: the blocked and the lane-chunked kernel on small extents.

    In [matrix_mult_tiled] the bound of the unrolled loop is [k_end - 3] in
    [size_t]; with [k_end < 3] it wraps to nearly [2^64], the unrolled body runs
    and reads row 2 of a two-row [B].  In [matrix_mult_vector] the bound of the
    chunk loop is [p - VECTOR_LENGTH] in [size_t]; with [p < 8] it wraps and the
    lane loop runs past the end of the output. *)

(** C3.  On the 2x2 scenario the tiled kernel reads outside [B], with tile
    size 1 and with tile size 2, whatever fuel it is given; the product
    [[19,22],[43,50]] is what the naive kernel returns. *)
Theorem tiled_2x2_out_of_bounds (fuel : nat) :
  matrix_mult_tiled (S fuel) A22 B22 C22 1 = Fault /\
  matrix_mult_tiled (S fuel) A22 B22 C22 2 = Fault /\
  matrix_mult_naive 2 A22 B22 C22 = Ok (Some (mkQ 2 2 [19; 22; 43; 50]), [0; 1; 2; 3]).
Proof. repeat split; vm_compute; reflexivity. Qed.

Definition A11 : handle Q := Some (mkQ 1 1 [2]).
Definition B11 : handle Q := Some (mkQ 1 1 [3]).
Definition C11 : handle Q := Some (mkQ 1 1 [0]).
Definition B17 : handle Q := Some (mkQ 1 7 [1; 2; 3; 4; 5; 6; 7]).
Definition C17 : handle Q := Some (mkQ 1 7 [0; 0; 0; 0; 0; 0; 0]).

(** C4.  With fewer than 8 output columns the vector kernel runs a full lane
    group all the same and stores past the end of the output buffer. *)
Theorem vector_narrow_out_of_bounds (fuel : nat) :
  matrix_mult_vector (8 + fuel) A11 B11 C11 = Fault /\
  matrix_mult_vector (8 + fuel) A11 B17 C17 = Fault /\
  matrix_mult_vector (8 + fuel) A22 B22 C22 = Fault.
Proof. repeat split; vm_compute; reflexivity. Qed.

(** C1.  At extents 2, 2, 2 and tile size 1, inside the claimed ranges, the
    naive kernel returns the product while the other two fault. *)
Theorem kernels_differ_2x2 (fuel : nat) :
  matrix_mult_naive 2 A22 B22 C22
    = Ok (Some (mkQ 2 2 [19; 22; 43; 50]), [0; 1; 2; 3]) /\
  matrix_mult_tiled (8 + fuel) A22 B22 C22 1 = Fault /\
  matrix_mult_vector (8 + fuel) A22 B22 C22 = Fault.
Proof. repeat split; vm_compute; reflexivity. Qed.

(** * Further routines of the cited files *)

(** ** matrix_tiled.c and matrix_vector.c: the alternative kernels *)

Section MoreKernels.

Context {T : Type} `{DoubleOps T}.

(** *** matrix_tiled.c: [matrix_mult_tiled_optimized]

    Blocks in i-k-j order; inside a block the innermost statement is
    [MATRIX_SET(C, i, j, MATRIX_GET(C, i, j) + a_ik * MATRIX_GET(B, k, j))],
    the statement [lane] of the vector kernel. *)

Definition tiled_optimized_loops (fuel : nat) (a b : Matrix T) (tile_size : Z)
    (s : store T) : outcome (store T) :=
  let n := rows a in
  let m := cols a in
  let p := cols b in
  let* (_, s) := for_loop fuel (fun ii => ii <? n) (fun ii => wadd ii tile_size) (fun ii s =>
    let* (_, s) := for_loop fuel (fun kk => kk <? m) (fun kk => wadd kk tile_size) (fun kk s =>
      let* (_, s) := for_loop fuel (fun jj => jj <? p) (fun jj => wadd jj tile_size) (fun jj s =>
        let i_end := tile_end ii tile_size n in
        let k_end := tile_end kk tile_size m in
        let j_end := tile_end jj tile_size p in
        let* (_, s) := for_loop fuel (fun i => i <? i_end) incr (fun i s =>
          let* (_, s) := for_loop fuel (fun k => k <? k_end) incr (fun k s =>
            let* a_ik := MATRIX_GET a i k in
            let* (_, s) := for_loop fuel (fun j => j <? j_end) incr (fun j s =>
              lane b i k j a_ik s) jj s in
            Ok s) kk s in
          Ok s) ii s in
        Ok s) 0 s in
      Ok s) 0 s in
    Ok s) 0 s in
  Ok s.

Definition matrix_mult_tiled_optimized (fuel : nat) (A B C : handle T) (tile_size : Z)
    : outcome (handle T * list Z) :=
  match A, B, C with
  | Some a, Some b, Some c =>
      if negb (usable A && usable B && usable C) then Ok (C, [])
      else if negb (compatible a b c) then Ok (C, [])
      else
        let* s := init_zero_out {| out := c; writes := [] |} in
        let* s := tiled_optimized_loops fuel a b tile_size s in
        Ok (Some (out s), writes s)
  | _, _, _ => Ok (C, [])
  end.

(** *** matrix_vector.c: [matrix_mult_vector_optimized] *)

Definition vector_tile_size : Z := 64.

Definition vector_optimized_loops (fuel : nat) (a b : Matrix T) (s : store T)
    : outcome (store T) :=
  let n := rows a in
  let m := cols a in
  let p := cols b in
  let tile_size := vector_tile_size in
  let* (_, s) := for_loop fuel (fun ii => ii <? n) (fun ii => wadd ii tile_size) (fun ii s =>
    let* (_, s) := for_loop fuel (fun kk => kk <? m) (fun kk => wadd kk tile_size) (fun kk s =>
      let* (_, s) := for_loop fuel (fun jj => jj <? p) (fun jj => wadd jj tile_size) (fun jj s =>
        let i_end := tile_end ii tile_size n in
        let k_end := tile_end kk tile_size m in
        let j_end := tile_end jj tile_size p in
        let* (_, s) := for_loop fuel (fun i => i <? i_end) incr (fun i s =>
          let* (_, s) := for_loop fuel (fun k => k <? k_end) incr (fun k s =>
            let* a_ik := MATRIX_GET a i k in
            let* (j, s) :=
              for_loop fuel (fun j => j <=? wsub j_end VECTOR_LENGTH)
                (fun j => wadd j VECTOR_LENGTH)
                (fun j s =>
                  let* (_, s) := for_loop fuel (fun vj => vj <? VECTOR_LENGTH) incr
                    (fun vj s => lane b i k (wadd j vj) a_ik s) 0 s in
                  Ok s) jj s in
            let* (_, s) := for_loop fuel (fun j => j <? j_end) incr (fun j s =>
              lane b i k j a_ik s) j s in
            Ok s) kk s in
          Ok s) ii s in
        Ok s) 0 s in
      Ok s) 0 s in
    Ok s) 0 s in
  Ok s.

Definition matrix_mult_vector_optimized (fuel : nat) (A B C : handle T)
    : outcome (handle T * list Z) :=
  match A, B, C with
  | Some a, Some b, Some c =>
      if negb (usable A && usable B && usable C) then Ok (C, [])
      else if negb (compatible a b c) then Ok (C, [])
      else
        let* s := init_zero_out {| out := c; writes := [] |} in
        let* s := vector_optimized_loops fuel a b s in
        Ok (Some (out s), writes s)
  | _, _, _ => Ok (C, [])
  end.

End MoreKernels.

Example optimized_kernels_2x2 :
  matrix_mult_tiled_optimized 8 A22 B22 C22 1
    = Ok (Some (mkQ 2 2 [19; 22; 43; 50]), [0; 1; 0; 1; 2; 3; 2; 3]) /\
  matrix_mult_vector_optimized 8 A22 B22 C22 = Fault.
Proof. split; vm_compute; reflexivity. Qed.

Section MoreKernelProofs.

Context {T : Type} `{DoubleOps T}.

Variables (a b : Matrix T) (bufa bufb : list T).
Hypothesis Ha : well_formed a bufa.
Hypothesis Hb : well_formed b bufb.
Hypothesis Hab : cols a = rows b.

Local Abbreviation n := (rows a).
Local Abbreviation m := (cols a).
Local Abbreviation p := (cols b).

Hypothesis Hbytes : n * p * sizeof_double < modulus.
Hypothesis Hm1 : 1 <= m.
Hypothesis Hp1 : 1 <= p.

Variable fuel : nat.
Hypothesis Hfuel_n : n <= Z.of_nat fuel.
Hypothesis Hfuel_m : m <= Z.of_nat fuel.
Hypothesis Hfuel_p : p <= Z.of_nat fuel.

Lemma extents_positive : 0 <= n <= 2 ^ 61 /\ m <= 2 ^ 61 /\ p <= 2 ^ 61.
Proof.
  pose proof (wf_bytes _ _ Ha) as Hba. pose proof (wf_bytes _ _ Hb) as Hbb.
  pose proof (wf_rows _ _ Ha) as Hn.
  unfold sizeof_double in *. rewrite modulus_eq in *. rewrite <- Hab in Hbb.
  repeat split; nia.
Qed.

Lemma lane_step K s i k j :
  accumulated a b K s -> 0 <= i < n -> 0 <= k < m -> 0 <= j < p -> K i j = k ->
  exists s', lane b i k j (entry a i k) s = Ok s' /\
             accumulated a b (paint i (i + 1) j (j + 1) (k + 1) K) s'.
Proof.
  intros Hacc Hi Hk Hj HK.
  apply (lane_ok a b bufb Hb Hab Hbytes fuel Hfuel_n Hfuel_p K s i k j); assumption.
Qed.

(** The scalar pass over columns [j0 .. j_end) of row [i] at depth [k]. *)
Lemma segment_ok K s i k jj j0 j_end :
  accumulated a b (paint i (i + 1) jj j0 (k + 1) K) s ->
  0 <= i < n -> 0 <= k < m -> 0 <= jj <= j0 -> j0 <= j_end <= p ->
  (forall j, jj <= j < j_end -> K i j = k) ->
  exists s',
    for_loop fuel (fun j => j <? j_end) incr (fun j s => lane b i k j (entry a i k) s) j0 s
      = Ok (j_end, s') /\
    accumulated a b (paint i (i + 1) jj j_end (k + 1) K) s'.
Proof.
  intros Hacc Hi Hk Hjj Hje HK. pose proof (wf_cols _ _ Hb) as Hpr.
  loop_rule (fun j s => j0 <= j <= j_end /\
               accumulated a b (paint i (i + 1) jj j (k + 1) K) s)
            (fun j => Z.to_nat (j_end - j)).
  - split; [lia|assumption].
  - lia.
  - intros j s0 [Hj Hacc0] Hc. apply Z.ltb_lt in Hc.
    destruct (lane_step _ s0 i k j Hacc0) as (s1 & Hrun & Hacc1); try lia.
    { rewrite <- (HK j) by lia. box_cases. }
    exists s1. split; [assumption|]. rewrite incr_small by lia.
    split; [|lia]. split; [lia|].
    eapply accumulated_ext; [|exact Hacc1]. intros i' j' _ _. box_cases.
  - intros j' s' [Hj' Hacc'] Hc. apply Z.ltb_ge in Hc.
    assert (j' = j_end) as -> by lia. exists s'. split; [reflexivity|assumption].
Qed.

(** The lane-chunked pass over the same columns, when [j_end - 8] does not wrap. *)
Lemma chunks_ok K s i k jj j_end :
  accumulated a b K s -> 0 <= i < n -> 0 <= k < m -> 0 <= jj <= j_end -> 8 <= j_end <= p ->
  (forall j, jj <= j < j_end -> K i j = k) ->
  exists j s',
    for_loop fuel (fun j => j <=? wsub j_end VECTOR_LENGTH) (fun j => wadd j VECTOR_LENGTH)
      (fun j s =>
         let* (_, s) := for_loop fuel (fun vj => vj <? VECTOR_LENGTH) incr
           (fun vj s => lane b i k (wadd j vj) (entry a i k) s) 0 s in
         Ok s) jj s
      = Ok (j, s') /\
    jj <= j <= j_end /\
    accumulated a b (paint i (i + 1) jj j (k + 1) K) s'.
Proof.
  intros Hacc Hi Hk Hjj Hje HK. pose proof (wf_cols _ _ Hb) as Hpr.
  change VECTOR_LENGTH with 8.
  assert (Hbound : wsub j_end 8 = j_end - 8).
  { unfold wsub. apply wrap_small. lia. }
  rewrite Hbound.
  loop_rule (fun j s => jj <= j <= j_end /\
               accumulated a b (paint i (i + 1) jj j (k + 1) K) s)
            (fun j => Z.to_nat (j_end - j)).
  - split; [lia|]. apply (accumulated_ext a b K); [|assumption].
    intros i' j' _ _. box_cases.
  - lia.
  - intros j s0 [Hj Hacc0] Hc. apply Z.leb_le in Hc.
    destruct (vector_lanes_ok a b bufb Hb Hab Hbytes fuel Hfuel_n Hfuel_p _ s0 i k j Hacc0)
      as (s1 & Hrun & Hacc1); try lia.
    { intros j' Hj'. rewrite <- (HK j') by lia. box_cases. }
    unfold vector_lanes in Hrun. change VECTOR_LENGTH with 8 in Hrun.
    rewrite Hrun. cbn [obind]. exists s1. split; [reflexivity|].
    unfold wadd. rewrite wrap_small by lia.
    split; [|lia]. split; [lia|].
    eapply accumulated_ext; [|exact Hacc1]. intros i' j' _ _. box_cases.
  - intros j' s' [Hj' Hacc'] _. exists j', s'. split; [reflexivity|]. split; assumption.
Qed.

(** *** The block nest shared by the two kernels

    [pass i k jj j_end] stands for what either kernel does for one [(i, k)]
    inside a block: read [a_ik] and sweep columns [jj .. j_end). *)

Section Nest.

Variable tile_size : Z.
Hypothesis Hts : 1 <= tile_size <= 2 ^ 62.

Variable pass : Z -> Z -> Z -> Z -> store T -> outcome (store T).
Hypothesis Hpass : forall K s i k jj j_end,
  accumulated a b K s -> 0 <= i < n -> 0 <= k < m ->
  0 <= jj <= j_end -> Z.min tile_size p <= j_end <= p ->
  (forall j, jj <= j < j_end -> K i j = k) ->
  exists s', pass i k jj j_end s = Ok s' /\
             accumulated a b (paint i (i + 1) jj j_end (k + 1) K) s'.

Definition nest_depth (i jj j_end kk k_end : Z) (s : store T) : outcome (Z * store T) :=
  for_loop fuel (fun k => k <? k_end) incr (fun k s => pass i k jj j_end s) kk s.

Definition nest_block (ii i_end jj j_end kk k_end : Z) (s : store T)
    : outcome (Z * store T) :=
  for_loop fuel (fun i => i <? i_end) incr (fun i s =>
    let* (_, s) := nest_depth i jj j_end kk k_end s in Ok s) ii s.

Definition nest_columns (ii kk : Z) (s : store T) : outcome (Z * store T) :=
  for_loop fuel (fun jj => jj <? p) (fun jj => wadd jj tile_size) (fun jj s =>
    let* (_, s) := nest_block ii (tile_end ii tile_size n) jj (tile_end jj tile_size p)
                     kk (tile_end kk tile_size m) s in Ok s) 0 s.

Definition nest_band (ii : Z) (s : store T) : outcome (Z * store T) :=
  for_loop fuel (fun kk => kk <? m) (fun kk => wadd kk tile_size) (fun kk s =>
    let* (_, s) := nest_columns ii kk s in Ok s) 0 s.

Definition nest (s : store T) : outcome (store T) :=
  let* (_, s) := for_loop fuel (fun ii => ii <? n) (fun ii => wadd ii tile_size)
                   (fun ii s => let* (_, s) := nest_band ii s in Ok s) 0 s in
  Ok s.

Lemma tile_end_is_min x bound :
  0 <= x <= 2 ^ 62 -> tile_end x tile_size bound = Z.min (x + tile_size) bound.
Proof.
  intros Hx. unfold tile_end, wadd.
  rewrite wrap_small by (rewrite modulus_eq; lia).
  destruct (Z.ltb_spec (x + tile_size) bound); lia.
Qed.

Lemma nest_depth_ok K s i jj j_end kk k_end :
  accumulated a b K s -> 0 <= i < n -> 0 <= jj <= j_end -> Z.min tile_size p <= j_end <= p ->
  0 <= kk <= k_end -> k_end <= m ->
  (forall j, jj <= j < j_end -> K i j = kk) ->
  exists s', nest_depth i jj j_end kk k_end s = Ok (k_end, s') /\
             accumulated a b (paint i (i + 1) jj j_end k_end K) s'.
Proof.
  intros Hacc Hi Hjj Hje Hkk Hke HK. pose proof (wf_cols _ _ Ha) as Hmr.
  unfold nest_depth.
  loop_rule (fun k s => kk <= k <= k_end /\
               accumulated a b (paint i (i + 1) jj j_end k K) s)
            (fun k => Z.to_nat (k_end - k)).
  - split; [lia|]. apply (accumulated_ext a b K); [|assumption].
    intros i' j' _ _. unfold paint. destruct (in_box i (i + 1) jj j_end i' j') eqn:Hbox.
    + unfold in_box in Hbox. assert (i' = i) as -> by lia. rewrite HK by lia. reflexivity.
    + reflexivity.
  - lia.
  - intros k s0 [Hk Hacc0] Hc. apply Z.ltb_lt in Hc.
    destruct (Hpass _ s0 i k jj j_end Hacc0) as (s1 & Hrun & Hacc1); try lia.
    { intros j Hj. box_cases. }
    exists s1. split; [assumption|]. rewrite incr_small by lia.
    split; [|lia]. split; [lia|].
    eapply accumulated_ext; [|exact Hacc1]. intros i' j' _ _. box_cases.
  - intros k' s' [Hk' Hacc'] Hc. apply Z.ltb_ge in Hc.
    assert (k' = k_end) as -> by lia. exists s'. split; [reflexivity|assumption].
Qed.

Lemma nest_block_ok K s ii i_end jj j_end kk k_end :
  accumulated a b K s -> 0 <= ii <= i_end -> i_end <= n ->
  0 <= jj <= j_end -> Z.min tile_size p <= j_end <= p ->
  0 <= kk <= k_end -> k_end <= m ->
  (forall i j, ii <= i < i_end -> jj <= j < j_end -> K i j = kk) ->
  exists s', nest_block ii i_end jj j_end kk k_end s = Ok (i_end, s') /\
             accumulated a b (paint ii i_end jj j_end k_end K) s'.
Proof.
  intros Hacc Hii Hie Hjj Hje Hkk Hke HK. pose proof (wf_rows _ _ Ha) as Hnr.
  unfold nest_block.
  loop_rule (fun i s => ii <= i <= i_end /\
               accumulated a b (paint ii i jj j_end k_end K) s)
            (fun i => Z.to_nat (i_end - i)).
  - split; [lia|]. apply (accumulated_ext a b K); [|assumption].
    intros i' j' _ _. box_cases.
  - lia.
  - intros i s0 [Hi Hacc0] Hc. apply Z.ltb_lt in Hc.
    destruct (nest_depth_ok _ s0 i jj j_end kk k_end Hacc0) as (s1 & Hrun & Hacc1);
      try lia.
    { intros j Hj. rewrite <- (HK i j) by lia. box_cases. }
    rewrite Hrun. cbn [obind]. exists s1. split; [reflexivity|].
    rewrite incr_small by lia. split; [|lia]. split; [lia|].
    eapply accumulated_ext; [|exact Hacc1]. intros i' j' _ _. box_cases.
  - intros i' s' [Hi' Hacc'] Hc. apply Z.ltb_ge in Hc.
    assert (i' = i_end) as -> by lia. exists s'. split; [reflexivity|assumption].
Qed.

Lemma nest_columns_ok K s ii kk :
  accumulated a b K s -> 0 <= ii < n -> 0 <= kk < m ->
  (forall i j, ii <= i < Z.min (ii + tile_size) n -> 0 <= j < p -> K i j = kk) ->
  exists jj' s', nest_columns ii kk s = Ok (jj', s') /\
    accumulated a b
      (paint ii (Z.min (ii + tile_size) n) 0 p (Z.min (kk + tile_size) m) K) s'.
Proof.
  intros Hacc Hii Hkk HK. destruct extents_positive as (Hn & Hm & Hp).
  unfold nest_columns. rewrite !tile_end_is_min by lia.
  set (i_end := Z.min (ii + tile_size) n) in *.
  set (k_end := Z.min (kk + tile_size) m) in *.
  loop_rule (fun jj s => 0 <= jj /\
               accumulated a b (paint ii i_end 0 (Z.min jj p) k_end K) s)
            (fun jj => Z.to_nat (p - jj)).
  - split; [lia|]. apply (accumulated_ext a b K); [|assumption].
    intros i' j' _ _. box_cases.
  - lia.
  - intros jj s0 [Hjj Hacc0] Hc. apply Z.ltb_lt in Hc.
    rewrite tile_end_is_min by lia.
    destruct (nest_block_ok _ s0 ii i_end jj (Z.min (jj + tile_size) p) kk k_end Hacc0)
      as (s1 & Hrun & Hacc1); try lia.
    { intros i j Hi Hj. rewrite <- (HK i j) by lia. box_cases. }
    rewrite Hrun. cbn [obind]. exists s1. split; [reflexivity|].
    unfold wadd. rewrite wrap_small by (rewrite modulus_eq; lia).
    split; [|lia]. split; [lia|].
    eapply accumulated_ext; [|exact Hacc1]. intros i' j' _ Hj'. box_cases.
  - intros jj' s' [Hjj' Hacc'] Hc. apply Z.ltb_ge in Hc.
    exists jj', s'. split; [reflexivity|].
    replace (Z.min jj' p) with p in Hacc' by lia. assumption.
Qed.

Lemma nest_band_ok K s ii :
  accumulated a b K s -> 0 <= ii < n ->
  (forall i j, ii <= i < Z.min (ii + tile_size) n -> 0 <= j < p -> K i j = 0) ->
  exists kk' s', nest_band ii s = Ok (kk', s') /\
    accumulated a b (paint ii (Z.min (ii + tile_size) n) 0 p m K) s'.
Proof.
  intros Hacc Hii HK. destruct extents_positive as (Hn & Hm & Hp).
  unfold nest_band.
  set (i_end := Z.min (ii + tile_size) n) in *.
  loop_rule (fun kk s => 0 <= kk /\
               accumulated a b (paint ii i_end 0 p (Z.min kk m) K) s)
            (fun kk => Z.to_nat (m - kk)).
  - split; [lia|]. apply (accumulated_ext a b K); [|assumption].
    intros i' j' _ _. unfold paint. destruct (in_box ii i_end 0 p i' j') eqn:Hbox.
    + unfold in_box in Hbox. rewrite (HK i' j') by lia. lia.
    + reflexivity.
  - lia.
  - intros kk s0 [Hkk Hacc0] Hc. apply Z.ltb_lt in Hc.
    destruct (nest_columns_ok _ s0 ii kk Hacc0) as (jj' & s1 & Hrun & Hacc1); try lia.
    { intros i j Hi Hj. fold i_end in Hi. box_cases. }
    rewrite Hrun. cbn [obind]. exists s1. split; [reflexivity|].
    unfold wadd. rewrite wrap_small by (rewrite modulus_eq; lia).
    split; [|lia]. split; [lia|].
    eapply accumulated_ext; [|exact Hacc1]. intros i' j' _ _. fold i_end. box_cases.
  - intros kk' s' [Hkk' Hacc'] Hc. apply Z.ltb_ge in Hc.
    exists kk', s'. split; [reflexivity|].
    replace (Z.min kk' m) with m in Hacc' by lia. assumption.
Qed.

Lemma nest_ok s :
  accumulated a b (fun _ _ => 0) s ->
  exists s', nest s = Ok s' /\ accumulated a b (fun _ _ => m) s'.
Proof.
  intros Hacc. destruct extents_positive as (Hn & Hm & Hp).
  unfold nest.
  loop_rule (fun ii s => 0 <= ii /\
               accumulated a b (paint 0 (Z.min ii n) 0 p m (fun _ _ => 0)) s)
            (fun ii => Z.to_nat (n - ii)).
  - split; [lia|]. eapply accumulated_ext; [|exact Hacc].
    intros i' j' _ _. box_cases.
  - lia.
  - intros ii s0 [Hii Hacc0] Hc. apply Z.ltb_lt in Hc.
    destruct (nest_band_ok _ s0 ii Hacc0) as (kk' & s1 & Hrun & Hacc1); try lia.
    { intros i j Hi Hj. box_cases. }
    rewrite Hrun. cbn [obind]. exists s1. split; [reflexivity|].
    unfold wadd. rewrite wrap_small by (rewrite modulus_eq; lia).
    split; [|lia]. split; [lia|].
    eapply accumulated_ext; [|exact Hacc1]. intros i' j' Hi' Hj'. box_cases.
  - intros ii' s' [Hii' Hacc'] Hc. apply Z.ltb_ge in Hc. cbn [obind].
    exists s'. split; [reflexivity|].
    eapply accumulated_ext; [|exact Hacc']. intros i' j' Hi' Hj'. box_cases.
Qed.

End Nest.

(** *** [matrix_mult_tiled_optimized] *)

Definition tiled_optimized_pass (i k jj j_end : Z) (s : store T) : outcome (store T) :=
  let* a_ik := MATRIX_GET a i k in
  let* (_, s) := for_loop fuel (fun j => j <? j_end) incr (fun j s =>
    lane b i k j a_ik s) jj s in
  Ok s.

Lemma tiled_optimized_nest tile_size s :
  tiled_optimized_loops fuel a b tile_size s = nest tile_size tiled_optimized_pass s.
Proof. reflexivity. Qed.

Lemma tiled_optimized_pass_ok K s i k jj j_end :
  accumulated a b K s -> 0 <= i < n -> 0 <= k < m ->
  0 <= jj <= j_end -> j_end <= p ->
  (forall j, jj <= j < j_end -> K i j = k) ->
  exists s', tiled_optimized_pass i k jj j_end s = Ok s' /\
             accumulated a b (paint i (i + 1) jj j_end (k + 1) K) s'.
Proof.
  intros Hacc Hi Hk Hjj Hje HK. unfold tiled_optimized_pass.
  rewrite (MATRIX_GET_ok a bufa) by assumption. cbn [obind].
  destruct (segment_ok K s i k jj jj j_end) as (s1 & -> & Hacc1); try assumption; try lia.
  { apply (accumulated_ext a b K); [|assumption]. intros i' j' _ _. box_cases. }
  cbn [obind]. exists s1. split; [reflexivity|assumption].
Qed.

Lemma tiled_optimized_loops_ok tile_size s :
  1 <= tile_size <= 2 ^ 62 ->
  accumulated a b (fun _ _ => 0) s ->
  exists s', tiled_optimized_loops fuel a b tile_size s = Ok s' /\
             accumulated a b (fun _ _ => m) s'.
Proof.
  intros Hts Hacc. rewrite tiled_optimized_nest.
  apply nest_ok; [assumption| |assumption].
  intros K s0 i k jj j_end Hacc0 Hi Hk Hjj Hje HK.
  apply tiled_optimized_pass_ok; try assumption. lia.
Qed.

(** *** [matrix_mult_vector_optimized] *)

Definition vector_optimized_pass (i k jj j_end : Z) (s : store T) : outcome (store T) :=
  let* a_ik := MATRIX_GET a i k in
  let* (j, s) :=
    for_loop fuel (fun j => j <=? wsub j_end VECTOR_LENGTH) (fun j => wadd j VECTOR_LENGTH)
      (fun j s =>
         let* (_, s) := for_loop fuel (fun vj => vj <? VECTOR_LENGTH) incr
           (fun vj s => lane b i k (wadd j vj) a_ik s) 0 s in
         Ok s) jj s in
  let* (_, s) := for_loop fuel (fun j => j <? j_end) incr (fun j s =>
    lane b i k j a_ik s) j s in
  Ok s.

Lemma vector_optimized_nest s :
  vector_optimized_loops fuel a b s = nest vector_tile_size vector_optimized_pass s.
Proof. reflexivity. Qed.

Lemma vector_optimized_pass_ok K s i k jj j_end :
  accumulated a b K s -> 0 <= i < n -> 0 <= k < m ->
  0 <= jj <= j_end -> 8 <= j_end <= p ->
  (forall j, jj <= j < j_end -> K i j = k) ->
  exists s', vector_optimized_pass i k jj j_end s = Ok s' /\
             accumulated a b (paint i (i + 1) jj j_end (k + 1) K) s'.
Proof.
  intros Hacc Hi Hk Hjj Hje HK. unfold vector_optimized_pass.
  rewrite (MATRIX_GET_ok a bufa) by assumption. cbn [obind].
  destruct (chunks_ok K s i k jj j_end) as (j & s1 & -> & Hj & Hacc1); try assumption.
  cbn [obind].
  destruct (segment_ok K s1 i k jj j j_end) as (s2 & -> & Hacc2); try assumption; try lia.
  cbn [obind]. exists s2. split; [reflexivity|assumption].
Qed.

Lemma vector_optimized_loops_ok s :
  8 <= p ->
  accumulated a b (fun _ _ => 0) s ->
  exists s', vector_optimized_loops fuel a b s = Ok s' /\
             accumulated a b (fun _ _ => m) s'.
Proof.
  intros Hp8 Hacc. rewrite vector_optimized_nest.
  apply nest_ok; [unfold vector_tile_size; lia| |assumption].
  intros K s0 i k jj j_end Hacc0 Hi Hk Hjj Hje HK.
  apply vector_optimized_pass_ok; try assumption. unfold vector_tile_size in Hje. lia.
Qed.

End MoreKernelProofs.

Section MoreKernelTheorems.

Context {T : Type} `{DoubleOps T}.

Lemma tiled_optimized_from_zero (fuel : nat) (a b c : Matrix T) bufc tile_size :
  data a <> None -> data b <> None -> well_formed c bufc -> compatible a b c = true ->
  matrix_mult_tiled_optimized fuel (Some a) (Some b) (Some c) tile_size
  = let* s := tiled_optimized_loops fuel a b tile_size {| out := zeroed c; writes := [] |} in
    Ok (Some (out s), writes s).
Proof.
  intros Ha Hb Hc Hcompat. unfold matrix_mult_tiled_optimized, init_zero_out, usable.
  destruct (data a); [|congruence]. destruct (data b); [|congruence].
  rewrite (wf_data _ _ Hc), Hcompat. simpl.
  rewrite (matrix_init_zero_wf c bufc Hc). reflexivity.
Qed.

Lemma vector_optimized_from_zero (fuel : nat) (a b c : Matrix T) bufc :
  data a <> None -> data b <> None -> well_formed c bufc -> compatible a b c = true ->
  matrix_mult_vector_optimized fuel (Some a) (Some b) (Some c)
  = let* s := vector_optimized_loops fuel a b {| out := zeroed c; writes := [] |} in
    Ok (Some (out s), writes s).
Proof.
  intros Ha Hb Hc Hcompat. unfold matrix_mult_vector_optimized, init_zero_out, usable.
  destruct (data a); [|congruence]. destruct (data b); [|congruence].
  rewrite (wf_data _ _ Hc), Hcompat. simpl.
  rewrite (matrix_init_zero_wf c bufc Hc). reflexivity.
Qed.

(** X4.  The i-k-j blocked kernel has no unrolled loop and no wrapping bound:
    for every tile size from 1 up it returns the product, the same matrix the
    naive kernel returns, whatever the output held before. *)
Theorem tiled_optimized_is_product (fuel : nat) (a b c : Matrix T)
    (bufa bufb bufc : list T) (tile_size : Z) :
  well_formed a bufa -> well_formed b bufb -> well_formed c bufc ->
  cols a = rows b -> rows c = rows a -> cols c = cols b ->
  1 <= cols a -> 1 <= cols b -> 1 <= tile_size <= 2 ^ 62 ->
  rows a <= Z.of_nat fuel -> cols a <= Z.of_nat fuel -> cols b <= Z.of_nat fuel ->
  exists w,
    matrix_mult_tiled_optimized fuel (Some a) (Some b) (Some c) tile_size
      = Ok (Some (product a b), w).
Proof.
  intros Ha Hb Hc Hab Hr Hcl Hm1 Hp1 Hts Hn Hm Hp.
  assert (Hbytes : rows a * cols b * sizeof_double < modulus).
  { rewrite <- Hr, <- Hcl. apply (wf_bytes _ _ Hc). }
  assert (Hda : data a <> None) by (rewrite (wf_data _ _ Ha); discriminate).
  assert (Hdb : data b <> None) by (rewrite (wf_data _ _ Hb); discriminate).
  destruct (tiled_optimized_loops_ok a b bufa bufb Ha Hb Hab Hbytes Hm1 Hp1 fuel Hn Hm Hp
              tile_size {| out := zeroed c; writes := [] |} Hts) as (s' & Hrun & Hacc).
  { apply accumulated_zeroed with bufc; assumption. }
  exists (writes s').
  rewrite (tiled_optimized_from_zero fuel a b c bufc)
    by (try apply compatible_true; assumption).
  rewrite Hrun. simpl. rewrite (accumulated_product a b s') by (assumption || lia).
  reflexivity.
Qed.

(** X5.  The blocked lane-chunked kernel returns the product whenever the
    output has at least 8 columns. *)
Theorem vector_optimized_is_product (fuel : nat) (a b c : Matrix T)
    (bufa bufb bufc : list T) :
  well_formed a bufa -> well_formed b bufb -> well_formed c bufc ->
  cols a = rows b -> rows c = rows a -> cols c = cols b ->
  1 <= cols a -> 8 <= cols b ->
  rows a <= Z.of_nat fuel -> cols a <= Z.of_nat fuel -> cols b <= Z.of_nat fuel ->
  exists w,
    matrix_mult_vector_optimized fuel (Some a) (Some b) (Some c)
      = Ok (Some (product a b), w).
Proof.
  intros Ha Hb Hc Hab Hr Hcl Hm1 Hp8 Hn Hm Hp.
  assert (Hbytes : rows a * cols b * sizeof_double < modulus).
  { rewrite <- Hr, <- Hcl. apply (wf_bytes _ _ Hc). }
  assert (Hda : data a <> None) by (rewrite (wf_data _ _ Ha); discriminate).
  assert (Hdb : data b <> None) by (rewrite (wf_data _ _ Hb); discriminate).
  assert (Hp1 : 1 <= cols b) by lia.
  destruct (vector_optimized_loops_ok a b bufa bufb Ha Hb Hab Hbytes Hm1 Hp1 fuel Hn Hm Hp
              {| out := zeroed c; writes := [] |} Hp8) as (s' & Hrun & Hacc).
  { apply accumulated_zeroed with bufc; assumption. }
  exists (writes s').
  rewrite (vector_optimized_from_zero fuel a b c bufc)
    by (try apply compatible_true; assumption).
  rewrite Hrun. simpl. rewrite (accumulated_product a b s') by (assumption || lia).
  reflexivity.
Qed.

(** X6.  With between 1 and 7 output columns the blocked lane-chunked kernel
    has the defect of [matrix_mult_vector]: [j_end - 8] wraps, lane groups run
    until one leaves the output buffer, and no result is returned. *)
Theorem vector_optimized_faults_when_bound_wraps (fuel : nat) (a b c : Matrix T)
    (bufa bufb bufc : list T) :
  well_formed a bufa -> well_formed b bufb -> well_formed c bufc ->
  cols a = rows b -> rows c = rows a -> cols c = cols b ->
  1 <= rows a -> 1 <= cols a -> 1 <= cols b < 8 ->
  rows a * cols b + 8 < Z.of_nat fuel ->
  matrix_mult_vector_optimized fuel (Some a) (Some b) (Some c) = Fault.
Proof.
  intros Ha Hb Hc Hab Hr Hcl Hn1 Hm1 Hp Hfuel.
  assert (Hbytes : rows a * cols b * sizeof_double < modulus).
  { rewrite <- Hr, <- Hcl. apply (wf_bytes _ _ Hc). }
  assert (Hda : data a <> None) by (rewrite (wf_data _ _ Ha); discriminate).
  assert (Hdb : data b <> None) by (rewrite (wf_data _ _ Hb); discriminate).
  assert (Hpos : (0 < fuel)%nat).
  { pose proof (wf_rows _ _ Ha). nia. }
  rewrite (vector_optimized_from_zero fuel a b c bufc)
    by (try apply compatible_true; assumption).
  set (s := {| out := zeroed c; writes := [] |}).
  assert (Hs : shaped a b s) by (apply shaped_zeroed with bufc; assumption).
  assert (Hend : forall bound, 1 <= bound ->
            tile_end 0 vector_tile_size bound = Z.min 64 bound).
  { intros bound Hb1. unfold tile_end, wadd, vector_tile_size. rewrite Z.add_0_l.
    rewrite wrap_small by (rewrite modulus_eq; lia).
    destruct (Z.ltb_spec 64 bound); lia. }
  assert (Hpass : vector_optimized_pass a b fuel 0 0 0 (cols b) s = Fault).
  { unfold vector_optimized_pass.
    rewrite (MATRIX_GET_ok a bufa) by (assumption || lia). cbn [obind].
    change (for_loop fuel (fun j => j <=? wsub (cols b) VECTOR_LENGTH)
              (fun j => wadd j VECTOR_LENGTH)
              (fun j s0 =>
                 let* (_, s1) := for_loop fuel (fun vj => vj <? VECTOR_LENGTH) incr
                   (fun vj s1 => lane b 0 0 (wadd j vj) (entry a 0 0) s1) 0 s0 in
                 Ok s1) 0 s)
      with (vector_chunks b fuel 0 0 (entry a 0 0) s).
    rewrite (vector_chunks_faults a b bufa bufb Ha Hb Hab Hn1 Hm1 Hbytes fuel s)
      by (assumption || lia).
    reflexivity. }
  assert (Hdepth : nest_depth fuel (vector_optimized_pass a b fuel)
                     0 0 (cols b) 0 (Z.min 64 (cols a)) s = Fault).
  { unfold nest_depth. apply for_loop_first_fault; [assumption|apply Z.ltb_lt; lia|].
    exact Hpass. }
  assert (Hblock : nest_block fuel (vector_optimized_pass a b fuel)
                     0 (Z.min 64 (rows a)) 0 (cols b) 0 (Z.min 64 (cols a)) s = Fault).
  { unfold nest_block. apply for_loop_first_fault; [assumption|apply Z.ltb_lt; lia|].
    rewrite Hdepth. reflexivity. }
  assert (Hcols : nest_columns a b fuel vector_tile_size (vector_optimized_pass a b fuel)
                    0 0 s = Fault).
  { unfold nest_columns. apply for_loop_first_fault; [assumption|apply Z.ltb_lt; lia|].
    rewrite !Hend by lia. replace (Z.min 64 (cols b)) with (cols b) by lia.
    rewrite Hblock. reflexivity. }
  assert (Hband : nest_band a b fuel vector_tile_size (vector_optimized_pass a b fuel)
                    0 s = Fault).
  { unfold nest_band. apply for_loop_first_fault; [assumption|apply Z.ltb_lt; lia|].
    rewrite Hcols. reflexivity. }
  rewrite vector_optimized_nest. unfold nest.
  rewrite for_loop_first_fault; [reflexivity|assumption|apply Z.ltb_lt; lia|].
  rewrite Hband. reflexivity.
Qed.

End MoreKernelTheorems.

(** ** A tile size of zero *)

Lemma for_loop_skip {St : Type} (cond : Z -> bool) (next : Z -> Z)
    (body : Z -> St -> outcome St) fuel x s :
  cond x = false -> for_loop fuel cond next body x s = Ok (x, s).
Proof. intros Hc. destruct fuel; simpl; rewrite Hc; reflexivity. Qed.

Lemma for_loop_first_out_of_fuel {St : Type} (cond : Z -> bool) (next : Z -> Z)
    (body : Z -> St -> outcome St) fuel x s :
  cond x = true -> body x s = OutOfFuel ->
  for_loop fuel cond next body x s = OutOfFuel.
Proof. intros Hc Hb. destruct fuel; simpl; rewrite Hc; [|rewrite Hb]; reflexivity. Qed.

(** A loop whose variable does not advance and whose body changes nothing
    exhausts any fuel. *)
Lemma for_loop_spins {St : Type} (cond : Z -> bool) (next : Z -> Z)
    (body : Z -> St -> outcome St) x s :
  cond x = true -> next x = x -> body x s = Ok s ->
  forall fuel, for_loop fuel cond next body x s = OutOfFuel.
Proof.
  intros Hc Hn Hb fuel. induction fuel as [|fuel IH]; simpl; rewrite Hc; [reflexivity|].
  rewrite Hb, Hn. exact IH.
Qed.

Section ZeroTile.

Context {T : Type} `{DoubleOps T}.

Lemma tile_end_zero bound : 1 <= bound -> tile_end 0 0 bound = 0.
Proof.
  intros Hb. unfold tile_end.
  assert (Hz : wadd 0 0 = 0) by reflexivity. rewrite Hz.
  destruct (Z.ltb_spec 0 bound) as [_|Hge]; [reflexivity|lia].
Qed.

Ltac under_bind :=
  match goal with
  | |- obind ?m _ = OutOfFuel =>
      let Hm := fresh "Hm" in
      assert (Hm : m = OutOfFuel); [|rewrite Hm; reflexivity]
  end.

Lemma tiled_loops_zero_tile (fuel : nat) (a b : Matrix T) (s : store T) :
  1 <= rows a -> tiled_loops fuel a b 0 s = OutOfFuel.
Proof.
  intros Hn. assert (Hnext : wadd 0 0 = 0) by reflexivity.
  rewrite tiled_loops_nest. under_bind.
  destruct (Z_lt_le_dec 0 (cols b)) as [Hp|Hp].
  - apply for_loop_first_out_of_fuel; [apply Z.ltb_lt; lia|]. under_bind.
    unfold tiled_band.
    destruct (Z_lt_le_dec 0 (cols a)) as [Hm|Hm].
    + apply for_loop_first_out_of_fuel; [apply Z.ltb_lt; lia|]. under_bind.
      unfold tiled_depth.
      apply for_loop_spins; [apply Z.ltb_lt; lia|exact Hnext|].
      unfold tiled_block. rewrite (tile_end_zero (rows a)) by lia.
      rewrite for_loop_skip by reflexivity. reflexivity.
    + apply for_loop_spins; [apply Z.ltb_lt; lia|exact Hnext|].
      unfold tiled_depth. rewrite for_loop_skip by (apply Z.ltb_ge; lia). reflexivity.
  - apply for_loop_spins; [apply Z.ltb_lt; lia|exact Hnext|].
    unfold tiled_band. rewrite for_loop_skip by (apply Z.ltb_ge; lia). reflexivity.
Qed.

Lemma tiled_optimized_loops_zero_tile (fuel : nat) (a b : Matrix T) (s : store T) :
  1 <= rows a -> tiled_optimized_loops fuel a b 0 s = OutOfFuel.
Proof.
  intros Hn. assert (Hnext : wadd 0 0 = 0) by reflexivity.
  rewrite tiled_optimized_nest. unfold nest. under_bind.
  destruct (Z_lt_le_dec 0 (cols a)) as [Hm|Hm].
  - apply for_loop_first_out_of_fuel; [apply Z.ltb_lt; lia|]. under_bind.
    unfold nest_band.
    destruct (Z_lt_le_dec 0 (cols b)) as [Hp|Hp].
    + apply for_loop_first_out_of_fuel; [apply Z.ltb_lt; lia|]. under_bind.
      unfold nest_columns.
      apply for_loop_spins; [apply Z.ltb_lt; lia|exact Hnext|].
      unfold nest_block. rewrite (tile_end_zero (rows a)) by lia.
      rewrite for_loop_skip by reflexivity. reflexivity.
    + apply for_loop_spins; [apply Z.ltb_lt; lia|exact Hnext|].
      unfold nest_columns. rewrite for_loop_skip by (apply Z.ltb_ge; lia). reflexivity.
  - apply for_loop_spins; [apply Z.ltb_lt; lia|exact Hnext|].
    unfold nest_band. rewrite for_loop_skip by (apply Z.ltb_ge; lia). reflexivity.
Qed.

(** X7.  Called with tile size 0 on matrices with at least one row, both
    blocked kernels pass their checks, clear the output and then never leave
    a block loop whose variable is advanced by 0: whatever the fuel, the run
    is out of fuel, never a result. *)
Theorem zero_tile_never_returns (fuel : nat) (a b c : Matrix T) (bufc : list T) :
  data a <> None -> data b <> None -> well_formed c bufc ->
  compatible a b c = true -> 1 <= rows a ->
  matrix_mult_tiled fuel (Some a) (Some b) (Some c) 0 = OutOfFuel /\
  matrix_mult_tiled_optimized fuel (Some a) (Some b) (Some c) 0 = OutOfFuel.
Proof.
  intros Ha Hb Hc Hcompat Hn. split.
  - rewrite (tiled_from_zero fuel a b c bufc) by assumption.
    rewrite tiled_loops_zero_tile by assumption. reflexivity.
  - rewrite (tiled_optimized_from_zero fuel a b c bufc) by assumption.
    rewrite tiled_optimized_loops_zero_tile by assumption. reflexivity.
Qed.

End ZeroTile.

Lemma tiled_optimized_is_product_2x2_tile_1 :
  exists w,
    matrix_mult_tiled_optimized 2 (Some A22m) (Some B22m) (Some stale22) 1
      = Ok (Some (product A22m B22m), w).
Proof.
  apply (tiled_optimized_is_product 2 A22m B22m stale22
           (map inject_Z [1; 2; 3; 4]) (map inject_Z [5; 6; 7; 8])
           (map inject_Z [9; 9; 9; 9]) 1);
    first [side_concrete | simpl; lia].
Defined.

Lemma vector_optimized_is_product_1x3x8 :
  exists w,
    matrix_mult_vector_optimized 8 (Some A13) (Some B38) (Some stale18)
      = Ok (Some (product A13 B38), w).
Proof.
  apply (vector_optimized_is_product 8 A13 B38 stale18
           (map inject_Z [1; 2; 3])
           (map inject_Z [1; 2; 3; 4; 5; 6; 7; 8; 1; 2; 3; 4; 5; 6; 7; 8; 1; 2; 3; 4; 5; 6; 7; 8])
           (map inject_Z [9; 8; 7; 6; 5; 4; 3; 2]));
    first [side_concrete | simpl; lia].
Defined.

Lemma vector_optimized_faults_2x2 :
  matrix_mult_vector_optimized 13 (Some A22m) (Some B22m) (Some stale22) = Fault.
Proof.
  apply (vector_optimized_faults_when_bound_wraps 13 A22m B22m stale22
           (map inject_Z [1; 2; 3; 4]) (map inject_Z [5; 6; 7; 8])
           (map inject_Z [9; 9; 9; 9]));
    first [side_concrete | simpl; lia].
Defined.

Lemma zero_tile_never_returns_2x2 :
  matrix_mult_tiled 1000 (Some A22m) (Some B22m) (Some stale22) 0 = OutOfFuel /\
  matrix_mult_tiled_optimized 1000 (Some A22m) (Some B22m) (Some stale22) 0 = OutOfFuel.
Proof.
  apply (zero_tile_never_returns 1000 A22m B22m stale22 (map inject_Z [9; 9; 9; 9]));
    first [discriminate | side_concrete | simpl; lia].
Defined.

(** ** More on the verifier *)

Section VerifyMore.

Context {T : Type} `{DoubleOps T}.

Lemma verify_loop_sym (da db : list T) (count : Z) (tol : T) :
  (forall x y, d_fabs (d_sub x y) = d_fabs (d_sub y x)) ->
  forall fuel i, verify_loop fuel da db count tol i = verify_loop fuel db da count tol i.
Proof.
  intros Hsym fuel. induction fuel as [|fuel IH]; intros i; simpl; [reflexivity|].
  destruct (i <? count); [|reflexivity].
  destruct (da !! Z.to_nat i) as [x|], (db !! Z.to_nat i) as [y|]; try reflexivity.
  rewrite (Hsym y x). destruct (d_gt (d_fabs (d_sub x y)) tol); [reflexivity|apply IH].
Qed.

(** X8.  When the distance [fabs(x - y)] is symmetric, [matrix_verify] gives
    the same answer for (A, B) as for (B, A): on null handles, on mismatched
    extents, on short buffers and on every fuel alike. *)
Theorem matrix_verify_symmetric (fuel : nat) (A B : handle T) (tol : T) :
  (forall x y, d_fabs (d_sub x y) = d_fabs (d_sub y x)) ->
  matrix_verify fuel A B tol = matrix_verify fuel B A tol.
Proof.
  intros Hsym. unfold matrix_verify.
  destruct A as [a|], B as [b|]; try reflexivity.
  destruct (data a) as [da|], (data b) as [db|]; try reflexivity.
  destruct (Z.eqb_spec (rows a) (rows b)) as [Hr|Hr];
    destruct (Z.eqb_spec (cols a) (cols b)) as [Hc|Hc];
    destruct (Z.eqb_spec (rows b) (rows a)); destruct (Z.eqb_spec (cols b) (cols a));
    simpl; try congruence.
  rewrite Hr, Hc. apply verify_loop_sym. exact Hsym.
Qed.

Lemma verify_loop_weaken (da db : list T) (count : Z) (tol tol' : T) :
  (forall x, d_gt x tol = false -> d_gt x tol' = false) ->
  forall fuel i, verify_loop fuel da db count tol i = Ok true ->
                 verify_loop fuel da db count tol' i = Ok true.
Proof.
  intros Hweak fuel. induction fuel as [|fuel IH]; intros i; simpl; [auto|].
  destruct (i <? count); [|auto].
  destruct (da !! Z.to_nat i) as [x|], (db !! Z.to_nat i) as [y|]; try discriminate.
  destruct (d_gt (d_fabs (d_sub x y)) tol) eqn:Hgt; [discriminate|].
  rewrite (Hweak _ Hgt). apply IH.
Qed.

(** X9.  In exact arithmetic a match survives a larger tolerance: if
    [matrix_verify] accepts with [tol] and [tol <= tol'], it accepts with
    [tol']. *)
Theorem matrix_verify_monotone (fuel : nat) (A B : handle T) (tol tol' : T) :
  (forall x y, d_gt x y = false <-> d_le x y) ->
  (forall x y z, d_le x y -> d_le y z -> d_le x z) ->
  d_le tol tol' ->
  matrix_verify fuel A B tol = Ok true -> matrix_verify fuel A B tol' = Ok true.
Proof.
  intros Hgt Htrans Hle. unfold matrix_verify.
  destruct A as [a|], B as [b|]; try discriminate.
  destruct (data a) as [da|], (data b) as [db|]; try discriminate.
  destruct (negb (rows a =? rows b) || negb (cols a =? cols b)); [discriminate|].
  apply verify_loop_weaken. intros x Hx. apply Hgt. apply Hgt in Hx.
  apply Htrans with tol; assumption.
Qed.

End VerifyMore.

Lemma Q_distance_sym (x y : Q) : d_fabs (d_sub x y) = d_fabs (d_sub y x).
Proof.
  change (Qabs (x - y) = Qabs (y - x)).
  destruct x as [xn xd], y as [yn yd]. unfold Qabs, Qminus, Qplus, Qopp. simpl.
  f_equal; [|apply Pos.mul_comm].
  replace (yn * Z.pos xd + - xn * Z.pos yd) with (- (xn * Z.pos yd + - yn * Z.pos xd)) by ring.
  symmetry. apply Z.abs_opp.
Qed.

Lemma Q_le_trans (x y z : Q) : d_le x y -> d_le y z -> d_le x z.
Proof. apply Qle_trans. Qed.

Lemma matrix_verify_symmetric_2x2 :
  matrix_verify 4 (Some A22m) (Some near22) (1 # 2)%Q
  = matrix_verify 4 (Some near22) (Some A22m) (1 # 2)%Q.
Proof.
  apply (matrix_verify_symmetric 4 (Some A22m) (Some near22) (1 # 2)%Q Q_distance_sym).
Defined.

Lemma matrix_verify_monotone_2x2 :
  matrix_verify 4 (Some A22m) (Some near22) 2%Q = Ok true.
Proof.
  apply (matrix_verify_monotone 4 (Some A22m) (Some near22) 1%Q 2%Q
           Q_gt_le Q_le_trans).
  - vm_compute. discriminate.
  - vm_compute. reflexivity.
Defined.

(** ** More on the generator (utils.c) and on random initialisation *)

Lemma lcg_step_eq (x : Z) : lcg_step x = (x * 1103515245 + 12345) mod 2 ^ 32.
Proof.
  unfold lcg_step, UInt.wrap, UInt.modulus.
  rewrite Zplus_mod_idemp_l. reflexivity.
Qed.

Lemma lcg_multiplier_unit : Z.gcd (2 ^ 32) 1103515245 = 1.
Proof. reflexivity. Qed.

(** X10.  One step of the generator keeps the state inside [unsigned int] and
    loses nothing: two different states never step to the same state, so two
    different seeds never give the same stream. *)
Theorem lcg_step_injective (x y : Z) :
  0 <= x < 2 ^ 32 -> 0 <= y < 2 ^ 32 ->
  0 <= lcg_step x < 2 ^ 32 /\ (lcg_step x = lcg_step y -> x = y).
Proof.
  intros Hx Hy. rewrite !lcg_step_eq. split.
  - apply Z.mod_pos_bound. lia.
  - intros Heq.
    assert (Hdiv : (2 ^ 32 | 1103515245 * (x - y))).
    { exists ((x * 1103515245 + 12345) / 2 ^ 32 - (y * 1103515245 + 12345) / 2 ^ 32).
      pose proof (Z.div_mod (x * 1103515245 + 12345) (2 ^ 32)).
      pose proof (Z.div_mod (y * 1103515245 + 12345) (2 ^ 32)). lia. }
    apply Z.gauss in Hdiv; [|exact lcg_multiplier_unit].
    destruct Hdiv as [q Hq]. assert (q = 0) by lia. lia.
Qed.

Lemma lcg_step_injective_42 :
  0 <= lcg_step 42 < 2 ^ 32 /\ (lcg_step 42 = lcg_step 43 -> 42 = 43).
Proof. apply (lcg_step_injective 42 43); lia. Defined.

(** *** Draws on doubles

    [min + r * (max - min)] is rounded three times.  With [max - min] rounded
    up and the fraction [r] at 1 the sum can pass [max]. *)

Section Binary64Draws.

#[local] Existing Instance Binary64Ops.

Definition minus_2_53 : float := PrimFloat.opp (d_of_uint (2 ^ 53)).
Definition three : float := d_of_uint 3.
Definition four : float := d_of_uint 4.

(** X11.  On doubles [random_double] does not keep its results inside
    [min, max]: with [min = -2^53], [max = 3] and the generator in state
    230538014, whose successor has all of its low 31 bits set, the draw is
    [4.0]. *)
Theorem random_double_leaves_range :
  0 <= 230538014 < 2 ^ 32 /\
  Z.land (lcg_step 230538014) 0x7FFFFFFF = 0x7FFFFFFF /\
  d_le minus_2_53 three /\
  fst (random_double minus_2_53 three 230538014) = four /\
  d_gt (fst (random_double minus_2_53 three 230538014)) three = true.
Proof.
  split; [lia|]. split; [reflexivity|]. split; [vm_compute; reflexivity|].
  split; vm_compute; reflexivity.
Qed.

End Binary64Draws.

Section RandomMore.

Context {T : Type} `{DoubleOps T}.

Lemma lcg_state_add (seed : Z) (k0 k : nat) :
  lcg_state (lcg_state seed k0) k = lcg_state seed (k0 + k).
Proof.
  unfold lcg_state. induction k as [|k IH]; simpl.
  - rewrite Nat.add_0_r. reflexivity.
  - rewrite IH. replace (k0 + S k)%nat with (S (k0 + k)) by lia. reflexivity.
Qed.

Lemma init_random_from (fuel : nat) (seed : Z) (k0 : nat) (min max : T)
    (mat : Matrix T) (buf : list T) :
  well_formed mat buf -> rows mat * cols mat <= Z.of_nat fuel ->
  matrix_init_random fuel (Some mat) min max (lcg_state seed k0)
  = Ok (Some {| data := Some ((fun k => draw min max seed (k0 + k))
                                <$> seq 0 (Z.to_nat (rows mat * cols mat)));
                rows := rows mat; cols := cols mat |},
        lcg_state seed (k0 + Z.to_nat (rows mat * cols mat))).
Proof.
  intros Hwf Hfuel. unfold matrix_init_random. rewrite (wf_data _ _ Hwf).
  pose proof (wf_bytes _ _ Hwf) as Hbytes. unfold sizeof_double in Hbytes.
  pose proof (wf_rows _ _ Hwf). pose proof (wf_cols _ _ Hwf).
  assert (Hcount : wmul (rows mat) (cols mat) = rows mat * cols mat).
  { unfold wmul. apply wrap_small. nia. }
  rewrite Hcount.
  rewrite (init_random_loop fuel min max (lcg_state seed k0) (rows mat * cols mat) buf);
    [|apply (wf_length _ _ Hwf)|nia|assumption].
  simpl. rewrite lcg_state_add. do 5 f_equal.
  apply list_fmap_ext. intros ? k ?. unfold draw. rewrite lcg_state_add. reflexivity.
Qed.

(** X12.  [matrix_init_random] takes the stream up where the generator
    stands: started [k0] steps after seeding, it fills element number [k] with
    draw number [k0 + k + 1] and leaves the generator [k0 + rows * cols] steps
    after seeding.  Two matrices filled one after the other, as [main]
    fills A and B, therefore hold consecutive stretches of one stream. *)
Theorem init_random_continues (fuel : nat) (seed : Z) (k0 : nat) (min max : T)
    (m1 m2 : Matrix T) (buf1 buf2 : list T) :
  well_formed m1 buf1 -> well_formed m2 buf2 ->
  rows m1 * cols m1 <= Z.of_nat fuel -> rows m2 * cols m2 <= Z.of_nat fuel ->
  let n1 := Z.to_nat (rows m1 * cols m1) in
  let n2 := Z.to_nat (rows m2 * cols m2) in
  exists g1,
    matrix_init_random fuel (Some m1) min max (lcg_state seed k0)
      = Ok (Some {| data := Some ((fun k => draw min max seed (k0 + k)) <$> seq 0 n1);
                    rows := rows m1; cols := cols m1 |}, g1) /\
    matrix_init_random fuel (Some m2) min max g1
      = Ok (Some {| data := Some ((fun k => draw min max seed (k0 + n1 + k)) <$> seq 0 n2);
                    rows := rows m2; cols := cols m2 |},
            lcg_state seed (k0 + n1 + n2)).
Proof.
  intros Hm1 Hm2 Hf1 Hf2 n1 n2.
  exists (lcg_state seed (k0 + n1)). split.
  - apply (init_random_from fuel seed k0 min max m1 buf1); assumption.
  - apply (init_random_from fuel seed (k0 + n1) min max m2 buf2); assumption.
Qed.

End RandomMore.

Lemma init_random_continues_2x2 :
  let n1 := Z.to_nat (rows stale22 * cols stale22) in
  let n2 := Z.to_nat (rows A22m * cols A22m) in
  exists g1,
    matrix_init_random 4 (Some stale22) (-1)%Q 1%Q (lcg_state 42 0)
      = Ok (Some {| data := Some ((fun k => draw (-1)%Q 1%Q 42 (0 + k)) <$> seq 0 n1);
                    rows := rows stale22; cols := cols stale22 |}, g1) /\
    matrix_init_random 4 (Some A22m) (-1)%Q 1%Q g1
      = Ok (Some {| data := Some ((fun k => draw (-1)%Q 1%Q 42 (0 + n1 + k)) <$> seq 0 n2);
                    rows := rows A22m; cols := cols A22m |},
            lcg_state 42 (0 + n1 + n2)).
Proof.
  apply (init_random_continues 4 42 0 (-1)%Q 1%Q stale22 A22m
           (map inject_Z [9; 9; 9; 9]) (map inject_Z [1; 2; 3; 4])); side_concrete.
Defined.

(** ** More on the tile-size helper *)

(** The divisor [3 * element_size] in [size_t] is zero only for element size
    zero: 3 is odd. *)
Lemma divisor_nonzero (element_size : Z) :
  0 < element_size < modulus -> 0 < wmul 3 element_size < modulus.
Proof.
  intros He. unfold wmul, wrap. rewrite modulus_eq in *.
  pose proof (Z.mod_pos_bound (3 * element_size) 18446744073709551616 ltac:(lia)) as Hb.
  assert ((3 * element_size) mod 18446744073709551616 <> 0); [|lia].
  intros Hz. apply Z.mod_divide in Hz; [|lia]. destruct Hz as [q Hq].
  assert (Hq3 : (3 | q * 18446744073709551616)) by (exists element_size; lia).
  rewrite Z.mul_comm in Hq3. apply Z.gauss in Hq3; [|reflexivity].
  destruct Hq3 as [q' ->]. lia.
Qed.

Lemma tile_size_closed (fuel : nat) (cache_size_bytes element_size : Z) :
  0 <= cache_size_bytes < modulus -> 0 < element_size < modulus ->
  Z.sqrt (cache_size_bytes / 4) + 1 <= Z.of_nat fuel -> (9 <= fuel)%nat ->
  calculate_optimal_tile_size fuel cache_size_bytes element_size
  = Ok (2 ^ Z.log2 (clamp 8 256 (Z.sqrt (cache_size_bytes / 4 / wmul 3 element_size)))).
Proof.
  intros Hcache Helem Hfuel1 Hfuel2.
  pose proof (divisor_nonzero element_size Helem) as Hd.
  unfold calculate_optimal_tile_size.
  destruct (Z.eqb_spec (wmul 3 element_size) 0) as [Hz|_]; [lia|].
  set (d := wmul 3 element_size) in *.
  set (budget := cache_size_bytes / 4 / d).
  assert (Hquarter : 0 <= cache_size_bytes / 4 < 2 ^ 62).
  { rewrite modulus_eq in Hcache. split; [apply Z.div_pos; lia|].
    apply Z.div_lt_upper_bound; lia. }
  assert (Hbudget : 0 <= budget <= cache_size_bytes / 4).
  { unfold budget. split; [apply Z.div_pos; lia|].
    apply Z.div_le_upper_bound; [lia|]. nia. }
  assert (Hsq : Z.sqrt budget <= Z.sqrt (cache_size_bytes / 4)).
  { apply Z.sqrt_le_mono. lia. }
  rewrite sqrt_loop by lia. simpl.
  assert (Hs : 0 <= Z.sqrt budget < 2 ^ 31).
  { split; [apply Z.sqrt_nonneg|]. apply Z.sqrt_lt_square; lia. }
  assert (Hback : wsub (Z.sqrt budget + 1) 1 = Z.sqrt budget).
  { unfold wsub. rewrite wrap_small by (rewrite modulus_eq; lia). lia. }
  rewrite Hback.
  set (ts := clamp 8 256 (Z.sqrt budget)).
  assert (Hclamp : (if 256 <? (if Z.sqrt budget <? 8 then 8 else Z.sqrt budget) then 256
                    else if Z.sqrt budget <? 8 then 8 else Z.sqrt budget) = ts).
  { unfold ts, clamp.
    destruct (Z.ltb_spec (Z.sqrt budget) 8); [simpl; lia|].
    destruct (Z.ltb_spec 256 (Z.sqrt budget)); lia. }
  rewrite Hclamp.
  assert (Hts : 8 <= ts <= 256) by (unfold ts, clamp; lia).
  assert (Hlog : 3 <= Z.log2 ts <= 8).
  { split.
    - change 3 with (Z.log2 8). apply Z.log2_le_mono. lia.
    - change 8 with (Z.log2 256). apply Z.log2_le_mono. lia. }
  rewrite pow2_loop by assumption. simpl.
  f_equal. unfold wshr1. rewrite Z.shiftr_div_pow2 by lia.
  rewrite Z.pow_add_r by lia. apply Z.div_mul. lia.
Qed.

Lemma clamp_log2_bounds (x : Z) : 3 <= Z.log2 (clamp 8 256 x) <= 8.
Proof.
  assert (Hc : 8 <= clamp 8 256 x <= 256) by (unfold clamp; lia). split.
  - apply (Z.log2_le_mono 8). lia.
  - apply (Z.log2_le_mono _ 256). lia.
Qed.

(** X14.  The helper divides by [3 * element_size]: with element size 0 that
    is a division by zero, for every cache size and fuel.  With any other
    element size, one whose triple wraps included, it returns a power of two
    between 8 and 256. *)
Theorem calculate_optimal_tile_size_total (fuel : nat) (cache_size_bytes element_size : Z) :
  0 <= cache_size_bytes < modulus -> 0 <= element_size < modulus ->
  Z.sqrt (cache_size_bytes / 4) + 1 <= Z.of_nat fuel -> (9 <= fuel)%nat ->
  (element_size = 0 ->
     calculate_optimal_tile_size fuel cache_size_bytes element_size = Fault) /\
  (element_size <> 0 ->
     exists e, calculate_optimal_tile_size fuel cache_size_bytes element_size = Ok (2 ^ e)
               /\ 3 <= e <= 8).
Proof.
  intros Hcache Helem Hfuel1 Hfuel2. split.
  - intros ->. reflexivity.
  - intros Hne. eexists. split.
    + apply tile_size_closed; try assumption. lia.
    + apply clamp_log2_bounds.
Qed.

Lemma calculate_optimal_tile_size_total_wrapping :
  (2 ^ 63 = 0 -> calculate_optimal_tile_size 100 32768 (2 ^ 63) = Fault) /\
  (2 ^ 63 <> 0 ->
     exists e, calculate_optimal_tile_size 100 32768 (2 ^ 63) = Ok (2 ^ e) /\ 3 <= e <= 8).
Proof.
  apply (calculate_optimal_tile_size_total 100 32768 (2 ^ 63));
    first [decide_concrete | lia].
Defined.

(** X15.  The recommendation never shrinks when the cache grows and never
    grows when the elements do: a cache no larger together with elements no
    smaller gives a tile size no larger. *)
Theorem calculate_optimal_tile_size_monotone (fuel : nat) (c1 c2 e1 e2 : Z) :
  0 <= c1 <= c2 -> c2 < modulus -> 0 < e1 <= e2 -> 3 * e2 < modulus ->
  Z.sqrt (c2 / 4) + 1 <= Z.of_nat fuel -> (9 <= fuel)%nat ->
  exists r_small r_large,
    calculate_optimal_tile_size fuel c1 e2 = Ok r_small /\
    calculate_optimal_tile_size fuel c2 e1 = Ok r_large /\
    r_small <= r_large.
Proof.
  intros Hc Hc2 He He2 Hfuel1 Hfuel2.
  assert (Hq : c1 / 4 <= c2 / 4) by (apply Z.div_le_mono; lia).
  assert (Hq0 : 0 <= c1 / 4) by (apply Z.div_pos; lia).
  assert (Hsq : Z.sqrt (c1 / 4) <= Z.sqrt (c2 / 4)) by (apply Z.sqrt_le_mono; lia).
  eexists. eexists. split; [|split].
  - apply tile_size_closed; lia.
  - apply tile_size_closed; lia.
  - assert (Hd1 : wmul 3 e1 = 3 * e1) by (unfold wmul; apply wrap_small; lia).
    assert (Hd2 : wmul 3 e2 = 3 * e2) by (unfold wmul; apply wrap_small; lia).
    rewrite Hd1, Hd2.
    assert (Hb : c1 / 4 / (3 * e2) <= c2 / 4 / (3 * e1)).
    { transitivity (c2 / 4 / (3 * e2)).
      - apply Z.div_le_mono; lia.
      - apply Z.div_le_compat_l; lia. }
    apply Z.pow_le_mono_r; [lia|]. apply Z.log2_le_mono.
    apply Z.sqrt_le_mono in Hb. unfold clamp. lia.
Qed.

Lemma calculate_optimal_tile_size_monotone_L1_L2 :
  exists r_small r_large,
    calculate_optimal_tile_size 300 32768 8 = Ok r_small /\
    calculate_optimal_tile_size 300 262144 4 = Ok r_large /\
    r_small <= r_large.
Proof.
  apply (calculate_optimal_tile_size_monotone 300 32768 262144 4 8);
    first [decide_concrete | lia].
Defined.

(** X16.  What the recommendation guarantees.  When the element budget
    [cache / 4 / (3 * element_size)] is at least 64, three square tiles of the
    returned edge fit in a quarter of the cache.  When it is smaller the
    helper still returns 8, and three such tiles do not fit. *)
Theorem calculate_optimal_tile_size_capacity (fuel : nat) (cache_size_bytes element_size r : Z) :
  0 <= cache_size_bytes < modulus -> 0 < element_size -> 3 * element_size < modulus ->
  Z.sqrt (cache_size_bytes / 4) + 1 <= Z.of_nat fuel -> (9 <= fuel)%nat ->
  calculate_optimal_tile_size fuel cache_size_bytes element_size = Ok r ->
  (64 <= cache_size_bytes / 4 / (3 * element_size) ->
     3 * element_size * (r * r) <= cache_size_bytes / 4) /\
  (cache_size_bytes / 4 / (3 * element_size) < 64 ->
     r = 8 /\ cache_size_bytes / 4 < 3 * element_size * (r * r)).
Proof.
  intros Hcache Helem Hdiv Hfuel1 Hfuel2 Hrun.
  rewrite tile_size_closed in Hrun by lia.
  assert (Hd : wmul 3 element_size = 3 * element_size) by (unfold wmul; apply wrap_small; lia).
  rewrite Hd in Hrun. injection Hrun as <-.
  set (d := 3 * element_size) in *.
  set (q := cache_size_bytes / 4) in *.
  assert (Hq : 0 <= q) by (apply Z.div_pos; lia).
  set (budget := q / d).
  assert (Hb0 : 0 <= budget) by (apply Z.div_pos; lia).
  pose proof (Z.mul_div_le q d ltac:(lia)) as Hfloor.
  pose proof (Z.mul_succ_div_gt q d ltac:(lia)) as Hceil.
  pose proof (Z.sqrt_spec budget Hb0) as Hsqrt. cbv zeta in Hsqrt.
  fold budget in Hfloor, Hceil.
  split.
  - intros Hbig.
    assert (Hs8 : 8 <= Z.sqrt budget).
    { change 8 with (Z.sqrt 64). apply Z.sqrt_le_mono. assumption. }
    set (ts := clamp 8 256 (Z.sqrt budget)).
    assert (Hts : 8 <= ts <= Z.sqrt budget) by (unfold ts, clamp; lia).
    pose proof (Z.log2_spec ts ltac:(lia)) as Hlog.
    assert (Hpow : 0 < 2 ^ Z.log2 ts) by (apply Z.pow_pos_nonneg; [lia|apply Z.log2_nonneg]).
    set (r := 2 ^ Z.log2 ts) in *.
    assert (Hrs : r <= Z.sqrt budget) by lia.
    assert (Hrr : r * r <= Z.sqrt budget * Z.sqrt budget) by nia.
    assert (Hrb : r * r <= budget) by lia.
    assert (Hdb : d * (r * r) <= d * budget) by (apply Z.mul_le_mono_nonneg_l; lia).
    lia.
  - intros Hsmall.
    assert (Hs8 : Z.sqrt budget < 8).
    { apply Z.sqrt_lt_square; lia. }
    assert (Hts : clamp 8 256 (Z.sqrt budget) = 8) by (unfold clamp; lia).
    rewrite Hts. change (2 ^ Z.log2 8) with 8. split; [reflexivity|]. nia.
Qed.

Lemma calculate_optimal_tile_size_capacity_L1 :
  (64 <= 32768 / 4 / (3 * 8) -> 3 * 8 * (16 * 16) <= 32768 / 4) /\
  (32768 / 4 / (3 * 8) < 64 -> 16 = 8 /\ 32768 / 4 < 3 * 8 * (16 * 16)).
Proof.
  apply (calculate_optimal_tile_size_capacity 100 32768 8 16);
    first [decide_concrete | lia].
Defined.

(** ** matrix_naive.c: [matrix_create] and [matrix_destroy] on a heap

    The heap is a finite map from addresses to live blocks.  [malloc] and
    [aligned_malloc] (utils.c: [posix_memalign]) take a fresh address when the
    environment grants the request; [free] and [aligned_free] remove a live
    block, do nothing on the null pointer and are undefined on anything else.
    A [Matrix] header is uninitialised until its fields are assigned. *)

Module Heap.

Section Heap.

Context {T : Type}.

Inductive block : Type :=
| Uninit
| Header (data : option nat) (rows cols : Z)
| Buffer (contents : list T).

Record heap : Type := {
  blocks : gmap nat block;
  next : nat
}.

(** What the environment decides: whether a request is granted, and what an
    uninitialised buffer of a given byte count happens to hold. *)
Record env : Type := {
  grant : heap -> Z -> bool;
  fill : Z -> list T
}.

Definition alloc (e : env) (size : Z) (blk : block) (h : heap) : option nat * heap :=
  if grant e h size then
    (Some (next h), {| blocks := <[next h := blk]> (blocks h); next := S (next h) |})
  else (None, h).

Definition malloc (e : env) (size : Z) (h : heap) : option nat * heap :=
  alloc e size Uninit h.

Definition aligned_malloc (e : env) (size alignment : Z) (h : heap) : option nat * heap :=
  alloc e size (Buffer (fill e size)) h.

Definition free (ptr : option nat) (h : heap) : outcome heap :=
  match ptr with
  | None => Ok h
  | Some q =>
      match blocks h !! q with
      | Some _ => Ok {| blocks := delete q (blocks h); next := next h |}
      | None => Fault
      end
  end.

Definition aligned_free (ptr : option nat) (h : heap) : outcome heap := free ptr h.

Definition sizeof_Matrix : Z := 24.

Definition matrix_create (e : env) (r c : Z) (h : heap) : outcome (option nat * heap) :=
  let (mat, h) := malloc e sizeof_Matrix h in
  match mat with
  | None => Ok (None, h)
  | Some pm =>
      let (d, h) := aligned_malloc e (wmul (wmul r c) sizeof_double) 32 h in
      match d with
      | None =>
          let* h := free (Some pm) h in
          Ok (None, h)
      | Some pd =>
          Ok (Some pm,
              {| blocks := <[pm := Header (Some pd) r c]> (blocks h); next := next h |})
      end
  end.

Definition matrix_destroy (mat : option nat) (h : heap) : outcome heap :=
  match mat with
  | None => Ok h
  | Some pm =>
      match blocks h !! pm with
      | Some (Header d _ _) =>
          let* h := match d with
                    | Some pd => aligned_free (Some pd) h
                    | None => Ok h
                    end in
          free (Some pm) h
      | _ => Fault
      end
  end.

(** Addresses are handed out in order: every live block is below [next]. *)
Definition fresh_above (h : heap) : Prop :=
  forall q blk, blocks h !! q = Some blk -> (q < next h)%nat.

Lemma next_free (h : heap) : fresh_above h -> blocks h !! next h = None.
Proof.
  intros Hf. destruct (blocks h !! next h) as [blk|] eqn:Hq; [|reflexivity].
  apply Hf in Hq. lia.
Qed.

(** X17.  [matrix_create] never faults, keeps the heap in order, and when it
    returns null it leaves no block behind: a header obtained before the
    buffer was refused has been freed again. *)
Theorem matrix_create_no_leak (e : env) (r c : Z) (h : heap) :
  fresh_above h ->
  exists mat h', matrix_create e r c h = Ok (mat, h') /\
    fresh_above h' /\
    (mat = None -> blocks h' = blocks h).
Proof.
  intros Hf. pose proof (next_free h Hf) as Hnone.
  unfold matrix_create, malloc, aligned_malloc, alloc.
  destruct (grant e h sizeof_Matrix).
  - set (h1 := {| blocks := <[next h := Uninit]> (blocks h); next := S (next h) |}).
    destruct (grant e h1 _).
    + eexists. eexists. split; [reflexivity|]. split; [|discriminate].
      intros q blk Hq. cbn [blocks next h1] in *. apply lookup_insert_Some in Hq as [[<- _]|[_ Hq]]; [lia|].
      apply lookup_insert_Some in Hq as [[<- _]|[_ Hq]]; [lia|].
      apply lookup_insert_Some in Hq as [[<- _]|[_ Hq]]; [lia|].
      apply Hf in Hq. lia.
    + unfold free. cbn [blocks next h1]. rewrite lookup_insert_eq. cbn [obind].
      eexists. eexists. split; [reflexivity|]. cbn [blocks next]. split.
      * intros q blk Hq. cbn [blocks next] in Hq |- *.
        apply lookup_delete_Some in Hq as [_ Hq].
        apply lookup_insert_Some in Hq as [[<- _]|[_ Hq]]; [lia|].
        apply Hf in Hq. lia.
      * intros _. rewrite delete_insert_eq. apply delete_id. assumption.
  - exists None, h. split; [reflexivity|]. split; [assumption|reflexivity].
Qed.

(** Destroying what [matrix_create] returned: the matrix sits at the address
    that was next, and the heap gets back the blocks it had. *)
Lemma create_then_destroy (e : env) (r c : Z) (h h' : heap) (pm : nat) :
  fresh_above h ->
  matrix_create e r c h = Ok (Some pm, h') ->
  pm = next h /\
  matrix_destroy (Some pm) h' = Ok {| blocks := blocks h; next := next h' |}.
Proof.
  intros Hf Hrun.
  pose proof (next_free h Hf) as Hnone.
  unfold matrix_create, malloc, aligned_malloc, alloc in Hrun.
  destruct (grant e h sizeof_Matrix); [|discriminate].
  set (h1 := {| blocks := <[next h := Uninit]> (blocks h); next := S (next h) |}) in *.
  destruct (grant e h1 _); [|unfold free in Hrun; cbn [blocks next h1] in Hrun;
                             rewrite lookup_insert_eq in Hrun; discriminate].
  injection Hrun as <- <-. split; [reflexivity|].
  unfold matrix_destroy, aligned_free, free. cbn [blocks next h1].
  rewrite lookup_insert_eq.
  rewrite lookup_insert_ne by lia. rewrite lookup_insert_eq. cbn [obind blocks next].
  rewrite lookup_delete_ne by lia. rewrite lookup_insert_eq.
  do 2 f_equal.
  apply map_eq. intros q.
  destruct (decide (q = next h)) as [->|Hq0].
  { rewrite lookup_delete_eq. symmetry. assumption. }
  rewrite lookup_delete_ne by congruence.
  destruct (decide (q = S (next h))) as [->|Hq1].
  { rewrite lookup_delete_eq. symmetry.
    destruct (blocks h !! S (next h)) as [blk|] eqn:Hq; [|reflexivity].
    apply Hf in Hq. lia. }
  rewrite lookup_delete_ne by congruence.
  rewrite !lookup_insert_ne by congruence. reflexivity.
Qed.

(** X18.  A matrix that [matrix_create] returned can be destroyed, and
    destroying it gives the heap back exactly the blocks it had before the
    creation; [matrix_destroy] on the null pointer changes nothing. *)
Theorem matrix_create_destroy (e : env) (r c : Z) (h h' : heap) (pm : nat) :
  fresh_above h ->
  matrix_create e r c h = Ok (Some pm, h') ->
  (exists h'', matrix_destroy (Some pm) h' = Ok h'' /\ blocks h'' = blocks h) /\
  matrix_destroy None h' = Ok h'.
Proof.
  intros Hf Hrun. split; [|reflexivity].
  destruct (create_then_destroy e r c h h' pm Hf Hrun) as [_ Hd].
  eexists. split; [exact Hd|reflexivity].
Qed.

(** X19.  [matrix_destroy] does not clear the caller's pointer: destroying the
    same matrix a second time reads a header that is no longer live, which is
    undefined. *)
Theorem matrix_destroy_twice_faults (e : env) (r c : Z) (h h' h'' : heap) (pm : nat) :
  fresh_above h ->
  matrix_create e r c h = Ok (Some pm, h') ->
  matrix_destroy (Some pm) h' = Ok h'' ->
  matrix_destroy (Some pm) h'' = Fault.
Proof.
  intros Hf Hrun Hd.
  destruct (create_then_destroy e r c h h' pm Hf Hrun) as [-> Hd'].
  rewrite Hd' in Hd. injection Hd as <-.
  unfold matrix_destroy. cbn [blocks]. rewrite (next_free h Hf). reflexivity.
Qed.

End Heap.

Arguments heap T : clear implicits.
Arguments env T : clear implicits.

Definition empty_heap : heap Q := {| blocks := ∅; next := 0 |}.

(** An environment that grants everything, and one that grants only requests
    of header size. *)
Definition generous : env Q :=
  {| grant := fun _ _ => true;
     fill := fun size => replicate (Z.to_nat (size / sizeof_double)) (7 # 3)%Q |}.

Definition headers_only : env Q :=
  {| grant := fun _ size => size <=? sizeof_Matrix;
     fill := fun _ => [] |}.

Definition created_3x4 : heap Q :=
  {| blocks := <[0%nat := Header (Some 1%nat) 3 4]>
                 (<[1%nat := Buffer (replicate 12 (7 # 3)%Q)]>
                    (<[0%nat := Uninit]> ∅));
     next := 2 |}.

Lemma empty_heap_fresh : fresh_above empty_heap.
Proof. intros q blk Hq. cbn in Hq. rewrite lookup_empty in Hq. discriminate. Qed.

Lemma matrix_create_no_leak_refused_buffer :
  exists mat h', matrix_create headers_only 3 4 empty_heap = Ok (mat, h') /\
    fresh_above h' /\
    (mat = None -> blocks h' = blocks empty_heap).
Proof. apply (matrix_create_no_leak headers_only 3 4 empty_heap), empty_heap_fresh. Defined.

Example matrix_create_refused_buffer :
  exists h', matrix_create headers_only 3 4 empty_heap = Ok (None, h') /\
             blocks h' = ∅ /\ next h' = 1%nat.
Proof.
  eexists. split; [reflexivity|]. split; [|reflexivity].
  cbn [blocks]. rewrite delete_insert_eq. apply delete_empty.
Qed.

Lemma matrix_create_destroy_3x4 :
  (exists h'', matrix_destroy (Some 0%nat) created_3x4 = Ok h'' /\
               blocks h'' = blocks empty_heap) /\
  matrix_destroy None created_3x4 = Ok created_3x4.
Proof.
  apply (matrix_create_destroy generous 3 4 empty_heap created_3x4 0);
    [apply empty_heap_fresh | reflexivity].
Defined.

Lemma matrix_destroy_twice_faults_3x4 :
  matrix_destroy (Some 0%nat) {| blocks := ∅; next := 2 |} = (Fault : outcome (heap Q)).
Proof.
  apply (matrix_destroy_twice_faults generous 3 4 empty_heap created_3x4 _ 0);
    [apply empty_heap_fresh | reflexivity | vm_compute; reflexivity].
Defined.

End Heap.

(** ** main.c: the command line

    [argv[1..]] is a list of strings.  [atoi] skips white space, reads an
    optional sign and the decimal digits that follow, and gives 0 when there
    are none; a value that does not fit an [int] is undefined.  The cast
    [(size_t)atoi(...)] reduces the [int] modulo [2^64]. *)

Definition INT_MIN : Z := - 2 ^ 31.
Definition INT_MAX : Z := 2 ^ 31 - 1.

Definition isspace (c : ascii) : bool :=
  let x := Z.of_nat (nat_of_ascii c) in
  (x =? 32) || ((9 <=? x) && (x <=? 13)).

Definition isdigit (c : ascii) : bool :=
  let x := Z.of_nat (nat_of_ascii c) in
  (48 <=? x) && (x <=? 57).

Fixpoint skip_space (s : string) : string :=
  match s with
  | String c s' => if isspace c then skip_space s' else s
  | EmptyString => s
  end.

Fixpoint digits (s : string) (acc : Z) : Z :=
  match s with
  | String c s' =>
      if isdigit c then digits s' (10 * acc + (Z.of_nat (nat_of_ascii c) - 48)) else acc
  | EmptyString => acc
  end.

Definition atoi (s : string) : outcome Z :=
  let v := match skip_space s with
           | String "-" s' => - digits s' 0
           | String "+" s' => digits s' 0
           | s' => digits s' 0
           end in
  if (INT_MIN <=? v) && (v <=? INT_MAX) then Ok v else Fault.

Definition DEFAULT_MATRIX_SIZE : Z := 512.
Definition DEFAULT_TILE_SIZE : Z := 64.

(** How the argument loop and the validation end: [main] returns at once
    with a status, or goes on to the benchmark with a configuration. *)
Inductive parsed : Type :=
| Exit (status : Z)
| Run (matrix_size tile_size : Z) (verify_results : bool).

Fixpoint parse_args (args : list string) (matrix_size tile_size : Z) (verify_results : bool)
    : outcome parsed :=
  match args with
  | [] => Ok (Run matrix_size tile_size verify_results)
  | arg :: rest =>
      if String.eqb arg "-h" || String.eqb arg "--help" then Ok (Exit 0)
      else if String.eqb arg "-v" || String.eqb arg "--verify" then
        parse_args rest matrix_size tile_size true
      else if String.eqb arg "-t" then
        match rest with
        | t :: rest' =>
            let* v := atoi t in
            let tile_size := wrap v in
            if tile_size =? 0 then Ok (Exit 1)
            else parse_args rest' matrix_size tile_size verify_results
        | [] => Ok (Exit 1)
        end
      else
        let* v := atoi arg in
        let matrix_size := wrap v in
        if matrix_size =? 0 then Ok (Exit 1)
        else parse_args rest matrix_size tile_size verify_results
  end.

Definition validate (r : parsed) : parsed :=
  match r with
  | Exit status => Exit status
  | Run matrix_size tile_size verify_results =>
      if matrix_size <? 2 then Exit 1
      else
        let tile_size := if matrix_size <? tile_size then matrix_size else tile_size in
        Run matrix_size tile_size verify_results
  end.

Definition configuration (args : list string) : outcome parsed :=
  let* r := parse_args args DEFAULT_MATRIX_SIZE DEFAULT_TILE_SIZE false in
  Ok (validate r).

Example configuration_runs :
  configuration ["-t"; "32"; "256"] = Ok (Run 256 32 false) /\
  configuration ["-v"; "512"] = Ok (Run 512 64 true) /\
  configuration [] = Ok (Run 512 64 false) /\
  configuration ["16"] = Ok (Run 16 16 false) /\
  configuration ["-t"; "0"] = Ok (Exit 1) /\
  configuration ["-t"] = Ok (Exit 1) /\
  configuration ["1"] = Ok (Exit 1) /\
  configuration ["abc"] = Ok (Exit 1) /\
  configuration ["64"; "--help"] = Ok (Exit 0) /\
  configuration ["-5"] = Ok (Run (2 ^ 64 - 5) 64 false) /\
  configuration ["99999999999"] = Fault.
Proof. repeat split; vm_compute; reflexivity. Qed.

Lemma wrap_range z : 0 <= wrap z < modulus.
Proof. unfold wrap. apply Z.mod_pos_bound. rewrite modulus_eq. lia. Qed.

Lemma parse_args_bounds (len : nat) :
  forall args matrix_size tile_size verify_results n t v,
    (length args <= len)%nat ->
    0 <= matrix_size < modulus -> 1 <= tile_size < modulus ->
    parse_args args matrix_size tile_size verify_results = Ok (Run n t v) ->
    0 <= n < modulus /\ 1 <= t < modulus.
Proof.
  induction len as [|len IH]; intros args ms ts vr n t v Hlen Hms Hts Hrun.
  - destruct args; [|simpl in Hlen; lia]. simpl in Hrun. injection Hrun as <- <- <-.
    split; assumption.
  - destruct args as [|arg rest].
    { simpl in Hrun. injection Hrun as <- <- <-. split; assumption. }
    simpl in Hlen. cbn [parse_args] in Hrun.
    destruct (String.eqb arg "-h" || String.eqb arg "--help"); [discriminate|].
    destruct (String.eqb arg "-v" || String.eqb arg "--verify").
    { apply (IH rest ms ts true n t v); (lia || assumption). }
    destruct (String.eqb arg "-t").
    + destruct rest as [|targ rest']; [discriminate|].
      destruct (atoi targ) as [x| |]; try discriminate. cbn [obind] in Hrun.
      destruct (Z.eqb_spec (wrap x) 0) as [|Hnz]; [discriminate|].
      pose proof (wrap_range x).
      apply (IH rest' ms (wrap x) vr n t v); try (assumption || lia). simpl in Hlen. lia.
    + destruct (atoi arg) as [x| |]; try discriminate. cbn [obind] in Hrun.
      destruct (Z.eqb_spec (wrap x) 0) as [|Hnz]; [discriminate|].
      pose proof (wrap_range x).
      apply (IH rest (wrap x) ts vr n t v); try (assumption || lia).
Qed.

(** X20.  Whatever the arguments, a configuration that reaches the benchmark
    has a matrix size of at least 2 and a tile size between 1 and the matrix
    size: a tile size of 0 never gets through, a tile size of 1 or 2 and a
    matrix size of 2 do. *)
Theorem configuration_bounds (args : list string) (n t : Z) (v : bool) :
  configuration args = Ok (Run n t v) ->
  2 <= n < modulus /\ 1 <= t <= n.
Proof.
  unfold configuration. intros Hrun.
  destruct (parse_args args DEFAULT_MATRIX_SIZE DEFAULT_TILE_SIZE false) as [r| |] eqn:Hp;
    try discriminate.
  cbn [obind] in Hrun. destruct r as [st|n0 t0 v0]; [discriminate|].
  apply (parse_args_bounds (length args)) in Hp;
    [|lia|rewrite modulus_eq; unfold DEFAULT_MATRIX_SIZE; lia
     |rewrite modulus_eq; unfold DEFAULT_TILE_SIZE; lia].
  unfold validate in Hrun.
  destruct (Z.ltb_spec n0 2); [discriminate|].
  destruct (Z.ltb_spec n0 t0); injection Hrun as <- <- <-; lia.
Qed.

Lemma configuration_bounds_t32_256 :
  2 <= 256 < modulus /\ 1 <= 32 <= 256.
Proof. apply (configuration_bounds ["-t"; "32"; "256"] 256 32 false). reflexivity. Defined.

Example small_configurations_accepted :
  configuration ["2"] = Ok (Run 2 2 false) /\
  configuration ["-t"; "1"; "-v"] = Ok (Run 512 1 true).
Proof. split; vm_compute; reflexivity. Qed.

(** A size argument that [atoi] reads as a negative number is not rejected:
    the cast to [size_t] makes it a size just below [2^64], which passes the
    checks and leaves the default tile size in place. *)
Lemma negative_size_run (arg : string) (v : Z) :
  atoi arg = Ok v -> v < 0 ->
  configuration [arg] = Ok (Run (2 ^ 64 + v) DEFAULT_TILE_SIZE false).
Proof.
  intros Hatoi Hneg.
  assert (Hmin : INT_MIN <= v).
  { unfold atoi in Hatoi.
    destruct ((INT_MIN <=? _) && _) eqn:Hr in Hatoi; [|discriminate].
    injection Hatoi as <-. apply andb_true_iff in Hr as [Hr _].
    apply Z.leb_le in Hr. exact Hr. }
  unfold INT_MIN in Hmin.
  assert (Hw : wrap v = 2 ^ 64 + v).
  { rewrite wrap_negative by (rewrite modulus_eq; lia). rewrite modulus_eq. lia. }
  unfold configuration. cbn [parse_args].
  destruct (String.eqb_spec arg "-h") as [->|_].
  { vm_compute in Hatoi. injection Hatoi as <-. lia. }
  destruct (String.eqb_spec arg "--help") as [->|_].
  { vm_compute in Hatoi. injection Hatoi as <-. lia. }
  destruct (String.eqb_spec arg "-v") as [->|_].
  { vm_compute in Hatoi. injection Hatoi as <-. lia. }
  destruct (String.eqb_spec arg "--verify") as [->|_].
  { vm_compute in Hatoi. injection Hatoi as <-. lia. }
  destruct (String.eqb_spec arg "-t") as [->|_].
  { vm_compute in Hatoi. injection Hatoi as <-. lia. }
  cbn [orb]. rewrite Hatoi. cbn [obind]. rewrite Hw.
  destruct (Z.eqb_spec (2 ^ 64 + v) 0); [lia|].
  cbn [obind validate]. 
  destruct (Z.ltb_spec (2 ^ 64 + v) 2); [lia|].
  unfold DEFAULT_TILE_SIZE.
  destruct (Z.ltb_spec (2 ^ 64 + v) 64); [lia|]. reflexivity.
Qed.

(** ** main.c: the benchmark

    What a run reports is its exit status and the verdict of each cross-check
    it made; timing and printing are left out.  The matrices are values here,
    so the calls of [matrix_destroy] at the end have nothing to act on; the
    heap side of creation and destruction is the subject of [Heap]. *)

Record report : Type := {
  status : Z;
  naive_tiled_match : option bool;
  naive_vector_match : option bool
}.

Definition stopped (st : Z) : report :=
  {| status := st; naive_tiled_match := None; naive_vector_match := None |}.

Section Benchmark.

Context {T : Type} `{DoubleOps T}.

(** The constants [-1.0], [1.0] and [VERIFICATION_TOLERANCE] as elements of
    [T], and whether the build defines [USE_VECTOR]. *)
Variables (minus_one one VERIFICATION_TOLERANCE : T) (USE_VECTOR : bool).

Definition is_null (mat : handle T) : bool :=
  match mat with Some _ => false | None => true end.

(** [matrix_init_zero] on a pointer: a null pointer is left alone. *)
Definition init_zero_handle (mat : handle T) : outcome (handle T) :=
  match mat with
  | Some m0 => let* m1 := matrix_init_zero m0 in Ok (Some m1)
  | None => Ok None
  end.

(** [envs k] answers the allocations of the call number [k] of
    [matrix_create]. *)
Definition benchmark (fuel : nat) (envs : nat -> allocator T) (random_seed : Z)
    (matrix_size tile_size : Z) (verify_results : bool) : outcome report :=
  let A := matrix_create (envs 0%nat) matrix_size matrix_size in
  let B := matrix_create (envs 1%nat) matrix_size matrix_size in
  let C_naive := matrix_create (envs 2%nat) matrix_size matrix_size in
  let C_tiled := matrix_create (envs 3%nat) matrix_size matrix_size in
  if is_null A || is_null B || is_null C_naive || is_null C_tiled then Ok (stopped 1)
  else
    let C_vector :=
      if USE_VECTOR then matrix_create (envs 4%nat) matrix_size matrix_size else None in
    if USE_VECTOR && is_null C_vector then Ok (stopped 1)
    else
      let random_seed := seed_random 42 random_seed in
      let* (A, random_seed) := matrix_init_random fuel A minus_one one random_seed in
      let* (B, random_seed) := matrix_init_random fuel B minus_one one random_seed in
      let* C_naive := init_zero_handle C_naive in
      let* (C_naive, _) := matrix_mult_naive fuel A B C_naive in
      let* C_tiled := init_zero_handle C_tiled in
      let* (C_tiled, _) := matrix_mult_tiled fuel A B C_tiled tile_size in
      let* C_vector :=
        if USE_VECTOR then
          let* C_vector := init_zero_handle C_vector in
          let* (C_vector, _) := matrix_mult_vector fuel A B C_vector in
          Ok C_vector
        else Ok C_vector in
      let* (v1, v2) :=
        if verify_results then
          let* v1 := matrix_verify fuel C_naive C_tiled VERIFICATION_TOLERANCE in
          let* v2 :=
            if USE_VECTOR then
              let* v := matrix_verify fuel C_naive C_vector VERIFICATION_TOLERANCE in
              Ok (Some v)
            else Ok None in
          Ok (Some v1, v2)
        else Ok (None, None) in
      Ok {| status := 0; naive_tiled_match := v1; naive_vector_match := v2 |}.

Definition main (fuel : nat) (envs : nat -> allocator T) (random_seed : Z)
    (args : list string) : outcome report :=
  let* r := configuration args in
  match r with
  | Exit st => Ok (stopped st)
  | Run matrix_size tile_size verify_results =>
      benchmark fuel envs random_seed matrix_size tile_size verify_results
  end.

End Benchmark.

Definition tolerance_Q : Q := 1 # 10000000000.

Example main_runs :
  main (-1)%Q 1%Q tolerance_Q false 64 (fun _ => generous) 1 ["-v"; "4"]
    = Ok {| status := 0; naive_tiled_match := Some true; naive_vector_match := None |} /\
  main (-1)%Q 1%Q tolerance_Q false 64 (fun _ => generous) 1 ["2"] = Fault /\
  main (-1)%Q 1%Q tolerance_Q false 64 (fun _ => generous) 1 ["-t"; "2"; "4"] = Fault /\
  main (-1)%Q 1%Q tolerance_Q false 64 (fun _ => generous) 1 ["-5"] = Fault /\
  main (-1)%Q 1%Q tolerance_Q false 64 (fun _ => generous) 1 ["-h"; "4"] = Ok (stopped 0).
Proof. repeat split; vm_compute; reflexivity. Qed.

Section BenchmarkProofs.

Context {T : Type} `{DoubleOps T}.

(** An allocator that grants every request with a block of the size asked
    for. *)
Definition serves (env : allocator T) : Prop :=
  malloc_header env = true /\
  forall size, 0 <= size ->
    exists buf, aligned_malloc env size 32 = Some buf /\
                Z.of_nat (length buf) = size / sizeof_double.

Definition square (n : Z) (buf : list T) : Matrix T :=
  {| data := Some buf; rows := n; cols := n |}.

Lemma create_square (env : allocator T) (n : Z) :
  serves env -> 0 <= n -> n * n * sizeof_double < modulus ->
  exists buf, matrix_create env n n = Some (square n buf) /\ well_formed (square n buf) buf.
Proof.
  intros [Hh Ha] Hn Hb. unfold sizeof_double in Hb. unfold matrix_create. rewrite Hh.
  assert (Hsize : wmul (wmul n n) sizeof_double = n * n * 8).
  { unfold wmul, sizeof_double. rewrite (wrap_small (n * n)) by nia. apply wrap_small. nia. }
  destruct (Ha (n * n * 8)) as (buf & Hbuf & Hlen); [nia|].
  unfold sizeof_double in Hlen. rewrite Z.div_mul in Hlen by lia.
  cbn [negb]. rewrite Hsize, Hbuf. exists buf. split; [reflexivity|].
  constructor; cbn [data rows cols square]; unfold sizeof_double; try nia. reflexivity.
Qed.

Lemma init_random_square (fuel : nat) (n : Z) (buf : list T) (min max : T) (g : Z) :
  well_formed (square n buf) buf -> n * n <= Z.of_nat fuel ->
  exists buf' g',
    matrix_init_random fuel (Some (square n buf)) min max g = Ok (Some (square n buf'), g') /\
    well_formed (square n buf') buf'.
Proof.
  intros Hwf Hfuel.
  pose proof (init_random_from fuel g 0 min max (square n buf) buf Hwf Hfuel) as Hrun.
  cbn [lcg_state Nat.iter rows cols square] in Hrun.
  eexists. eexists. split; [exact Hrun|].
  pose proof (wf_rows _ _ Hwf) as Hr. pose proof (wf_bytes _ _ Hwf) as Hb.
  cbn [rows cols square] in Hr, Hb.
  constructor; cbn [data rows cols square]; try assumption; [reflexivity|].
  rewrite length_fmap, length_seq. nia.
Qed.

Lemma init_zero_handle_wf (c : Matrix T) (buf : list T) :
  well_formed c buf -> init_zero_handle (Some c) = Ok (Some (zeroed c)).
Proof.
  intros Hwf. unfold init_zero_handle. rewrite (matrix_init_zero_wf c buf Hwf). reflexivity.
Qed.

Lemma zeroed_wf (c : Matrix T) (buf : list T) :
  well_formed c buf ->
  well_formed (zeroed c) (replicate (Z.to_nat (rows c * cols c)) d_zero).
Proof.
  intros Hwf. pose proof (wf_rows _ _ Hwf). pose proof (wf_cols _ _ Hwf).
  constructor; cbn [data rows cols zeroed]; try apply Hwf; [reflexivity|].
  rewrite length_replicate. nia.
Qed.

Lemma product_wf (a b : Matrix T) :
  0 <= rows a < modulus -> 0 <= cols b < modulus ->
  rows a * cols b * sizeof_double < modulus ->
  exists buf, well_formed (product a b) buf.
Proof.
  intros Hr Hc Hb. eexists. constructor; cbn [data rows cols product]; try assumption;
    [reflexivity|].
  rewrite length_fmap, length_seq. nia.
Qed.

Lemma verify_same (fuel : nat) (mat : Matrix T) (buf : list T) (tol : T) :
  well_formed mat buf -> rows mat * cols mat <= Z.of_nat fuel ->
  (forall x, d_gt (d_fabs (d_sub x x)) tol = false) ->
  matrix_verify fuel (Some mat) (Some mat) tol = Ok true.
Proof.
  intros Hwf Hfuel Hrefl.
  pose proof (wf_bytes _ _ Hwf) as Hbytes. unfold sizeof_double in Hbytes.
  pose proof (wf_rows _ _ Hwf). pose proof (wf_cols _ _ Hwf).
  assert (Hcount : wmul (rows mat) (cols mat) = rows mat * cols mat).
  { unfold wmul. apply wrap_small. nia. }
  unfold matrix_verify. rewrite (wf_data _ _ Hwf), !Z.eqb_refl. simpl. rewrite Hcount.
  destruct (verify_loop_spec buf buf (rows mat * cols mat) tol) with (fuel := fuel) (i := 0)
    as (r & Hrun & Hiff); try (apply (wf_length _ _ Hwf)); try nia.
  rewrite Hrun. f_equal. apply Hiff.
  intros o x y _ Hx Hy. replace y with x by congruence. apply Hrefl.
Qed.

End BenchmarkProofs.

Lemma validate_run (r : parsed) (n t : Z) (v : bool) :
  validate r = Run n t v ->
  exists t0, r = Run n t0 v /\ 2 <= n /\ t = Z.min n t0.
Proof.
  destruct r as [st|n0 t0 v0]; [discriminate|]. unfold validate.
  destruct (Z.ltb_spec n0 2); [discriminate|].
  destruct (Z.ltb_spec n0 t0); intros Hrun; injection Hrun as <- <- <-;
    exists t0; (split; [reflexivity|]); lia.
Qed.

Section BenchmarkTheorems.

Context {T : Type} `{DoubleOps T}.

Variables (minus_one one tol : T) (USE_VECTOR : bool).

Lemma main_benchmark (fuel : nat) (envs : nat -> allocator T) (seed : Z)
    (args : list string) (n t : Z) (v : bool) :
  configuration args = Ok (Run n t v) ->
  main minus_one one tol USE_VECTOR fuel envs seed args
  = benchmark minus_one one tol USE_VECTOR fuel envs seed n t v /\
  2 <= n < modulus /\ 1 <= t <= n.
Proof.
  intros Hcfg. unfold main. rewrite Hcfg. split; [reflexivity|].
  unfold configuration in Hcfg.
  destruct (parse_args args DEFAULT_MATRIX_SIZE DEFAULT_TILE_SIZE false) as [r| |] eqn:Hp;
    try discriminate.
  cbn [obind] in Hcfg. injection Hcfg as Hv.
  apply validate_run in Hv as (t0 & -> & Hn2 & ->).
  apply (parse_args_bounds (length args)) in Hp;
    [|lia|rewrite modulus_eq; unfold DEFAULT_MATRIX_SIZE; lia
     |rewrite modulus_eq; unfold DEFAULT_TILE_SIZE; lia].
  lia.
Qed.

(** The part of [benchmark] up to the first kernel: with allocators that
    serve, the inputs are filled and the naive result is the product. *)
Lemma benchmark_cross_checks (fuel : nat) (envs : nat -> allocator T) (seed : Z)
    (n t : Z) (v : bool) :
  (forall k, serves (envs k)) ->
  (forall x, d_gt (d_fabs (d_sub x x)) tol = false) ->
  3 <= n -> n * n * sizeof_double < modulus -> 3 <= t <= n ->
  (USE_VECTOR = true -> 8 <= n) ->
  n * n <= Z.of_nat fuel ->
  benchmark minus_one one tol USE_VECTOR fuel envs seed n t v
  = Ok {| status := 0;
          naive_tiled_match := if v then Some true else None;
          naive_vector_match := if v && USE_VECTOR then Some true else None |}.
Proof.
  intros Hserves Hrefl Hn3 Hbytes Ht Hvec Hfuel.
  assert (Hn0 : 0 <= n) by lia.
  assert (Hnf : n <= Z.of_nat fuel) by nia.
  assert (Hn62 : n <= 2 ^ 62) by (unfold sizeof_double in Hbytes; rewrite modulus_eq in Hbytes; nia).
  destruct (create_square (envs 0%nat) n (Hserves _) Hn0 Hbytes) as (bufA0 & HcA & HwA0).
  destruct (create_square (envs 1%nat) n (Hserves _) Hn0 Hbytes) as (bufB0 & HcB & HwB0).
  destruct (create_square (envs 2%nat) n (Hserves _) Hn0 Hbytes) as (bufN & HcN & HwN).
  destruct (create_square (envs 3%nat) n (Hserves _) Hn0 Hbytes) as (bufT & HcT & HwT).
  destruct (create_square (envs 4%nat) n (Hserves _) Hn0 Hbytes) as (bufV & HcV & HwV).
  unfold benchmark. cbv zeta. rewrite HcA, HcB, HcN, HcT, HcV. cbn [is_null orb].
  assert (Hnull : USE_VECTOR && is_null (if USE_VECTOR then Some (square n bufV) else None)
                  = false) by (destruct USE_VECTOR; reflexivity).
  rewrite Hnull. unfold seed_random.
  destruct (init_random_square fuel n bufA0 minus_one one 42 HwA0 Hfuel)
    as (bufA & gA & HrA & HwA).
  rewrite HrA. cbn [obind].
  destruct (init_random_square fuel n bufB0 minus_one one gA HwB0 Hfuel)
    as (bufB & gB & HrB & HwB).
  rewrite HrB. cbn [obind].
  set (a := square n bufA) in *. set (b := square n bufB) in *.
  rewrite (init_zero_handle_wf _ bufN HwN). cbn [obind].
  destruct (naive_returns_product a b (zeroed (square n bufN)) bufA bufB _ fuel HwA HwB
              (zeroed_wf _ _ HwN)) as (w1 & Hnaive); try (reflexivity || assumption).
  rewrite Hnaive. cbn [obind].
  rewrite (init_zero_handle_wf _ bufT HwT). cbn [obind].
  destruct (tiled_returns_product a b (zeroed (square n bufT)) bufA bufB _ fuel HwA HwB
              (zeroed_wf _ _ HwT)) with (tile_size := t) as (w2 & Htiled);
    try (reflexivity || assumption); try (cbn [cols a b square]; lia).
  rewrite Htiled. cbn [obind].
  assert (Hnmod : 0 <= n < modulus) by (rewrite modulus_eq; lia).
  destruct (product_wf a b Hnmod Hnmod Hbytes) as (bufP & HwP).
  assert (HfuelP : rows (product a b) * cols (product a b) <= Z.of_nat fuel)
    by (cbn [rows cols product a b square]; assumption).
  pose proof (verify_same fuel (product a b) bufP tol HwP HfuelP Hrefl) as Hsame.
  destruct USE_VECTOR.
  - rewrite (init_zero_handle_wf _ bufV HwV). cbn [obind].
    destruct (vector_returns_product a b (zeroed (square n bufV)) bufA bufB _ fuel HwA HwB
                (zeroed_wf _ _ HwV)) as (w3 & Hvector);
      try (reflexivity || assumption); try (cbn [cols a b square]; lia).
    rewrite Hvector. cbn [obind].
    destruct v; [|reflexivity]. rewrite Hsame. cbn [obind]. reflexivity.
  - cbn [obind]. destruct v; [|reflexivity]. rewrite Hsame. reflexivity.
Qed.

Lemma benchmark_faults (fuel : nat) (envs : nat -> allocator T) (seed : Z)
    (n t : Z) (v : bool) :
  (forall k, serves (envs k)) ->
  2 <= n -> n * n * sizeof_double < modulus -> 1 <= t <= n ->
  n * n + 8 < Z.of_nat fuel ->
  n = 2 \/ t <= 2 \/ (USE_VECTOR = true /\ n < 8) ->
  benchmark minus_one one tol USE_VECTOR fuel envs seed n t v = Fault.
Proof.
  intros Hserves Hn2 Hbytes Ht Hfuel8 Hsmall.
  assert (Hn0 : 0 <= n) by lia.
  assert (Hfuel : n * n <= Z.of_nat fuel) by lia.
  assert (Hnf : n <= Z.of_nat fuel) by nia.
  assert (Hnf' : n < Z.of_nat fuel) by nia.
  assert (Hn62 : n <= 2 ^ 62) by (unfold sizeof_double in Hbytes; rewrite modulus_eq in Hbytes; nia).
  destruct (create_square (envs 0%nat) n (Hserves _) Hn0 Hbytes) as (bufA0 & HcA & HwA0).
  destruct (create_square (envs 1%nat) n (Hserves _) Hn0 Hbytes) as (bufB0 & HcB & HwB0).
  destruct (create_square (envs 2%nat) n (Hserves _) Hn0 Hbytes) as (bufN & HcN & HwN).
  destruct (create_square (envs 3%nat) n (Hserves _) Hn0 Hbytes) as (bufT & HcT & HwT).
  destruct (create_square (envs 4%nat) n (Hserves _) Hn0 Hbytes) as (bufV & HcV & HwV).
  unfold benchmark. cbv zeta. rewrite HcA, HcB, HcN, HcT, HcV. cbn [is_null orb].
  assert (Hnull : USE_VECTOR && is_null (if USE_VECTOR then Some (square n bufV) else None)
                  = false) by (destruct USE_VECTOR; reflexivity).
  rewrite Hnull. unfold seed_random.
  destruct (init_random_square fuel n bufA0 minus_one one 42 HwA0 Hfuel)
    as (bufA & gA & HrA & HwA).
  rewrite HrA. cbn [obind].
  destruct (init_random_square fuel n bufB0 minus_one one gA HwB0 Hfuel)
    as (bufB & gB & HrB & HwB).
  rewrite HrB. cbn [obind].
  set (a := square n bufA) in *. set (b := square n bufB) in *.
  rewrite (init_zero_handle_wf _ bufN HwN). cbn [obind].
  destruct (naive_returns_product a b (zeroed (square n bufN)) bufA bufB _ fuel HwA HwB
              (zeroed_wf _ _ HwN)) as (w1 & Hnaive); try (reflexivity || assumption).
  rewrite Hnaive. cbn [obind].
  rewrite (init_zero_handle_wf _ bufT HwT). cbn [obind].
  destruct (Z.le_gt_cases t 2) as [Ht2|Ht3]; [|destruct (Z.eq_dec n 2) as [Hn|Hn]].
  - rewrite (tiled_returns_fault a b (zeroed (square n bufT)) bufA bufB _ fuel HwA HwB
               (zeroed_wf _ _ HwT));
      try (reflexivity || assumption); try (cbn [rows cols a b square]; lia).
  - rewrite (tiled_returns_fault a b (zeroed (square n bufT)) bufA bufB _ fuel HwA HwB
               (zeroed_wf _ _ HwT));
      try (reflexivity || assumption); try (cbn [rows cols a b square]; lia).
  - destruct Hsmall as [Hn'|[Ht'|[Hvec Hn8]]]; [lia|lia|].
    destruct (tiled_returns_product a b (zeroed (square n bufT)) bufA bufB _ fuel HwA HwB
                (zeroed_wf _ _ HwT)) with (tile_size := t) as (w2 & Htiled);
      try (reflexivity || assumption); try (cbn [cols a b square]; lia).
    rewrite Htiled. cbn [obind]. rewrite Hvec.
    rewrite (init_zero_handle_wf _ bufV HwV). cbn [obind].
    rewrite (vector_returns_fault a b (zeroed (square n bufV)) bufA bufB _ fuel HwA HwB
               (zeroed_wf _ _ HwV));
      try (reflexivity || assumption); try (cbn [rows cols a b square]; lia).
Qed.

(** X22.  A run that gets past the command line with a matrix size and a
    tile size of at least 3 (and, in a build with [USE_VECTOR], a matrix size
    of at least 8) ends with status 0, and with [-v] every cross-check
    reports a match: the blocked kernels add the terms of each element in the
    order the naive kernel does, so the results are the same element for
    element and no tolerance is needed. *)
Theorem main_cross_checks_pass (fuel : nat) (envs : nat -> allocator T) (seed : Z)
    (args : list string) (n t : Z) (v : bool) :
  configuration args = Ok (Run n t v) ->
  (forall k, serves (envs k)) ->
  (forall x, d_gt (d_fabs (d_sub x x)) tol = false) ->
  3 <= n -> 3 <= t -> (USE_VECTOR = true -> 8 <= n) ->
  n * n * sizeof_double < modulus ->
  n * n <= Z.of_nat fuel ->
  main minus_one one tol USE_VECTOR fuel envs seed args
  = Ok {| status := 0;
          naive_tiled_match := if v then Some true else None;
          naive_vector_match := if v && USE_VECTOR then Some true else None |}.
Proof.
  intros Hcfg Hserves Hrefl Hn3 Ht3 Hvec Hbytes Hfuel.
  destruct (main_benchmark fuel envs seed args n t v Hcfg) as (-> & Hn & Ht).
  apply benchmark_cross_checks; try assumption. lia.
Qed.

(** X23.  The command line accepts configurations on which the benchmark is
    undefined: with a matrix size of 2 (the smallest accepted) or a tile size
    of 1 or 2 the tiled kernel reads outside [B], and in a build with
    [USE_VECTOR] a matrix size below 8 makes the vector kernel leave the
    output buffer.  Given allocators that serve and enough fuel to get there,
    such a run faults. *)
Theorem main_faults_on_small_sizes (fuel : nat) (envs : nat -> allocator T) (seed : Z)
    (args : list string) (n t : Z) (v : bool) :
  configuration args = Ok (Run n t v) ->
  (forall k, serves (envs k)) ->
  n = 2 \/ t <= 2 \/ (USE_VECTOR = true /\ n < 8) ->
  n * n * sizeof_double < modulus ->
  n * n + 8 < Z.of_nat fuel ->
  main minus_one one tol USE_VECTOR fuel envs seed args = Fault.
Proof.
  intros Hcfg Hserves Hsmall Hbytes Hfuel.
  destruct (main_benchmark fuel envs seed args n t v Hcfg) as (-> & Hn & Ht).
  apply benchmark_faults; try assumption. lia.
Qed.

End BenchmarkTheorems.

Lemma generous_serves : serves generous.
Proof.
  split; [reflexivity|]. intros size Hsize. eexists. split; [reflexivity|].
  rewrite length_replicate. unfold sizeof_double.
  rewrite Z2Nat.id by (apply Z.div_pos; lia). reflexivity.
Qed.

Lemma Q_self_within (x : Q) : d_gt (d_fabs (d_sub x x)) tolerance_Q = false.
Proof.
  apply Q_gt_le. change (Qabs (x - x) <= tolerance_Q)%Q.
  assert (Heq : (x - x == 0)%Q) by ring.
  rewrite Heq. discriminate.
Qed.

Lemma main_cross_checks_pass_4 :
  main (-1)%Q 1%Q tolerance_Q false 16 (fun _ => generous) 1 ["-v"; "4"]
  = Ok {| status := 0; naive_tiled_match := Some true; naive_vector_match := None |}.
Proof.
  apply (main_cross_checks_pass (-1)%Q 1%Q tolerance_Q false 16 (fun _ => generous) 1
           ["-v"; "4"] 4 4 true);
    first [ reflexivity | intros; apply generous_serves | apply Q_self_within
          | discriminate | vm_compute; reflexivity | lia ].
Defined.

Lemma main_faults_on_size_2 :
  main (-1)%Q 1%Q tolerance_Q false 13 (fun _ => generous) 1 ["2"] = Fault.
Proof.
  apply (main_faults_on_small_sizes (-1)%Q 1%Q tolerance_Q false 13 (fun _ => generous) 1
           ["2"] 2 2 false);
    first [ reflexivity | intros; apply generous_serves | left; reflexivity
          | vm_compute; reflexivity | lia ].
Defined.

(** *** A negative size argument

    With a size of [2^64 + v] for a negative [v] the byte count of
    [matrix_create] wraps to [8 * v * v]: every matrix has [2^64 + v] rows and
    columns on paper and [v * v] elements in memory. *)

Section NegativeSize.

Context {T : Type} `{DoubleOps T}.

Variables (minus_one one tol : T) (USE_VECTOR : bool).

Variable v : Z.
Hypothesis Hv : - 2 ^ 30 <= v < 0.

Local Abbreviation n := (2 ^ 64 + v).

Lemma wrapped_count : wmul n n = v * v /\ wmul (wmul n n) sizeof_double = v * v * 8.
Proof.
  assert (Hsq : wmul n n = v * v).
  { unfold wmul, wrap. rewrite modulus_eq.
    replace (n * n) with (v * v + (2 ^ 64 + 2 * v) * 18446744073709551616) by lia.
    rewrite Z_mod_plus_full. apply Z.mod_small. nia. }
  split; [assumption|]. rewrite Hsq. unfold wmul, sizeof_double.
  apply wrap_small. rewrite modulus_eq. nia.
Qed.

Lemma create_wrapped (env : allocator T) :
  serves env ->
  exists buf, matrix_create env n n = Some (square n buf) /\ Z.of_nat (length buf) = v * v.
Proof.
  intros [Hh Ha]. destruct wrapped_count as [_ Hsize].
  unfold matrix_create. rewrite Hh, Hsize. cbn [negb].
  destruct (Ha (v * v * 8)) as (buf & Hbuf & Hlen); [nia|].
  unfold sizeof_double in Hlen. rewrite Z.div_mul in Hlen by lia.
  rewrite Hbuf. exists buf. split; [reflexivity|assumption].
Qed.

Lemma init_random_wrapped (fuel : nat) (buf : list T) (min max : T) (g : Z) :
  Z.of_nat (length buf) = v * v -> v * v <= Z.of_nat fuel ->
  exists buf' g',
    matrix_init_random fuel (Some (square n buf)) min max g = Ok (Some (square n buf'), g') /\
    Z.of_nat (length buf') = v * v.
Proof.
  intros Hlen Hfuel. destruct wrapped_count as [Hcount _].
  unfold matrix_init_random. cbn [data rows cols square]. rewrite Hcount.
  rewrite (init_random_loop fuel min max g (v * v) buf);
    [|assumption|rewrite modulus_eq; nia|assumption].
  cbn [obind]. eexists. eexists. split; [reflexivity|].
  rewrite length_fmap, length_seq. nia.
Qed.

Lemma init_zero_wrapped (buf : list T) :
  Z.of_nat (length buf) = v * v ->
  exists buf', init_zero_handle (Some (square n buf)) = Ok (Some (square n buf')) /\
               Z.of_nat (length buf') = v * v.
Proof.
  intros Hlen. destruct wrapped_count as [_ Hsize].
  unfold init_zero_handle, matrix_init_zero, memset_zero. cbn [data rows cols square].
  rewrite Hsize. unfold sizeof_double. rewrite Z.div_mul by lia.
  destruct (Z.leb_spec (v * v) (Z.of_nat (length buf))) as [_|Hgt]; [|lia].
  cbn [obind]. eexists. split; [reflexivity|].
  rewrite length_app, length_replicate, length_drop. nia.
Qed.

(** The first dot product already leaves the buffers: [B[1][0]] is at offset
    [2^64 + v]. *)
Lemma naive_wrapped_faults (fuel : nat) (bufa bufb bufc : list T) :
  Z.of_nat (length bufa) = v * v -> Z.of_nat (length bufb) = v * v ->
  (2 <= fuel)%nat ->
  matrix_mult_naive fuel (Some (square n bufa)) (Some (square n bufb)) (Some (square n bufc))
  = Fault.
Proof.
  intros Hla Hlb Hfuel.
  unfold matrix_mult_naive, usable, compatible. cbn [data rows cols square andb negb].
  rewrite Z.eqb_refl. cbn [negb orb].
  assert (Hloops : forall s, naive_loops fuel (square n bufa) (square n bufb) s = Fault);
    [|rewrite Hloops; reflexivity].
  intros s. unfold naive_loops. cbn [rows cols square].
  assert (Hpos : (0 <? n) = true) by (apply Z.ltb_lt; lia).
  rewrite for_loop_first_fault; [reflexivity|lia|assumption|].
  rewrite for_loop_first_fault; [reflexivity|lia|assumption|].
  assert (Hk : for_loop fuel (fun k => k <? n) incr
                 (fun k sum => mac (square n bufa) (square n bufb) 0 k 0 sum) 0 d_zero
               = Fault); [|rewrite Hk; reflexivity].
  destruct fuel as [|[|fuel]]; [lia|lia|].
  assert (Hone : incr 0 = 1) by reflexivity.
  assert (Hsecond : forall sum, mac (square n bufa) (square n bufb) 0 1 0 sum = Fault).
  { intros sum. unfold mac.
    assert (Hx : MATRIX_GET (square n bufa) 0 1 = Fault \/
                 exists x, MATRIX_GET (square n bufa) 0 1 = Ok x).
    { unfold MATRIX_GET. cbn [data square]. destruct (bufa !! _); eauto. }
    destruct Hx as [->|[x ->]]; [reflexivity|]. cbn [obind].
    unfold MATRIX_GET, offset. cbn [data cols square].
    assert (Hoff : wadd (wmul 1 n) 0 = n).
    { unfold wadd, wmul. rewrite Z.mul_1_l, Z.add_0_r.
      rewrite (wrap_small n) by (rewrite modulus_eq; lia).
      apply wrap_small. rewrite modulus_eq. lia. }
    assert (Hvv : v * v <= 2 ^ 60) by nia.
    rewrite Hoff. rewrite lookup_ge_None_2 by lia. reflexivity. }
  cbn [for_loop]. rewrite Hpos.
  destruct (mac (square n bufa) (square n bufb) 0 0 0 d_zero) as [sum| |] eqn:Hfirst;
    [|reflexivity|].
  - rewrite Hone.
    assert (Hone' : (1 <? n) = true) by (apply Z.ltb_lt; lia).
    rewrite Hone', Hsecond. reflexivity.
  - unfold mac in Hfirst.
    destruct (MATRIX_GET (square n bufa) 0 0) as [x| |] eqn:Hx; cbn [obind] in Hfirst;
      try discriminate.
    + destruct (MATRIX_GET (square n bufb) 0 0) as [y| |] eqn:Hy; cbn [obind] in Hfirst;
        try discriminate.
      unfold MATRIX_GET in Hy. cbn [data square] in Hy.
      destruct (bufb !! Z.to_nat _); discriminate.
    + unfold MATRIX_GET in Hx. cbn [data square] in Hx.
      destruct (bufa !! Z.to_nat _); discriminate.
Qed.

Lemma benchmark_wrapped_faults (fuel : nat) (envs : nat -> allocator T) (seed : Z)
    (t : Z) (verify : bool) :
  (forall k, serves (envs k)) ->
  v * v < Z.of_nat fuel ->
  benchmark minus_one one tol USE_VECTOR fuel envs seed n t verify = Fault.
Proof.
  intros Hserves Hfuel.
  destruct (create_wrapped (envs 0%nat) (Hserves _)) as (bufA0 & HcA & HlA0).
  destruct (create_wrapped (envs 1%nat) (Hserves _)) as (bufB0 & HcB & HlB0).
  destruct (create_wrapped (envs 2%nat) (Hserves _)) as (bufN & HcN & HlN).
  destruct (create_wrapped (envs 3%nat) (Hserves _)) as (bufT & HcT & HlT).
  destruct (create_wrapped (envs 4%nat) (Hserves _)) as (bufV & HcV & HlV).
  unfold benchmark. cbv zeta. rewrite HcA, HcB, HcN, HcT, HcV. cbn [is_null orb].
  assert (Hnull : USE_VECTOR && is_null (if USE_VECTOR then Some (square n bufV) else None)
                  = false) by (destruct USE_VECTOR; reflexivity).
  rewrite Hnull. unfold seed_random.
  destruct (init_random_wrapped fuel bufA0 minus_one one 42 HlA0) as (bufA & gA & HrA & HlA);
    [lia|].
  rewrite HrA. cbn [obind].
  destruct (init_random_wrapped fuel bufB0 minus_one one gA HlB0) as (bufB & gB & HrB & HlB);
    [lia|].
  rewrite HrB. cbn [obind].
  destruct (init_zero_wrapped bufN HlN) as (bufN' & HzN & HlN').
  rewrite HzN. cbn [obind].
  rewrite (naive_wrapped_faults fuel bufA bufB bufN' HlA HlB) by nia.
  reflexivity.
Qed.

End NegativeSize.

Section NegativeSizeTheorem.

Context {T : Type} `{DoubleOps T}.

Variables (minus_one one tol : T) (USE_VECTOR : bool).

(** X21.  A size argument that [atoi] reads as a negative number is not
    rejected: the cast to [size_t] makes it a size just below [2^64], which
    passes the checks.  The byte count of every allocation then wraps, the
    matrices hold [v * v] elements, and the run faults in the naive kernel,
    which reads [B] far outside its buffer. *)
Theorem negative_size_accepted_then_faults (fuel : nat) (envs : nat -> allocator T)
    (seed : Z) (arg : string) (v : Z) :
  atoi arg = Ok v -> - 2 ^ 30 <= v < 0 ->
  (forall k, serves (envs k)) ->
  v * v < Z.of_nat fuel ->
  configuration [arg] = Ok (Run (2 ^ 64 + v) DEFAULT_TILE_SIZE false) /\
  main minus_one one tol USE_VECTOR fuel envs seed [arg] = Fault.
Proof.
  intros Hatoi Hv Hserves Hfuel.
  assert (Hcfg : configuration [arg] = Ok (Run (2 ^ 64 + v) DEFAULT_TILE_SIZE false))
    by (apply negative_size_run; [assumption|lia]).
  split; [assumption|].
  unfold main. rewrite Hcfg. cbn [obind].
  apply benchmark_wrapped_faults; assumption.
Qed.

End NegativeSizeTheorem.

Lemma negative_size_minus_5 :
  configuration ["-5"] = Ok (Run (2 ^ 64 + -5) DEFAULT_TILE_SIZE false) /\
  main (-1)%Q 1%Q tolerance_Q false 26 (fun _ => generous) 1 ["-5"] = Fault.
Proof.
  apply (negative_size_accepted_then_faults (-1)%Q 1%Q tolerance_Q false 26
           (fun _ => generous) 1 "-5" (-5));
    first [ reflexivity | intros; apply generous_serves | lia ].
Defined.
